(** * Obsidian-RAG: task queue, offline queue and adaptive bulk scheduler

    A shallow embedding of the synchronisation core of the plugin:

    - [InitialSyncManager] follows [src/services/InitialSyncManager.ts]
      function by function (event handlers, exclusion filters, priority
      sort, adaptive batching, per-batch and per-file processing);
    - [QueueService] and [OfflineQueueManager] are not part of the
      available sources (only their tests are); their models are written
      from the specification and say so.

    Numbers that the TypeScript code uses as integers (sizes, counters,
    millisecond clocks, priorities) are [Z]; indices into arrays are [nat].
    Calls to collaborators are recorded in an event log, and what a
    collaborator answers is given by a [World] whose fields see the whole
    log so far, so that a collaborator may answer differently on each call. *)

From stdpp Require Import gmap strings list fin_maps fin_sets pretty sorting.
From Stdlib Require Import ZArith Lia.

Local Open Scope Z_scope.

(** ** Results of fallible calls *)

Inductive Result (E A : Type) : Type :=
| Ok (a : A)
| Err (e : E).
Arguments Ok {E A} a.
Arguments Err {E A} e.

(** ** models/ProcessingTask.ts and models/DocumentChunk.ts

    These two files are missing; the types below have the fields and the
    values that the scheduler and the tests use. *)

(** Modelled from the spec: the task types of section 3, named as
    [TaskType.CREATE], [TaskType.UPDATE] and [TaskType.DELETE] in the code. *)
Inductive TaskType : Type := CREATE | UPDATE | DELETE.

(** Modelled from the spec: the task statuses of section 3, under the names
    the code and the tests use for the two queued ones ([PENDING],
    [QUEUED_DURING_INIT]). *)
Inductive TaskStatus : Type :=
| PENDING | QUEUED_DURING_INIT | PROCESSING | COMPLETED | FAILED.

(** Modelled from the spec: the error of admission control, thrown as
    [TaskProcessingError.QUEUE_FULL] in the tests. *)
Inductive TaskProcessingError : Type := QUEUE_FULL.

#[global] Instance TaskType_eq_dec : EqDecision TaskType.
Proof. solve_decision. Defined.

#[global] Instance TaskStatus_eq_dec : EqDecision TaskStatus.
Proof. solve_decision. Defined.

(** Modelled from the spec: the document metadata, opaque to the queue;
    the fields are those the tests and [MetadataExtractor] fill in. *)
Record DocumentMetadata : Type := {
  obsidianId : string;
  md_path : string;
  md_lastModified : Z;
  md_created : Z;
  md_size : Z;
  (** [customMetadata.contentHash], when set *)
  contentHash : option string
}.

#[global] Instance DocumentMetadata_eq_dec : EqDecision DocumentMetadata.
Proof. solve_decision. Defined.

(** Modelled from the spec: the task of section 3, with the fields of the
    task literal that [processFile] builds ([data] left out). *)
Record ProcessingTask : Type := {
  task_id : string;
  task_type : TaskType;
  task_status : TaskStatus;
  priority : Z;
  maxRetries : Z;
  retryCount : Z;
  createdAt : Z;
  updatedAt : Z;
  task_metadata : DocumentMetadata
}.

#[global] Instance ProcessingTask_eq_dec : EqDecision ProcessingTask.
Proof. solve_decision. Defined.

Definition with_priority (p : Z) (t : ProcessingTask) : ProcessingTask :=
  {| task_id := task_id t; task_type := task_type t;
     task_status := task_status t; priority := p;
     maxRetries := maxRetries t; retryCount := retryCount t;
     createdAt := createdAt t; updatedAt := updatedAt t;
     task_metadata := task_metadata t |}.

(** ** QueueService.addTask *)

Module QueueService.

(** The queue size the test suite fills the queue up to. *)
Definition defaultMaxQueueSize : nat := 1000.

Definition DELETE_PRIORITY : Z := 3.

Definition isDelete (t : ProcessingTask) : bool :=
  bool_decide (task_type t = DELETE).

(** [queue.findIndex(t => t.id === task.id)] together with the entry
    found. *)
Definition findExisting (queue : list ProcessingTask) (task : ProcessingTask)
  : option (nat * ProcessingTask) :=
  list_find (λ t, task_id t = task_id task) queue.

(** Modelled from the spec: [QueueService.addTask] (the file
    [src/services/QueueService.ts] is missing). Section 4.1: the call
    fails with the queue-full error when the queue already holds the
    configured maximum; otherwise the coalescing rules apply, keyed by
    the task id: no entry, insert; an entry that is a DELETE, an incoming
    CREATE or UPDATE is dropped; an entry that is a CREATE or UPDATE and
    an incoming DELETE, the DELETE replaces it with the boosted priority;
    two mutations, the incoming one replaces the entry and keeps the
    higher priority. The queue is the array the tests inspect
    ([queue.length], [queue[0]]), and the bound is tested on its length,
    as the first edge-case test needs (1000 copies of one task count as a
    full queue). The spec says nothing on a DELETE arriving on a DELETE:
    [deleteKeepsExisting] chooses between keeping the entry and
    replacing it. *)
Definition addTask (deleteKeepsExisting : bool) (maxQueueSize : nat)
    (queue : list ProcessingTask) (task : ProcessingTask)
  : Result TaskProcessingError (list ProcessingTask) :=
  if decide (maxQueueSize ≤ length queue)%nat then Err QUEUE_FULL
  else
    match findExisting queue task with
    | None => Ok (queue ++ [task])
    | Some (i, existing) =>
        if isDelete existing then
          if isDelete task then
            Ok (if deleteKeepsExisting then queue else <[i:=task]> queue)
          else Ok queue
        else if isDelete task then
          Ok (<[i:=with_priority DELETE_PRIORITY task]> queue)
        else
          Ok (<[i:=with_priority (Z.max (priority existing) (priority task)) task]>
                queue)
    end.

(** The queue a caller is left with after one call: a rejected call
    leaves it as it was. *)
Definition afterAddTask (keep : bool) (maxQueueSize : nat)
    (queue : list ProcessingTask) (task : ProcessingTask)
  : list ProcessingTask :=
  match addTask keep maxQueueSize queue task with
  | Ok queue' => queue'
  | Err _ => queue
  end.

(** A sequence of enqueue calls, oldest first. *)
Definition enqueueAll (keep : bool) (maxQueueSize : nat)
    (queue : list ProcessingTask) (calls : list ProcessingTask)
  : list ProcessingTask :=
  foldl (afterAddTask keep maxQueueSize) queue calls.

(** How many distinct document identities the queue holds. *)
Definition distinctIdentities (queue : list ProcessingTask) : nat :=
  size (list_to_set (task_id <$> queue) : gset string).

(** The tasks the edge-case tests build ([createTask] of the test file). *)
Definition testMetadata : DocumentMetadata :=
  {| obsidianId := "Note.md"; md_path := "Note.md"; md_lastModified := 0;
     md_created := 0; md_size := 10; contentHash := None |}.

Definition createTask (id : string) (type : TaskType) : ProcessingTask :=
  {| task_id := id; task_type := type; task_status := PENDING;
     priority := 1; maxRetries := 3; retryCount := 0;
     createdAt := 0; updatedAt := 0; task_metadata := testMetadata |}.

(** Tasks for the identities "0", "1", ..., one CREATE each. *)
Definition numbered (n : nat) : list ProcessingTask :=
  (λ k, createTask (pretty k) CREATE) <$> seq 0 n.

End QueueService.

(** ** JavaScript string helpers used by the exclusion and priority rules *)

Module Js.

(** [s.startsWith(p)] *)
Definition startsWith (s p : string) : bool := String.prefix p s.

(** [s.endsWith(p)] *)
Definition endsWith (s p : string) : bool :=
  String.prefix (String.rev p) (String.rev s).

(** [s.includes(p)]: [p] occurs somewhere in [s]. *)
Fixpoint includes (s p : string) : bool :=
  String.prefix p s
  || match s with
     | EmptyString => false
     | String _ s' => includes s' p
     end.

Definition lowerAscii (c : Strings.Ascii.ascii) : Strings.Ascii.ascii :=
  let n := Strings.Ascii.nat_of_ascii c in
  if (65 <=? n)%nat && (n <=? 90)%nat
  then Strings.Ascii.ascii_of_nat (n + 32) else c.

(** [s.toLowerCase()] on the ASCII letters. *)
Fixpoint toLowerCase (s : string) : string :=
  match s with
  | EmptyString => EmptyString
  | String c s' => String (lowerAscii c) (toLowerCase s')
  end.

Definition dot : Strings.Ascii.ascii := Strings.Ascii.ascii_of_nat 46.

(** [s.split('.').pop()]: what follows the last dot, or the whole string
    when it has none. *)
Fixpoint afterLastDot_go (acc s : string) : string :=
  match s with
  | EmptyString => String.rev acc
  | String c s' =>
      if Strings.Ascii.eqb c dot then afterLastDot_go EmptyString s'
      else afterLastDot_go (String c acc) s'
  end.
Definition afterLastDot (s : string) : string := afterLastDot_go EmptyString s.

(** [Math.round(p * 1.25)] and [Math.round(p * 0.8)] for an integer [p]:
    [Math.round] is [floor (x + 1/2)]. *)
Definition round_times_1_25 (p : Z) : Z := (5 * p + 2) / 4.
Definition round_times_0_8 (p : Z) : Z := (8 * p + 5) / 10.

(** [Math.ceil(a / b)] for integers [a] and [b] with [b] positive. *)
Definition ceilDiv (a b : Z) : Z := - ((- a) / b).

End Js.

(** ** InitialSyncManager *)

Module InitialSyncManager.

Record TFile : Type := {
  path : string;
  name : string;
  stat_mtime : Z;
  stat_ctime : Z;
  stat_size : Z
}.

#[global] Instance TFile_eq_dec : EqDecision TFile.
Proof. solve_decision. Defined.

Record ThrottlingControls : Type := {
  minBatchSize : Z;
  maxBatchSize : Z;
  targetBatchDurationMs : Z;
  throttleDelayMs : Z;
  progressIntervalMs : Z
}.

Record Exclusions : Type := {
  excludedFolders : list string;
  excludedFileTypes : list string;
  excludedFilePrefixes : list string;
  excludedFiles : list string
}.

Record PriorityRule : Type := {
  pattern : string;
  rule_priority : Z
}.

Record InitialSyncOptions : Type := {
  batchSize : Z;
  maxConcurrentBatches : Z;
  enableAutoInitialSync : bool;
  priorityRules : list PriorityRule;
  syncFilePath : option string;
  exclusions : option Exclusions;
  throttling : ThrottlingControls
}.

Definition defaultThrottling : ThrottlingControls :=
  {| minBatchSize := 10; maxBatchSize := 200; targetBatchDurationMs := 2000;
     throttleDelayMs := 0; progressIntervalMs := 16 |}.

Definition noExclusions : Exclusions :=
  {| excludedFolders := []; excludedFileTypes := [];
     excludedFilePrefixes := []; excludedFiles := [] |}.

(** The options the constructor starts from. *)
Definition defaultOptions : InitialSyncOptions :=
  {| batchSize := 50; maxConcurrentBatches := 3; enableAutoInitialSync := true;
     priorityRules := []; syncFilePath := Some "_obsidianragsync.md";
     exclusions := Some noExclusions; throttling := defaultThrottling |}.

Inductive BatchStatus : Type :=
| BatchPending | BatchProcessing | BatchCompleted | BatchFailed.

#[global] Instance BatchStatus_eq_dec : EqDecision BatchStatus.
Proof. solve_decision. Defined.

(** A batch; [batch_id] is the counter of [`batch-${batchCounter++}`], and
    [batch_progress] keeps the percentage [processed / total * 100] as the
    pair [(processed, total)]. *)
Record SyncBatch : Type := {
  batch_id : nat;
  files : list TFile;
  status : BatchStatus;
  batch_progress : Z * Z;
  startTime : option Z;
  endTime : option Z
}.

Record SyncProgress : Type := {
  totalFiles : Z;
  processedFiles : Z;
  currentBatch : Z;
  totalBatches : Z;
  progress_startTime : Z
}.

(** An entry of [pendingFileMetadata]. *)
Record PendingFile : Type := {
  pf_metadata : DocumentMetadata;
  pf_hash : string;
  pf_lastModified : Z
}.

(** The mutable fields of the manager. *)
Record State : Type := {
  batches : list SyncBatch;
  progress : SyncProgress;
  isRunning : bool;
  options : InitialSyncOptions;
  embeddingWarningShown : bool;
  adaptiveBatchSize : Z;
  completedBatchCount : Z;
  rafScheduled : bool;
  rafFallbackTimer : bool;
  pendingFileMetadata : gmap string PendingFile
}.

(** What JavaScript throws: [isError] is [error instanceof Error]. *)
Record JsError : Type := {
  isError : bool;
  message : string
}.

Inductive SyncFileStatus : Type := SYNC_OK | SYNC_FAILED | SYNC_PENDING.

#[global] Instance SyncFileStatus_eq_dec : EqDecision SyncFileStatus.
Proof. solve_decision. Defined.

(** One entry of the log per call that leaves the manager. *)
Inductive Event : Type :=
| EvGetFileCount
| EvGetMarkdownFiles
| EvExtractMetadata (file : TFile)
| EvVaultRead (file : TFile)
| EvUpdateFileVectorizationStatus (metadata : DocumentMetadata) (vstatus : string)
| EvUpdateSyncStatus (id : string) (sstatus : SyncFileStatus)
    (lastModified : Z) (hash : string)
| EvIsInitialized
| EvNotice (text : string)
| EvAddTask (task : ProcessingTask)
| EvHandleError (error : JsError) (context : string) (filePath : string)
| EvDateNow (t : Z)
| EvRequestAnimationFrame
| EvSetTimeout (ms : Z).

(** The collaborators. Each answer may depend on everything that was
    called before. [Err] is a rejected promise or a thrown error. *)
Record World : Type := {
  getFileCount : list Event → Result JsError N;
  getMarkdownFiles : list Event → list TFile;
  extractMetadata : list Event → TFile → Result JsError DocumentMetadata;
  vaultRead : list Event → TFile → Result JsError string;
  sha256Hex : string → string;
  updateFileVectorizationStatus :
    list Event → DocumentMetadata → string → Result JsError unit;
  updateSyncStatus :
    list Event → string → SyncFileStatus → Z → string → Result JsError unit;
  isInitialized : list Event → bool;
  addTask : list Event → ProcessingTask → Result JsError unit;
  dateNow : list Event → Z;
  hasAnimationFrame : bool
}.

(** What the constructor is given and never changes: whether a Supabase
    service and an embedding service were passed (or [null]). *)
Record Services : Type := {
  supabaseService : bool;
  embeddingService : bool
}.

(** *** A state, log and exception monad *)

Record Run : Type := { log : list Event; st : State }.

Definition Sync (A : Type) : Type := Run → Result JsError A * Run.

Definition ret {A} (a : A) : Sync A := λ r, (Ok a, r).

Definition throw {A} (e : JsError) : Sync A := λ r, (Err e, r).

Definition bind {A B} (m : Sync A) (k : A → Sync B) : Sync B :=
  λ r, match m r with
       | (Ok a, r') => k a r'
       | (Err e, r') => (Err e, r')
       end.

Definition tryCatch {A} (m : Sync A) (handler : JsError → Sync A) : Sync A :=
  λ r, match m r with
       | (Ok a, r') => (Ok a, r')
       | (Err e, r') => handler e r'
       end.

Definition tryFinally {A} (m : Sync A) (cleanup : Sync unit) : Sync A :=
  λ r, match m r with
       | (res, r') =>
           match cleanup r' with
           | (Ok _, r'') => (res, r'')
           | (Err e, r'') => (Err e, r'')
           end
       end.

Definition get : Sync State := λ r, (Ok (st r), r).

Definition modify (f : State → State) : Sync unit :=
  λ r, (Ok tt, {| log := log r; st := f (st r) |}).

Definition emit (ev : Event) : Sync unit :=
  λ r, (Ok tt, {| log := log r ++ [ev]; st := st r |}).

(** A call to a collaborator: it is logged, and its answer is the one the
    world gives after what was logged before. *)
Definition invoke {A} (ev : Event) (answer : list Event → Result JsError A)
  : Sync A :=
  λ r, (answer (log r), {| log := log r ++ [ev]; st := st r |}).

#[global] Instance Sync_ret : MRet Sync := @ret.
#[global] Instance Sync_bind : MBind Sync := λ A B k m, bind m k.

(** *** Field updates *)

Definition set_batches (f : list SyncBatch → list SyncBatch) (s : State) : State :=
  {| batches := f (batches s); progress := progress s; isRunning := isRunning s;
     options := options s; embeddingWarningShown := embeddingWarningShown s;
     adaptiveBatchSize := adaptiveBatchSize s;
     completedBatchCount := completedBatchCount s;
     rafScheduled := rafScheduled s; rafFallbackTimer := rafFallbackTimer s;
     pendingFileMetadata := pendingFileMetadata s |}.

Definition set_progress (f : SyncProgress → SyncProgress) (s : State) : State :=
  {| batches := batches s; progress := f (progress s); isRunning := isRunning s;
     options := options s; embeddingWarningShown := embeddingWarningShown s;
     adaptiveBatchSize := adaptiveBatchSize s;
     completedBatchCount := completedBatchCount s;
     rafScheduled := rafScheduled s; rafFallbackTimer := rafFallbackTimer s;
     pendingFileMetadata := pendingFileMetadata s |}.

Definition set_isRunning (b : bool) (s : State) : State :=
  {| batches := batches s; progress := progress s; isRunning := b;
     options := options s; embeddingWarningShown := embeddingWarningShown s;
     adaptiveBatchSize := adaptiveBatchSize s;
     completedBatchCount := completedBatchCount s;
     rafScheduled := rafScheduled s; rafFallbackTimer := rafFallbackTimer s;
     pendingFileMetadata := pendingFileMetadata s |}.

Definition set_embeddingWarningShown (b : bool) (s : State) : State :=
  {| batches := batches s; progress := progress s; isRunning := isRunning s;
     options := options s; embeddingWarningShown := b;
     adaptiveBatchSize := adaptiveBatchSize s;
     completedBatchCount := completedBatchCount s;
     rafScheduled := rafScheduled s; rafFallbackTimer := rafFallbackTimer s;
     pendingFileMetadata := pendingFileMetadata s |}.

Definition set_adaptiveBatchSize (n : Z) (s : State) : State :=
  {| batches := batches s; progress := progress s; isRunning := isRunning s;
     options := options s; embeddingWarningShown := embeddingWarningShown s;
     adaptiveBatchSize := n;
     completedBatchCount := completedBatchCount s;
     rafScheduled := rafScheduled s; rafFallbackTimer := rafFallbackTimer s;
     pendingFileMetadata := pendingFileMetadata s |}.

Definition set_completedBatchCount (n : Z) (s : State) : State :=
  {| batches := batches s; progress := progress s; isRunning := isRunning s;
     options := options s; embeddingWarningShown := embeddingWarningShown s;
     adaptiveBatchSize := adaptiveBatchSize s;
     completedBatchCount := n;
     rafScheduled := rafScheduled s; rafFallbackTimer := rafFallbackTimer s;
     pendingFileMetadata := pendingFileMetadata s |}.

Definition set_raf (scheduled timer : bool) (s : State) : State :=
  {| batches := batches s; progress := progress s; isRunning := isRunning s;
     options := options s; embeddingWarningShown := embeddingWarningShown s;
     adaptiveBatchSize := adaptiveBatchSize s;
     completedBatchCount := completedBatchCount s;
     rafScheduled := scheduled; rafFallbackTimer := timer;
     pendingFileMetadata := pendingFileMetadata s |}.

Definition set_pendingFileMetadata
    (f : gmap string PendingFile → gmap string PendingFile) (s : State) : State :=
  {| batches := batches s; progress := progress s; isRunning := isRunning s;
     options := options s; embeddingWarningShown := embeddingWarningShown s;
     adaptiveBatchSize := adaptiveBatchSize s;
     completedBatchCount := completedBatchCount s;
     rafScheduled := rafScheduled s; rafFallbackTimer := rafFallbackTimer s;
     pendingFileMetadata := f (pendingFileMetadata s) |}.

Definition with_processedFiles (n : Z) (p : SyncProgress) : SyncProgress :=
  {| totalFiles := totalFiles p; processedFiles := n;
     currentBatch := currentBatch p; totalBatches := totalBatches p;
     progress_startTime := progress_startTime p |}.

Definition with_batchCounters (current total : Z) (p : SyncProgress) : SyncProgress :=
  {| totalFiles := totalFiles p; processedFiles := processedFiles p;
     currentBatch := current; totalBatches := total;
     progress_startTime := progress_startTime p |}.

Definition with_status (x : BatchStatus) (b : SyncBatch) : SyncBatch :=
  {| batch_id := batch_id b; files := files b; status := x;
     batch_progress := batch_progress b;
     startTime := startTime b; endTime := endTime b |}.

Definition with_startTime (t : Z) (b : SyncBatch) : SyncBatch :=
  {| batch_id := batch_id b; files := files b; status := status b;
     batch_progress := batch_progress b;
     startTime := Some t; endTime := endTime b |}.

Definition with_endTime (t : Z) (b : SyncBatch) : SyncBatch :=
  {| batch_id := batch_id b; files := files b; status := status b;
     batch_progress := batch_progress b;
     startTime := startTime b; endTime := Some t |}.

Definition with_batch_progress (p : Z * Z) (b : SyncBatch) : SyncBatch :=
  {| batch_id := batch_id b; files := files b; status := status b;
     batch_progress := p;
     startTime := startTime b; endTime := endTime b |}.

Definition with_contentHash (h : string) (m : DocumentMetadata) : DocumentMetadata :=
  {| obsidianId := obsidianId m; md_path := md_path m;
     md_lastModified := md_lastModified m; md_created := md_created m;
     md_size := md_size m; contentHash := Some h |}.

(** A batch object is shared between [this.batches] and the worker that
    runs it: the worker holds its index in [batches] and writes there. *)
Definition updateBatch (i : nat) (f : SyncBatch → SyncBatch) : Sync unit :=
  modify (set_batches (alter f i)).

Definition DEFAULT_SYNC_FILE : string := "_obsidianragsync.md".
Definition BACKUP_SYNC_FILE : string := "_obsidianragsync.md.backup".

(** [this.options.syncFilePath || '_obsidianragsync.md'] *)
Definition effectiveSyncFilePath (o : InitialSyncOptions) : string :=
  match syncFilePath o with
  | Some p => if decide (p = EmptyString) then DEFAULT_SYNC_FILE else p
  | None => DEFAULT_SYNC_FILE
  end.

(** [this.options.exclusions || { ... empty lists ... }] *)
Definition effectiveExclusions (o : InitialSyncOptions) : Exclusions :=
  default noExclusions (exclusions o).

Definition isSyncFile (o : InitialSyncOptions) (p : string) : bool :=
  bool_decide (p = effectiveSyncFilePath o)
  || bool_decide (p = DEFAULT_SYNC_FILE)
  || bool_decide (p = BACKUP_SYNC_FILE).

(** *** Exclusion rules and priorities (pure) *)

Definition withSlash (folder : string) : string :=
  if Js.endsWith folder "/" then folder else String.app folder "/".

Definition keptByFilter (o : InitialSyncOptions) (file : TFile) : bool :=
  let ex := effectiveExclusions o in
  if isSyncFile o (path file) then false
  else if bool_decide (name file ∈ excludedFiles ex) then false
  else if existsb (λ folder, Js.startsWith (path file) (withSlash folder))
            (excludedFolders ex) then false
  else if existsb (λ ext, Js.endsWith (Js.toLowerCase (path file)) (Js.toLowerCase ext))
            (excludedFileTypes ex) then false
  else if existsb (λ prefix, Js.startsWith (name file) prefix)
            (excludedFilePrefixes ex) then false
  else true.

Definition filterExcludedFiles (o : InitialSyncOptions) (fs : list TFile)
  : list TFile :=
  filter (λ file, keptByFilter o file = true) fs.

Definition isExcluded (o : InitialSyncOptions) (p : string) : bool :=
  let ex := effectiveExclusions o in
  if existsb (λ folder, Js.startsWith p folder) (excludedFolders ex) then true
  else
    let fileExtension := Js.toLowerCase (Js.afterLastDot p) in
    if negb (bool_decide (fileExtension = EmptyString))
       && bool_decide (fileExtension ∈ excludedFileTypes ex) then true
    else if existsb (λ prefix, Js.startsWith p prefix) (excludedFilePrefixes ex)
    then true
    else bool_decide (p ∈ excludedFiles ex).

(** The priority of the first rule whose pattern occurs in the path,
    1 when none does. *)
Fixpoint firstMatch (rules : list PriorityRule) (p : string) : Z :=
  match rules with
  | [] => 1
  | rule :: rules' =>
      if Js.includes p (pattern rule) then rule_priority rule
      else firstMatch rules' p
  end.

Definition getFilePriority (o : InitialSyncOptions) (p : string) : Z :=
  firstMatch (priorityRules o) p.

(** [files.sort((a, b) => priorityB - priorityA)]: a stable sort,
    highest priority first. *)
Fixpoint insertByPriority (o : InitialSyncOptions) (x : TFile) (l : list TFile)
  : list TFile :=
  match l with
  | [] => [x]
  | y :: l' =>
      if getFilePriority o (path x) <? getFilePriority o (path y)
      then y :: insertByPriority o x l'
      else x :: y :: l'
  end.

Definition sortFilesByPriority (o : InitialSyncOptions) (fs : list TFile)
  : list TFile :=
  foldr (insertByPriority o) [] fs.

(** *** adjustBatchSize

    [duration < target * 0.6] is [5 * duration < 3 * target] and
    [duration > target * 1.4] is [5 * duration > 7 * target]: durations
    and the target are whole milliseconds. *)
Definition nextBatchSize (th : ThrottlingControls) (current duration : Z)
    (processedCount : nat) : Z :=
  if bool_decide (processedCount = 0%nat) || (duration <=? 0) then current
  else if (5 * duration <? 3 * targetBatchDurationMs th)
          && (current <? maxBatchSize th) then
    Z.min (maxBatchSize th) (Z.max 1 (Js.round_times_1_25 current))
  else if (7 * targetBatchDurationMs th <? 5 * duration)
          && (minBatchSize th <? current) then
    Z.max (minBatchSize th) (Z.max 1 (Js.round_times_0_8 current))
  else current.

Definition adjustBatchSize (duration : Z) (processedCount : nat) (s : State)
  : State :=
  set_adaptiveBatchSize
    (nextBatchSize (throttling (options s)) (adaptiveBatchSize s)
       duration processedCount) s.

(** *** The methods that call collaborators *)

Section Methods.

Context (w : World) (svc : Services).

(** [Date.now()] *)
Definition now : Sync Z :=
  λ r, let t := dateNow w (log r) in
       (Ok t, {| log := log r ++ [EvDateNow t]; st := st r |}).

Definition handleError (error : JsError) (context filePath : string)
  : Sync unit :=
  emit (EvHandleError error context filePath).

Definition handleTaskCompleted (task : ProcessingTask) : Sync unit :=
  s ← get;
  match pendingFileMetadata s !! task_id task with
  | Some pending =>
      modify (set_pendingFileMetadata (delete (task_id task)));;
      if negb (supabaseService svc) then
        tryCatch
          (invoke
             (EvUpdateSyncStatus (task_id task) SYNC_OK
                (pf_lastModified pending) (pf_hash pending))
             (λ l, updateSyncStatus w l (task_id task) SYNC_OK
                     (pf_lastModified pending) (pf_hash pending)))
          (λ error,
             handleError error "InitialSyncManager.handleTaskCompleted"
               (task_id task))
      else ret tt
  | None => ret tt
  end.

Definition handleTaskFailed (task : ProcessingTask) (error : JsError)
  : Sync unit :=
  s ← get;
  match pendingFileMetadata s !! task_id task with
  | Some pending =>
      modify (set_pendingFileMetadata (delete (task_id task)));;
      if negb (supabaseService svc) then
        tryCatch
          (invoke
             (EvUpdateSyncStatus (task_id task) SYNC_FAILED
                (pf_lastModified pending) (pf_hash pending))
             (λ l, updateSyncStatus w l (task_id task) SYNC_FAILED
                     (pf_lastModified pending) (pf_hash pending)))
          (λ updateError,
             handleError updateError "InitialSyncManager.handleTaskFailed"
               (task_id task))
      else ret tt
  | None => ret tt
  end;;
  if isError error then
    handleError error "InitialSyncManager.queueTaskFailed" (task_id task)
  else ret tt.

(** The hash of the content, or the empty string when the file cannot
    be read. *)
Definition calculateFileHash (file : TFile) : Sync string :=
  tryCatch
    (content ← invoke (EvVaultRead file) (λ l, vaultRead w l file);
     ret (sha256Hex w content))
    (λ error,
       handleError error "InitialSyncManager.calculateFileHash" (path file);;
       ret EmptyString).

Definition updateProgressNotification : Sync unit :=
  s ← get;
  if bool_decide (totalFiles (progress s) = 0) then ret tt
  else if rafScheduled s then ret tt
  else if hasAnimationFrame w then
    modify (set_raf true (rafFallbackTimer s));;
    emit EvRequestAnimationFrame
  else
    modify (set_raf true true);;
    emit (EvSetTimeout
            (Z.max 16 (progressIntervalMs (throttling (options s))))).

Definition newTask (o : InitialSyncOptions) (file : TFile)
    (metadata : DocumentMetadata) (created updated : Z) : ProcessingTask :=
  {| task_id := path file; task_type := CREATE;
     task_status := QUEUED_DURING_INIT;
     priority := getFilePriority o (path file);
     maxRetries := 3; retryCount := 0;
     createdAt := created; updatedAt := updated;
     task_metadata := metadata |}.

(** [this.embeddingService?.isInitialized()], false without a service. *)
Definition embeddingReady : Sync bool :=
  if embeddingService svc
  then invoke EvIsInitialized (λ l, Ok (isInitialized w l))
  else ret false.

Definition processFile_body (file : TFile) : Sync unit :=
  s ← get;
  if isSyncFile (options s) (path file) then ret tt
  else
    extracted ← invoke (EvExtractMetadata file) (λ l, extractMetadata w l file);
    fileHash ← calculateFileHash file;
    let metadata := with_contentHash fileHash extracted in
    modify (set_pendingFileMetadata
              (<[path file :=
                   {| pf_metadata := metadata; pf_hash := fileHash;
                      pf_lastModified := stat_mtime file |}]>));;
    (if supabaseService svc then
       invoke (EvUpdateFileVectorizationStatus metadata "pending")
         (λ l, updateFileVectorizationStatus w l metadata "pending")
     else
       invoke (EvUpdateSyncStatus (path file) SYNC_PENDING
                 (stat_mtime file) fileHash)
         (λ l, updateSyncStatus w l (path file) SYNC_PENDING
                 (stat_mtime file) fileHash));;
    s1 ← get;
    (if embeddingWarningShown s1 then ret tt
     else
       initialized ← embeddingReady;
       if (initialized : bool) then ret tt
       else
         modify (set_embeddingWarningShown true);;
         emit (EvNotice "No embedding provider configured. Initial sync will queue tasks, but embedding generation may fail until configured."));;
    created ← now;
    updated ← now;
    let task := newTask (options s) file metadata created updated in
    invoke (EvAddTask task) (λ l, addTask w l task).

Definition processFile (file : TFile) : Sync unit :=
  tryCatch (processFile_body file)
    (λ error,
       modify (set_pendingFileMetadata (delete (path file)));;
       handleError error "InitialSyncManager.processFile" (path file);;
       throw error).

(** One turn of the loop over [batch.files]. *)
Definition processBatchFile (i : nat) (file : TFile) : Sync unit :=
  tryCatch
    (processFile file;;
     modify (set_progress
               (λ p, with_processedFiles (processedFiles p + 1) p));;
     s ← get;
     updateBatch i
       (with_batch_progress
          (processedFiles (progress s), totalFiles (progress s)));;
     updateProgressNotification)
    (λ error,
       handleError error "InitialSyncManager.processFile" (path file)).

Fixpoint forEachFile (i : nat) (fs : list TFile) : Sync unit :=
  match fs with
  | [] => ret tt
  | file :: fs' => processBatchFile i file;; forEachFile i fs'
  end.

Definition batchFiles (s : State) (i : nat) : list TFile :=
  from_option files [] (batches s !! i).

(** [processBatch(batch)], [batch] being [this.batches[i]]. *)
Definition processBatch (i : nat) : Sync Z :=
  tryCatch
    (updateBatch i (with_status BatchProcessing);;
     started ← now;
     updateBatch i (with_startTime started);;
     s ← get;
     forEachFile i (batchFiles s i);;
     updateBatch i (with_status BatchCompleted);;
     ended ← now;
     updateBatch i (with_endTime ended);;
     ret (ended - started))
    (λ error,
       updateBatch i (with_status BatchFailed);;
       throw error).

(** *** processFilesAdaptive

    The locals [nextIndex] and [batchCounter] of the closure. *)
Record Cursor : Type := { nextIndex : nat; batchCounter : nat }.

Definition normalizedBatchSize (s : State) : Z :=
  let th := throttling (options s) in
  Z.min (maxBatchSize th) (Z.max (minBatchSize th) (adaptiveBatchSize s)).

Definition sliceSize (s : State) (total : nat) (c : Cursor) : nat :=
  let remaining := Z.of_nat (total - nextIndex c) in
  Z.to_nat (Z.max 1 (Z.min (normalizedBatchSize s) remaining)).

(** [getNextBatch()]: the index in [this.batches] of the batch claimed,
    if any file is left. *)
Definition getNextBatch (allFiles : list TFile) (c : Cursor)
  : Sync (option nat * Cursor) :=
  s ← get;
  if decide (length allFiles ≤ nextIndex c)%nat then ret (None, c)
  else
    let size := sliceSize s (length allFiles) c in
    let batch :=
      {| batch_id := batchCounter c;
         files := take size (drop (nextIndex c) allFiles);
         status := BatchPending; batch_progress := (0, 1);
         startTime := None; endTime := None |} in
    modify (set_batches (λ bs, bs ++ [batch]));;
    ret (Some (length (batches s)),
         {| nextIndex := (nextIndex c + size)%nat;
            batchCounter := S (batchCounter c) |}).

(** A worker is either inside [processBatch] on the batch it holds, or
    waiting for the throttle delay before it claims again. *)
Inductive Worker : Type :=
| Processing (batch : nat)
| Throttled.

Definition claimNext (allFiles : list TFile) (c : Cursor)
  : Sync (option Worker * Cursor) :=
  r ← getNextBatch allFiles c;
  ret (Processing <$> r.1, r.2).

(** After [processBatch]: the bookkeeping of the [while] loop. *)
Definition afterBatch (duration : Z) (processedCount : nat) : Sync unit :=
  modify (adjustBatchSize duration processedCount);;
  modify (λ s, set_completedBatchCount (completedBatchCount s + 1) s);;
  modify (λ s,
    let remainingFiles :=
      totalFiles (progress s) - processedFiles (progress s) in
    let estimatedRemainingBatches :=
      Js.ceilDiv remainingFiles (Z.max 1 (adaptiveBatchSize s)) in
    set_progress
      (with_batchCounters (completedBatchCount s)
         (completedBatchCount s + Z.max 0 estimatedRemainingBatches)) s).

(** A worker runs until its next suspension between two batches. A
    worker whose function throws is settled as rejected and is gone. *)
Definition workerStep (allFiles : list TFile) (wk : Worker) (c : Cursor)
  : Sync (option Worker * Cursor) :=
  match wk with
  | Processing i =>
      tryCatch
        (duration ← processBatch i;
         s ← get;
         afterBatch duration (length (batchFiles s i));;
         let delay := throttleDelayMs (throttling (options s)) in
         if 0 <? delay then emit (EvSetTimeout delay);; ret (Some Throttled, c)
         else claimNext allFiles c)
        (λ _, ret (None, c))
  | Throttled => claimNext allFiles c
  end.

(** The [for] loop that starts at most [n] workers. *)
Fixpoint startWorkers (n : nat) (allFiles : list TFile) (c : Cursor)
  : Sync (list Worker * Cursor) :=
  match n with
  | O => ret ([], c)
  | S n' =>
      r ← getNextBatch allFiles c;
      match r.1 with
      | None => ret ([], r.2)
      | Some i =>
          rest ← startWorkers n' allFiles r.2;
          ret (Processing i :: rest.1, rest.2)
      end
  end.

(** The workers take turns; [schedule] says whose turn it is. *)
Fixpoint runWorkers (fuel : nat) (schedule : nat → nat)
    (allFiles : list TFile) (workers : list Worker) (c : Cursor)
  : Sync (list Worker * Cursor) :=
  match fuel with
  | O => ret (workers, c)
  | S fuel' =>
      let k := (schedule fuel' `mod` length workers)%nat in
      match workers !! k with
      | None => ret (workers, c)
      | Some wk =>
          r ← workerStep allFiles wk c;
          runWorkers fuel' schedule allFiles
            (match r.1 with
             | Some wk' => <[k:=wk']> workers
             | None => delete k workers
             end) r.2
      end
  end.

Definition concurrencyOf (o : InitialSyncOptions) : nat :=
  Z.to_nat (Z.max 1 (maxConcurrentBatches o)).

(** The pool of [processFilesAdaptive]: the workers still running when
    it stops (none, see [pool_drains]) and the final cursor. *)
Definition runPool (schedule : nat → nat) (allFiles : list TFile)
  : Sync (list Worker * Cursor) :=
  s ← get;
  started ← startWorkers (concurrencyOf (options s)) allFiles
              {| nextIndex := 0; batchCounter := 0 |};
  runWorkers (2 * length allFiles) schedule allFiles started.1 started.2.

Definition processFilesAdaptive (schedule : nat → nat) (allFiles : list TFile)
  : Sync unit :=
  match allFiles with
  | [] => ret tt
  | _ => runPool schedule allFiles;; ret tt
  end.

(** *** startSync *)

Definition resetForRun (total started : Z) (s : State) : State :=
  let o := options s in
  {| batches := [];
     progress :=
       {| totalFiles := total; processedFiles := 0; currentBatch := 0;
          totalBatches := Z.max 1 (Js.ceilDiv total (Z.max 1 (batchSize o)));
          progress_startTime := started |};
     isRunning := isRunning s; options := o;
     embeddingWarningShown := embeddingWarningShown s;
     adaptiveBatchSize := batchSize o;
     completedBatchCount := 0;
     rafScheduled := rafScheduled s; rafFallbackTimer := rafFallbackTimer s;
     pendingFileMetadata := pendingFileMetadata s |}.

(** Whether the database already holds files: asked only when a
    Supabase service is configured. *)
Definition alreadySynced : Sync bool :=
  if supabaseService svc then
    existingFiles ← invoke EvGetFileCount (getFileCount w);
    ret (bool_decide (0 < existingFiles)%N)
  else ret false.

Definition startSync (schedule : nat → nat) : Sync unit :=
  tryFinally
    (tryCatch
       (modify (set_isRunning true);;
        skip ← alreadySynced;
        if (skip : bool) then ret tt
        else
          allFiles ← invoke EvGetMarkdownFiles (λ l, Ok (getMarkdownFiles w l));
          s ← get;
          let filteredFiles := filterExcludedFiles (options s) allFiles in
          let filesToSync :=
            filter (λ file, isExcluded (options s) (path file) = false)
              filteredFiles in
          if bool_decide (length filesToSync = 0%nat) then ret tt
          else
            let prioritizedFiles := sortFilesByPriority (options s) filesToSync in
            started ← now;
            modify (resetForRun (Z.of_nat (length prioritizedFiles)) started);;
            processFilesAdaptive schedule prioritizedFiles)
       (λ error, throw error))
    (modify (set_isRunning false)).

End Methods.

(** *** What the properties below are stated with *)


(** [wp m r Q]: running [m] from [r] ends in a result and a run that
    satisfy [Q]. *)
Definition wp {A} (m : Sync A) (r : Run)
    (Q : Result JsError A → Run → Prop) : Prop :=
  Q (m r).1 (m r).2.

(** The files handed to the metadata extractor, in call order. *)
Definition attempted (l : list Event) : list TFile :=
  omap (λ ev, match ev with EvExtractMetadata file => Some file | _ => None end) l.

(** The calls to [syncManager.updateSyncStatus]. *)
Definition isSyncFileWrite (ev : Event) : bool :=
  match ev with EvUpdateSyncStatus _ _ _ _ => true | _ => false end.

Definition syncFileWrites (l : list Event) : list Event :=
  filter (λ ev, isSyncFileWrite ev = true) l.

(** The calls that reach the task queue. *)
Definition enqueued (l : list Event) : list ProcessingTask :=
  omap (λ ev, match ev with EvAddTask task => Some task | _ => None end) l.

(** What was logged between two points of a run. *)
Definition newEvents (before after : Run) : list Event :=
  drop (length (log before)) (log after).

(** A batch up to its progress field. *)
Definition eraseProgress (b : SyncBatch) : SyncBatch :=
  with_batch_progress (0, 1) b.

(** A batch after [processBatch] went through. *)
Definition finished (started ended : Z) (b : SyncBatch) : SyncBatch :=
  with_endTime ended (with_status BatchCompleted (with_startTime started b)).

(** What is left to do in the pool: two steps for each file not yet
    claimed and for each worker inside a batch, one for each worker that
    waits. Every turn of a worker lowers it. *)
Definition weight (wk : Worker) : nat :=
  match wk with Processing _ => 2 | Throttled => 1 end.

Definition poolMeasure (total : nat) (workers : list Worker) (c : Cursor) : nat :=
  2 * (total - nextIndex c) + sum_list_with weight workers.

(** What holds between two turns of the pool: the batches pushed since
    the pool started ([base] is what [this.batches] held before) cut the
    files claimed so far, in order, into slices of at least one file and
    of at most [max(1, maxBatchSize)] files. *)
Definition PoolInv (o : InitialSyncOptions) (base : list (list TFile))
    (allFiles : list TFile) (r : Run) (c : Cursor) : Prop :=
  options (st r) = o
  ∧ (nextIndex c ≤ length allFiles)%nat
  ∧ ∃ slices,
      files <$> batches (st r) = base ++ slices
      ∧ concat slices = take (nextIndex c) allFiles
      ∧ Forall (λ slice, (1 ≤ length slice)%nat) slices
      ∧ Forall (λ slice, Z.of_nat (length slice)
                         ≤ Z.max 1 (maxBatchSize (throttling o))) slices.

(** *** Sample files, states and worlds *)

Definition note (p : string) : TFile :=
  {| path := p; name := p; stat_mtime := 123; stat_ctime := 100; stat_size := 10 |}.

Definition metadataOf (file : TFile) : DocumentMetadata :=
  {| obsidianId := path file; md_path := path file;
     md_lastModified := stat_mtime file; md_created := stat_ctime file;
     md_size := stat_size file; contentHash := None |}.

Definition initialState (o : InitialSyncOptions) : State :=
  {| batches := [];
     progress := {| totalFiles := 0; processedFiles := 0; currentBatch := 0;
                    totalBatches := 0; progress_startTime := 0 |};
     isRunning := false; options := o; embeddingWarningShown := false;
     adaptiveBatchSize := batchSize o; completedBatchCount := 0;
     rafScheduled := false; rafFallbackTimer := false;
     pendingFileMetadata := ∅ |}.

Definition failure : JsError := {| isError := true; message := "failed" |}.

(** A world where every call succeeds, the vault holds [vaultFiles], the
    store holds [count] records and the clock advances with the log. *)
Definition calmWorld (vaultFiles : list TFile) (count : N) : World :=
  {| getFileCount := λ _, Ok count;
     getMarkdownFiles := λ _, vaultFiles;
     extractMetadata := λ _ file, Ok (metadataOf file);
     vaultRead := λ _ _, Ok "content";
     sha256Hex := λ _, "abc";
     updateFileVectorizationStatus := λ _ _ _, Ok tt;
     updateSyncStatus := λ _ _ _ _ _, Ok tt;
     isInitialized := λ _, true;
     addTask := λ _ _, Ok tt;
     dateNow := λ l, Z.of_nat (length l);
     hasAnimationFrame := false |}.

(** The same world, except that the queue rejects every task. *)
Definition fullQueueWorld (vaultFiles : list TFile) : World :=
  {| getFileCount := λ _, Ok 0%N;
     getMarkdownFiles := λ _, vaultFiles;
     extractMetadata := λ _ file, Ok (metadataOf file);
     vaultRead := λ _ _, Ok "content";
     sha256Hex := λ _, "abc";
     updateFileVectorizationStatus := λ _ _ _, Ok tt;
     updateSyncStatus := λ _ _ _ _ _, Ok tt;
     isInitialized := λ _, true;
     addTask := λ _ _, Err failure;
     dateNow := λ l, Z.of_nat (length l);
     hasAnimationFrame := false |}.

Definition offline : Services :=
  {| supabaseService := false; embeddingService := true |}.

Definition online : Services :=
  {| supabaseService := true; embeddingService := true |}.

(** A run that holds one pending batch of the given files. *)
Definition holding (fs : list TFile) : Run :=
  {| log := [];
     st := set_batches
             (λ _, [ {| batch_id := 0; files := fs; status := BatchPending;
                        batch_progress := (0, 1);
                        startTime := None; endTime := None |} ])
             (set_progress
                (λ p, {| totalFiles := Z.of_nat (length fs);
                         processedFiles := 0; currentBatch := 0;
                         totalBatches := 1; progress_startTime := 0 |})
                (initialState defaultOptions)) |}.

(** A run whose table expects the outcome of "Note.md". *)
Definition pendingNote : Run :=
  {| log := [];
     st := set_pendingFileMetadata
             (<["Note.md" := {| pf_metadata := metadataOf (note "Note.md");
                                pf_hash := "abc"; pf_lastModified := 123 |}]>)
             (initialState defaultOptions) |}.

Definition fresh (o : InitialSyncOptions) : Run :=
  {| log := []; st := initialState o |}.

Definition occursIn (q p : string) : Prop := ∃ front rest, p = front +:+ q +:+ rest.

(** [a] may come before [b] in the sorted list: its priority is not lower. *)
Definition byPriority (o : InitialSyncOptions) (a b : TFile) : Prop :=
  getFilePriority o (path b) ≤ getFilePriority o (path a).

Definition filesToSync (o : InitialSyncOptions) (fs : list TFile) : list TFile :=
  filter (λ file, isExcluded o (path file) = false) (filterExcludedFiles o fs).

Definition embeddingWarning : string :=
  "No embedding provider configured. Initial sync will queue tasks, but embedding generation may fail until configured.".

(** [stop()]. The field [processingTimeout] is never assigned, so the
    branch that clears it is not taken. *)
Definition stop : Sync unit :=
  modify (set_isRunning false);;
  emit (EvNotice "Initial sync stopped").

(** What the bulk synchronisation, and a [stop()] while it runs, may log:
    for each call, what is known of its arguments and of the services it
    needs. *)
Definition bulkEvent (o : InitialSyncOptions) (svc : Services) (ev : Event)
  : Prop :=
  match ev with
  | EvGetFileCount => supabaseService svc = true
  | EvUpdateFileVectorizationStatus metadata vstatus =>
      supabaseService svc = true ∧ vstatus = "pending"
      ∧ is_Some (contentHash metadata)
  | EvUpdateSyncStatus _ sstatus _ _ =>
      supabaseService svc = false ∧ sstatus = SYNC_PENDING
  | EvIsInitialized => embeddingService svc = true
  | EvAddTask task =>
      task_type task = CREATE ∧ task_status task = QUEUED_DURING_INIT
      ∧ priority task = getFilePriority o (task_id task)
      ∧ maxRetries task = 3 ∧ retryCount task = 0
      ∧ is_Some (contentHash (task_metadata task))
  | EvHandleError _ context _ =>
      context = "InitialSyncManager.processFile"
      ∨ context = "InitialSyncManager.calculateFileHash"
  | EvSetTimeout ms => 0 < ms
  | EvNotice text => text = embeddingWarning ∨ text = "Initial sync stopped"
  | _ => True
  end.

Definition isWarning (ev : Event) : bool :=
  match ev with
  | EvNotice text => bool_decide (text = embeddingWarning)
  | _ => false
  end.

(** The warnings about the embedding provider that were shown. *)
Definition warnings (l : list Event) : list Event :=
  filter (λ ev, isWarning ev = true) l.

Definition isFileReport (ev : Event) : bool :=
  match ev with
  | EvHandleError _ context _ =>
      bool_decide (context = "InitialSyncManager.processFile")
  | _ => false
  end.

(** The reports to the error handler under the context of [processFile]. *)
Definition fileReports (l : list Event) : list Event :=
  filter (λ ev, isFileReport ev = true) l.

(** [new] is what a part of the bulk synchronisation logged between [r]
    and [r']: calls the bulk synchronisation may make, and at most one
    notice, none once the warning was shown. *)
Definition bulkLog (o : InitialSyncOptions) (svc : Services) (r r' : Run)
    (new : list Event) : Prop :=
  log r' = log r ++ new
  ∧ Forall (bulkEvent o svc) new
  ∧ (length (warnings new) ≤ 1)%nat
  ∧ (embeddingWarningShown (st r) = true → warnings new = [])
  ∧ (embeddingWarningShown (st r) = true ∨ warnings new ≠ [] →
     embeddingWarningShown (st r') = true).

(** What the per-file and per-batch steps do to the tuning and to the
    counters: they leave the adaptive size, the batch count and the
    total alone, and [processedFiles] only grows. *)
Definition sameTuning (r r' : Run) : Prop :=
  adaptiveBatchSize (st r') = adaptiveBatchSize (st r)
  ∧ completedBatchCount (st r') = completedBatchCount (st r)
  ∧ totalFiles (progress (st r')) = totalFiles (progress (st r))
  ∧ processedFiles (progress (st r)) ≤ processedFiles (progress (st r')).

(** The batches a worker holds (at most one). *)
Definition heldBy (wk : Worker) : list nat :=
  match wk with Processing i => [i] | Throttled => [] end.

Definition held (workers : list Worker) : list nat :=
  concat (heldBy <$> workers).

(** The status and the files of each batch, in the order of [this.batches]. *)
Definition shapes (s : State) : list (BatchStatus * list TFile) :=
  (λ b, (status b, files b)) <$> batches s.

(** A batch that went through [processBatch]. *)
Definition complete (p : BatchStatus * list TFile) : BatchStatus * list TFile :=
  (BatchCompleted, p.2).

(** The files of the batches that are completed, from batch [n0] on. *)
Definition completedSlices (n0 : nat) (s : State) : list (list TFile) :=
  snd <$> filter (λ p, p.1 = BatchCompleted) (drop n0 (shapes s)).

Definition withinBounds (th : ThrottlingControls) (size : Z) : Prop :=
  1 ≤ maxBatchSize th ∧ minBatchSize th ≤ size ≤ maxBatchSize th.

(** The batch counters as the bookkeeping after a batch leaves them. *)
Definition batchCountersSettled (s : State) : Prop :=
  currentBatch (progress s) = completedBatchCount s
  ∧ totalBatches (progress s)
    = completedBatchCount s
      + Z.max 0 (Js.ceilDiv (totalFiles (progress s) - processedFiles (progress s))
                   (Z.max 1 (adaptiveBatchSize s))).

(** What holds between two turns of the pool that started at [r0], when
    the workers hold the batches [hs]: every batch pushed since is either
    completed or pending in the hands of one worker; the files handed to
    the extractor since are those of the completed batches; the counters
    account for them. *)
Definition PoolRun (svc : Services) (r0 : Run)
    (hs : list nat) (r : Run) : Prop :=
  let o := options (st r0) in
  let n0 := length (batches (st r0)) in
  let done := concat (completedSlices n0 (st r)) in
  NoDup hs
  ∧ (∀ j p, shapes (st r) !! j = Some p → (n0 ≤ j)%nat →
       p.1 = BatchCompleted ∨ (p.1 = BatchPending ∧ j ∈ hs))
  ∧ (∀ i, i ∈ hs →
       (n0 ≤ i)%nat ∧ ∃ fs, shapes (st r) !! i = Some (BatchPending, fs))
  ∧ (withinBounds (throttling o) (adaptiveBatchSize (st r0)) →
     withinBounds (throttling o) (adaptiveBatchSize (st r)))
  ∧ totalFiles (progress (st r)) = totalFiles (progress (st r0))
  ∧ processedFiles (progress (st r0)) ≤ processedFiles (progress (st r))
  ∧ completedBatchCount (st r)
    = completedBatchCount (st r0)
      + Z.of_nat (length (completedSlices n0 (st r)))
  ∧ (completedSlices n0 (st r) ≠ [] → batchCountersSettled (st r))
  ∧ ∃ new,
      bulkLog o svc r0 r new
      ∧ attempted new
        ≡ₚ filter (λ file, isSyncFile o (path file) = false) done
      ∧ 2 * processedFiles (progress (st r))
        + Z.of_nat (length (fileReports new))
        = 2 * processedFiles (progress (st r0)) + 2 * Z.of_nat (length done).

(** The calls of [startSync] before the vault is listed. *)
Definition countCalls (svc : Services) : list Event :=
  if supabaseService svc then [EvGetFileCount] else [].

(** The files [startSync] finds to synchronise from [r]. *)
Definition vaultFilesToSync (w : World) (svc : Services) (r : Run) : list TFile :=
  filesToSync (options (st r)) (getMarkdownFiles w (log r ++ countCalls svc)).


(** Options with two priority rules and an excluded folder. *)
Definition ruledOptions : InitialSyncOptions :=
  {| batchSize := 50; maxConcurrentBatches := 3; enableAutoInitialSync := true;
     priorityRules := [ {| pattern := "daily"; rule_priority := 2 |};
                        {| pattern := "projects"; rule_priority := 5 |} ];
     syncFilePath := Some "_obsidianragsync.md";
     exclusions := Some {| excludedFolders := ["notes"]; excludedFileTypes := [];
                           excludedFilePrefixes := []; excludedFiles := [] |};
     throttling := defaultThrottling |}.


(** *** Changing the options *)

(** A [Partial<ThrottlingControls>]: for each key, the number given, if
    the key is given. *)
Record ThrottlingOverrides : Type := {
  newMinBatchSize : option Z;
  newMaxBatchSize : option Z;
  newTargetBatchDurationMs : option Z;
  newThrottleDelayMs : option Z;
  newProgressIntervalMs : option Z
}.

(** The options but [throttling], each key given or not; a key of an
    optional field may be given as [undefined] ([Some None]). *)
Record OptionOverrides : Type := {
  newBatchSize : option Z;
  newMaxConcurrentBatches : option Z;
  newEnableAutoInitialSync : option bool;
  newPriorityRules : option (list PriorityRule);
  newSyncFilePath : option (option string);
  newExclusions : option (option Exclusions);
  newThrottling : option ThrottlingOverrides
}.

(** [{ ...th, ...controls }] *)
Definition mergeThrottling (th : ThrottlingControls) (controls : ThrottlingOverrides)
  : ThrottlingControls :=
  {| minBatchSize := default (minBatchSize th) (newMinBatchSize controls);
     maxBatchSize := default (maxBatchSize th) (newMaxBatchSize controls);
     targetBatchDurationMs :=
       default (targetBatchDurationMs th) (newTargetBatchDurationMs controls);
     throttleDelayMs := default (throttleDelayMs th) (newThrottleDelayMs controls);
     progressIntervalMs :=
       default (progressIntervalMs th) (newProgressIntervalMs controls) |}.

Definition with_throttling (th : ThrottlingControls) (o : InitialSyncOptions)
  : InitialSyncOptions :=
  {| batchSize := batchSize o; maxConcurrentBatches := maxConcurrentBatches o;
     enableAutoInitialSync := enableAutoInitialSync o;
     priorityRules := priorityRules o; syncFilePath := syncFilePath o;
     exclusions := exclusions o; throttling := th |}.

(** [Object.assign(o, rest)], [rest] being the overrides but [throttling]. *)
Definition assignOptions (o : InitialSyncOptions) (rest : OptionOverrides)
  : InitialSyncOptions :=
  {| batchSize := default (batchSize o) (newBatchSize rest);
     maxConcurrentBatches :=
       default (maxConcurrentBatches o) (newMaxConcurrentBatches rest);
     enableAutoInitialSync :=
       default (enableAutoInitialSync o) (newEnableAutoInitialSync rest);
     priorityRules := default (priorityRules o) (newPriorityRules rest);
     syncFilePath := default (syncFilePath o) (newSyncFilePath rest);
     exclusions := default (exclusions o) (newExclusions rest);
     throttling := throttling o |}.

Definition set_options (f : InitialSyncOptions → InitialSyncOptions) (s : State)
  : State :=
  {| batches := batches s; progress := progress s; isRunning := isRunning s;
     options := f (options s); embeddingWarningShown := embeddingWarningShown s;
     adaptiveBatchSize := adaptiveBatchSize s;
     completedBatchCount := completedBatchCount s;
     rafScheduled := rafScheduled s; rafFallbackTimer := rafFallbackTimer s;
     pendingFileMetadata := pendingFileMetadata s |}.

Definition updateThrottlingControls (controls : ThrottlingOverrides) (s : State)
  : State :=
  let s1 :=
    set_options (λ o, with_throttling (mergeThrottling (throttling o) controls) o) s in
  let th := throttling (options s1) in
  set_adaptiveBatchSize
    (Z.min (maxBatchSize th) (Z.max (minBatchSize th) (adaptiveBatchSize s1))) s1.

Definition updateOptions (overrides : OptionOverrides) (s : State) : State :=
  let s1 :=
    match newThrottling overrides with
    | Some controls => updateThrottlingControls controls s
    | None => s
    end in
  let s2 := set_options (λ o, assignOptions o overrides) s1 in
  match newBatchSize overrides with
  | Some size => if 0 <? size then set_adaptiveBatchSize size s2 else s2
  | None => s2
  end.

(** *** Progress notifications *)

(** [calculateEstimatedTimeRemaining()]: zero, or the floating-point
    quotient [remaining / (processed / elapsed)], kept as its operands. *)
Inductive Estimate : Type :=
| EstimateZero
| EstimateQuotient (remainingFiles processed elapsed : Z).

(** The argument of [notificationManager.updateProgress]; [pu_progress]
    keeps the percentage as the pair [(processed, total)]. *)
Record ProgressUpdate : Type := {
  pu_taskId : string;
  pu_progress : Z * Z;
  pu_currentStep : string;
  pu_totalSteps : Z;
  pu_currentStepNumber : Z;
  pu_estimatedTimeRemaining : Estimate;
  pu_processedFiles : Z;
  pu_totalFiles : Z
}.

Section Notifications.
Context (w : World).

Definition calculateEstimatedTimeRemaining : Sync Estimate :=
  t ← now w;
  s ← get;
  let elapsed := t - progress_startTime (progress s) in
  if (elapsed <=? 0) || bool_decide (processedFiles (progress s) = 0)
  then ret EstimateZero
  else if 0 <? processedFiles (progress s)
  then ret (EstimateQuotient
              (totalFiles (progress s) - processedFiles (progress s))
              (processedFiles (progress s)) elapsed)
  else ret EstimateZero.

(** The update sent, if any. *)
Definition flushProgressUpdate : Sync (option ProgressUpdate) :=
  modify (set_raf false false);;
  s ← get;
  if bool_decide (totalFiles (progress s) = 0) then ret None
  else
    estimate ← calculateEstimatedTimeRemaining;
    ret (Some
           {| pu_taskId := "initial-sync";
              pu_progress :=
                (processedFiles (progress s), totalFiles (progress s));
              pu_currentStep :=
                "Processing files (" +:+ pretty (processedFiles (progress s))
                +:+ "/" +:+ pretty (totalFiles (progress s)) +:+ ")";
              pu_totalSteps := totalBatches (progress s);
              pu_currentStepNumber := currentBatch (progress s) + 1;
              pu_estimatedTimeRemaining := estimate;
              pu_processedFiles := processedFiles (progress s);
              pu_totalFiles := totalFiles (progress s) |}).

(** What happens to the notifications while files are processed: a file
    is counted, a notification is asked for, or the scheduled callback
    runs. *)
Inductive UiCall : Type := FileCounted | Notify | Flush.

Fixpoint runUi (calls : list UiCall) : Sync (list ProgressUpdate) :=
  match calls with
  | [] => ret []
  | FileCounted :: rest =>
      modify (set_progress (λ p, with_processedFiles (processedFiles p + 1) p));;
      runUi rest
  | Notify :: rest => updateProgressNotification w;; runUi rest
  | Flush :: rest =>
      update ← flushProgressUpdate;
      updates ← runUi rest;
      ret (from_option (λ u, [u]) [] update ++ updates)
  end.

End Notifications.

Definition isFlush (call : UiCall) : bool :=
  match call with Flush => true | _ => false end.

Definition isSchedule (ev : Event) : bool :=
  match ev with
  | EvRequestAnimationFrame | EvSetTimeout _ => true
  | _ => false
  end.

(** The frames and timers requested. *)
Definition scheduled (l : list Event) : list Event :=
  filter (λ ev, isSchedule ev = true) l.

End InitialSyncManager.

(** ** OfflineQueueManager.processQueue *)

Module OfflineQueueManager.

(** Modelled from the spec: the operation kinds and statuses of section 3
    (['create'], ['update'], ['delete']; ['pending'], ...). *)
Inductive OperationType : Type := op_create | op_update | op_delete.

Inductive OperationStatus : Type := op_pending | op_processing | op_done | op_failed.

#[global] Instance OperationType_eq_dec : EqDecision OperationType.
Proof. solve_decision. Defined.

#[global] Instance OperationStatus_eq_dec : EqDecision OperationStatus.
Proof. solve_decision. Defined.

(** The payload kept for a replay: [{ contentHash, lastModified }]. *)
Record OperationMetadata : Type := {
  op_contentHash : option string;
  op_lastModified : option Z
}.

#[global] Instance OperationMetadata_eq_dec : EqDecision OperationMetadata.
Proof. solve_decision. Defined.

(** Modelled from the spec: the persisted operation of section 3, as the
    tests build it. *)
Record OfflineOperation : Type := {
  op_id : string;
  fileId : string;
  operationType : OperationType;
  timestamp : Z;
  metadata : option OperationMetadata;
  op_status : OperationStatus
}.

#[global] Instance OfflineOperation_eq_dec : EqDecision OfflineOperation.
Proof. solve_decision. Defined.

Inductive Event : Type :=
(** the remote store's status update, status "pending", with the stored
    hash and modification time *)
| EvUpdateFileVectorizationStatus (id : string) (meta : option OperationMetadata)
(** the remote store's deletion path *)
| EvRemoteDelete (id : string)
(** the sync-file collaborator, status OK *)
| EvUpdateSyncStatusOK (id : string) (meta : option OperationMetadata)
(** the error collaborator *)
| EvHandleError (operation : string).

Definition isRemoteCall (ev : Event) : bool :=
  match ev with
  | EvUpdateFileVectorizationStatus _ _ | EvRemoteDelete _ => true
  | _ => false
  end.

Definition isSyncFileOK (id : string) (ev : Event) : bool :=
  match ev with
  | EvUpdateSyncStatusOK id' _ => bool_decide (id' = id)
  | _ => false
  end.

(** Whether each call resolves ([true]) or rejects, given the calls made
    before it. *)
Record World : Type := {
  remoteStatusResolves : list Event → OfflineOperation → bool;
  remoteDeleteResolves : list Event → OfflineOperation → bool;
  syncFileResolves : list Event → OfflineOperation → bool
}.

(** The manager as the tests build it: with or without a Supabase
    service, and the online signal read when [processQueue] starts. *)
Record Manager : Type := {
  supabaseService : bool;
  onLine : bool;
  queue : list OfflineOperation
}.

Definition reachable (m : Manager) : bool := supabaseService m && onLine m.

Definition isPending (op : OfflineOperation) : bool :=
  bool_decide (op_status op = op_pending).

Definition isPendingDeleteOf (id : string) (op : OfflineOperation) : bool :=
  isPending op && bool_decide (operationType op = op_delete)
  && bool_decide (fileId op = id).

(** Modelled from the spec: the replay of one pending operation (the file
    [src/services/OfflineQueueManager.ts] is missing). Section 4.3: with
    the store reachable, a create or update is replayed as a status
    update and a delete through the deletion path; with the store
    unreachable, a delete falls back to the sync file with OK and any
    other operation stays pending with no call. The result says whether
    the operation is to be removed (a replay that succeeded); a failed
    replay is reported and the operation stays pending. *)
Definition replay (w : World) (isReachable : bool) (op : OfflineOperation)
    (log : list Event) : bool * list Event :=
  let attempt (ev : Event) (resolves : bool) :=
    if resolves then (true, log ++ [ev])
    else (false, log ++ [ev; EvHandleError (op_id op)]) in
  if isReachable then
    match operationType op with
    | op_delete =>
        attempt (EvRemoteDelete (fileId op)) (remoteDeleteResolves w log op)
    | _ =>
        attempt (EvUpdateFileVectorizationStatus (fileId op) (metadata op))
          (remoteStatusResolves w log op)
    end
  else
    match operationType op with
    | op_delete =>
        attempt (EvUpdateSyncStatusOK (fileId op) (metadata op))
          (syncFileResolves w log op)
    | _ => (false, log)
    end.

(** Modelled from the spec: one pass over the queue in insertion order;
    operations that are not pending are skipped, a failure does not stop
    the pass. The result is the queue that is left and the log. *)
Fixpoint replayAll (w : World) (isReachable : bool)
    (ops : list OfflineOperation) (log : list Event)
  : list OfflineOperation * list Event :=
  match ops with
  | [] => ([], log)
  | op :: ops' =>
      if isPending op then
        let r := replay w isReachable op log in
        let rest := replayAll w isReachable ops' r.2 in
        (if r.1 then rest.1 else op :: rest.1, rest.2)
      else
        let rest := replayAll w isReachable ops' log in
        (op :: rest.1, rest.2)
  end.

(** Modelled from the spec: [processQueue()], connectivity read once. *)
Definition processQueue (w : World) (m : Manager) : Manager * list Event :=
  let r := replayAll w (reachable m) (queue m) [] in
  ({| supabaseService := supabaseService m; onLine := onLine m; queue := r.1 |},
   r.2).

(** What a pass without connectivity may log for an identity: no call
    to the remote store, and as many OK updates of the sync file for the
    identity as [ops] holds pending deletes of it. *)
Definition quiet (id : string) (new : list Event) (ops : list OfflineOperation)
  : Prop :=
  Forall (λ ev, isRemoteCall ev = false) new
  ∧ length (filter (λ ev, isSyncFileOK id ev = true) new)
    = length (filter (λ op, isPendingDeleteOf id op = true) ops).

(** The operations and managers of the reconciliation tests. *)
Definition op1 : OfflineOperation :=
  {| op_id := "op-1"; fileId := "Note.md"; operationType := op_create;
     timestamp := 0;
     metadata := Some {| op_contentHash := Some "abc";
                         op_lastModified := Some 123 |};
     op_status := op_pending |}.

Definition op2 : OfflineOperation :=
  {| op_id := "op-2"; fileId := "Note.md"; operationType := op_delete;
     timestamp := 0; metadata := None; op_status := op_pending |}.

Definition allResolve : World :=
  {| remoteStatusResolves := λ _ _, true;
     remoteDeleteResolves := λ _ _, true;
     syncFileResolves := λ _ _, true |}.

Definition withoutSupabase (ops : list OfflineOperation) : Manager :=
  {| supabaseService := false; onLine := true; queue := ops |}.

Definition withSupabase (ops : list OfflineOperation) : Manager :=
  {| supabaseService := true; onLine := true; queue := ops |}.

End OfflineQueueManager.

(** ** MetadataExtractor: tags and entities

    Strings are sequences of bytes (UTF-8). The patterns below only name
    ASCII characters, so they cut a string at the same places as the
    regular expressions of the code do on its UTF-16 units. *)

Module MetadataExtractor.

(** What [parseYaml] can return; numbers are kept as integers. *)
#[warnings="-register-all"]
Inductive JsValue : Type :=
| JsUndefined
| JsNull
| JsBool (b : bool)
| JsNumber (n : Z)
| JsString (s : string)
| JsArray (items : list JsValue)
| JsObject (fields : list (string * JsValue)).

(** [!!v] *)
Definition truthy (v : JsValue) : bool :=
  match v with
  | JsUndefined | JsNull => false
  | JsBool b => b
  | JsNumber n => negb (n =? 0)
  | JsString s => negb (bool_decide (s = EmptyString))
  | JsArray _ | JsObject _ => true
  end.

(** [v?.key]: the value of an own key of an object parsed from YAML,
    [undefined] for anything else. *)
Definition getField (key : string) (v : JsValue) : JsValue :=
  match v with
  | JsObject fields =>
      from_option (λ found, found.2.2) JsUndefined
        (list_find (λ kv, kv.1 = key) fields)
  | _ => JsUndefined
  end.

(** [set.add(x)] on a [Set] kept in insertion order. *)
Definition setAdd (x : string) (set : list string) : list string :=
  if bool_decide (x ∈ set) then set else set ++ [x].

Definition comma : Strings.Ascii.ascii := Strings.Ascii.ascii_of_nat 44.
Definition hash : Strings.Ascii.ascii := Strings.Ascii.ascii_of_nat 35.

(** [s.split(',')] *)
Fixpoint splitOn (sep : Strings.Ascii.ascii) (s : string) : list string :=
  match s with
  | EmptyString => [EmptyString]
  | String c rest =>
      if Strings.Ascii.eqb c sep then EmptyString :: splitOn sep rest
      else match splitOn sep rest with
           | [] => [String c EmptyString]
           | part :: parts => String c part :: parts
           end
  end.

(** The white space and line terminators that [trim] removes, as the
    numbers of their bytes: the six of ASCII, U+00A0, U+1680, U+2000 to
    U+200A, U+2028, U+2029, U+202F, U+205F, U+3000 and U+FEFF. *)
Definition isSpace1 (a : nat) : bool :=
  bool_decide (a ∈ [9; 10; 11; 12; 13; 32]%nat).

Definition isSpace2 (a b : nat) : bool :=
  bool_decide (a = 194%nat) && bool_decide (b = 160%nat).

Definition isSpace3 (a b c : nat) : bool :=
  (bool_decide (a = 225%nat) && bool_decide (b = 154%nat)
   && bool_decide (c = 128%nat))
  || (bool_decide (a = 226%nat) && bool_decide (b = 128%nat)
      && ((128 <=? c)%nat && (c <=? 138)%nat
          || bool_decide (c ∈ [168; 169; 175]%nat)))
  || (bool_decide (a = 226%nat) && bool_decide (b = 129%nat)
      && bool_decide (c = 159%nat))
  || (bool_decide (a = 227%nat) && bool_decide (b = 128%nat)
      && bool_decide (c = 128%nat))
  || (bool_decide (a = 239%nat) && bool_decide (b = 187%nat)
      && bool_decide (c = 191%nat)).

(** [s.trimStart()]; with [backwards], on the reversed string. *)
Fixpoint trimStartOf (backwards : bool) (s : string) : string :=
  match s with
  | EmptyString => EmptyString
  | String c1 rest1 =>
      let n1 := Strings.Ascii.nat_of_ascii c1 in
      if isSpace1 n1 then trimStartOf backwards rest1
      else
        match rest1 with
        | EmptyString => s
        | String c2 rest2 =>
            let n2 := Strings.Ascii.nat_of_ascii c2 in
            if (if backwards then isSpace2 n2 n1 else isSpace2 n1 n2)
            then trimStartOf backwards rest2
            else
              match rest2 with
              | EmptyString => s
              | String c3 rest3 =>
                  let n3 := Strings.Ascii.nat_of_ascii c3 in
                  if (if backwards then isSpace3 n3 n2 n1
                      else isSpace3 n1 n2 n3)
                  then trimStartOf backwards rest3
                  else s
              end
        end
  end.

(** [s.trim()] *)
Definition trim (s : string) : string :=
  String.rev (trimStartOf true (String.rev (trimStartOf false s))).

(** [part.startsWith('#') ? part.slice(1) : part] *)
Definition stripHash (part : string) : string :=
  match part with
  | String c rest => if Strings.Ascii.eqb c hash then rest else part
  | EmptyString => part
  end.

(** The characters of a string. *)
Fixpoint chars (s : string) : list Strings.Ascii.ascii :=
  match s with
  | EmptyString => []
  | String c rest => c :: chars rest
  end.

Definition nonEmpty (s : string) : bool :=
  negb (bool_decide (s = EmptyString)).

(** The parts of one tag value that are added, in order. *)
Definition tagParts (tagValue : string) : list string :=
  filter (λ cleaned, nonEmpty cleaned = true)
    (stripHash <$>
       filter (λ part, nonEmpty part = true) (trim <$> splitOn comma tagValue)).

Definition addTagValue (normalized : list string) (tagValue : JsValue)
  : list string :=
  match tagValue with
  | JsString s => foldl (λ set part, setAdd part set) normalized (tagParts s)
  | _ => normalized
  end.

Definition normalizeFrontMatterTags (tags : JsValue) : list string :=
  if negb (truthy tags) then []
  else
    let rawTags := match tags with JsArray items => items | _ => [tags] end in
    foldl addTagValue [] rawTags.

(** The class [A-Za-z0-9/_-]. *)
Definition isTagChar (c : Strings.Ascii.ascii) : bool :=
  let n := Strings.Ascii.nat_of_ascii c in
  ((65 <=? n)%nat && (n <=? 90)%nat)
  || ((97 <=? n)%nat && (n <=? 122)%nat)
  || ((48 <=? n)%nat && (n <=? 57)%nat)
  || bool_decide (n ∈ [47; 95; 45]%nat).

(** A tag that was read, kept backwards in [acc]. *)
Definition emitTag (acc : string) : list string :=
  if nonEmpty acc then [String.rev acc] else [].

(** The matches of [/#([A-Za-z0-9/_-]+)/g], from left to right: [current]
    holds the characters read after a [#], if the scan is after one. *)
Fixpoint scanTags (current : option string) (content : string) : list string :=
  match content with
  | EmptyString => from_option emitTag [] current
  | String c rest =>
      match current with
      | Some acc =>
          if isTagChar c then scanTags (Some (String c acc)) rest
          else emitTag acc
               ++ scanTags (if Strings.Ascii.eqb c hash then Some EmptyString
                            else None) rest
      | None =>
          scanTags (if Strings.Ascii.eqb c hash then Some EmptyString else None)
            rest
      end
  end.

(** [tag] is written in [content]: after a [#] comes [tag], a run of
    characters of the class that is not empty and goes on as far as the
    class does. *)
Definition hashtagIn (content tag : string) : Prop :=
  ∃ front rest,
    content = front +:+ String hash tag +:+ rest
    ∧ tag ≠ EmptyString
    ∧ Forall (λ c, isTagChar c = true) (chars tag)
    ∧ match rest with
      | EmptyString => True
      | String c _ => isTagChar c = false
      end.

Definition extractTags (content : string) (frontMatter : JsValue) : list string :=
  let tags := foldl (λ set tag, setAdd tag set) [] (scanTags None content) in
  if truthy (getField "tags" frontMatter)
  then foldl (λ set tag, setAdd tag set) tags
         (normalizeFrontMatterTags (getField "tags" frontMatter))
  else tags.

(** [extractAliases(frontMatter)] *)
Definition extractAliases (frontMatter : JsValue) : list string :=
  let aliases := getField "aliases" frontMatter in
  if negb (truthy aliases) then []
  else match aliases with
       | JsArray items =>
           omap (λ v, match v with JsString s => Some s | _ => None end) items
       | JsString s => [s]
       | _ => []
       end.






End MetadataExtractor.

(** * Properties of the task queue *)

Section QueueServiceFacts.

Import QueueService.

Implicit Types (queue : list ProcessingTask) (task existing : ProcessingTask).







Lemma addTask_Err keep n queue task :
  addTask keep n queue task = Err QUEUE_FULL ↔ (n ≤ length queue)%nat.
Proof.
  unfold addTask. case_decide; [done|].
  split; [|lia]. repeat case_match; done.
Qed.






End QueueServiceFacts.

Section QueueServiceTheorems.

Import QueueService.





End QueueServiceTheorems.

Section QueueServiceTests.

Import QueueService.

(** The three edge-case tests of the repository, run on the model. *)
Example test_queue_full keep :
  addTask keep defaultMaxQueueSize
    (replicate 1000 (createTask "existing" CREATE))
    (createTask "overflow" CREATE)
  = Err QUEUE_FULL.
Proof. by apply addTask_Err; rewrite length_replicate. Qed.

Example test_delete_replaces keep :
  enqueueAll keep defaultMaxQueueSize []
    [createTask "Note.md" CREATE; createTask "Note.md" DELETE]
  = [with_priority 3 (createTask "Note.md" DELETE)].
Proof. by destruct keep; vm_compute. Qed.

Example test_update_ignored keep :
  enqueueAll keep defaultMaxQueueSize []
    [createTask "Note.md" DELETE; createTask "Note.md" UPDATE]
  = [createTask "Note.md" DELETE].
Proof. by destruct keep; vm_compute. Qed.

(** A queue filled with 1000 identities: any further call is rejected,
    also a DELETE for an identity that is queued; one identity less and
    the queue is not full. *)
Example test_thousand_identities :
  let queue := enqueueAll false 1000 [] (numbered 1000) in
  length queue = 1000%nat
  ∧ distinctIdentities queue = 1000%nat
  ∧ addTask false 1000 queue (createTask "overflow" CREATE) = Err QUEUE_FULL
  ∧ addTask false 1000 queue (createTask "7" DELETE) = Err QUEUE_FULL
  ∧ length (enqueueAll false 1000 [] (numbered 999)) = 999%nat.
Proof. by vm_compute. Qed.




End QueueServiceTests.

(** * Properties of the bulk scheduler *)

Section AdjustBatchSize.

Import InitialSyncManager.







End AdjustBatchSize.

(** ** Reasoning about runs *)

Section WeakestPreconditions.

Import InitialSyncManager.

Lemma wp_bind {A B} (m : Sync A) (k : A → Sync B) r Q :
  wp m r (λ res r', match res with
                    | Ok a => wp (k a) r' Q
                    | Err e => Q (Err e) r'
                    end) →
  wp (bind m k) r Q.
Proof. unfold wp, bind. by destruct (m r) as [[a|e] r']. Qed.

Lemma wp_tryCatch {A} (m : Sync A) (h : JsError → Sync A) r Q :
  wp m r (λ res r', match res with
                    | Ok a => Q (Ok a) r'
                    | Err e => wp (h e) r' Q
                    end) →
  wp (tryCatch m h) r Q.
Proof. unfold wp, tryCatch. by destruct (m r) as [[a|e] r']. Qed.

Lemma wp_tryFinally {A} (m : Sync A) (cleanup : Sync unit) r Q :
  wp m r (λ res r', wp cleanup r' (λ res' r'',
                      match res' with
                      | Ok _ => Q res r''
                      | Err e => Q (Err e) r''
                      end)) →
  wp (tryFinally m cleanup) r Q.
Proof.
  unfold wp, tryFinally. destruct (m r) as [res r']. simpl.
  by destruct (cleanup r') as [[u|e] r''].
Qed.

Lemma wp_ret {A} (a : A) r Q : Q (Ok a) r → wp (ret a) r Q.
Proof. done. Qed.

Lemma wp_throw {A} e r (Q : Result JsError A → Run → Prop) :
  Q (Err e) r → wp (throw e) r Q.
Proof. done. Qed.

Lemma wp_get r Q : Q (Ok (st r)) r → wp get r Q.
Proof. done. Qed.

Lemma wp_modify f r Q :
  Q (Ok tt) {| log := log r; st := f (st r) |} → wp (modify f) r Q.
Proof. done. Qed.

Lemma wp_emit ev r Q :
  Q (Ok tt) {| log := log r ++ [ev]; st := st r |} → wp (emit ev) r Q.
Proof. done. Qed.

(** Nothing is assumed about what a collaborator answers. *)
Lemma wp_invoke {A} ev (answer : list Event → Result JsError A) r Q :
  (∀ res, Q res {| log := log r ++ [ev]; st := st r |}) →
  wp (invoke ev answer) r Q.
Proof. intros H. apply H. Qed.

Lemma wp_now w r Q :
  (∀ t, Q (Ok t) {| log := log r ++ [EvDateNow t]; st := st r |}) →
  wp (now w) r Q.
Proof. intros H. apply H. Qed.

Lemma wp_wand {A} (m : Sync A) r (P Q : Result JsError A → Run → Prop) :
  wp m r P → (∀ res r', P res r' → Q res r') → wp m r Q.
Proof. unfold wp. auto. Qed.

Lemma newEvents_app (r r' : Run) (new : list Event) :
  log r' = log r ++ new → newEvents r r' = new.
Proof. intros H. unfold newEvents. rewrite H. apply drop_app_length. Qed.

End WeakestPreconditions.

Ltac wp_simpl := cbn [InitialSyncManager.st InitialSyncManager.log fst snd].

Ltac wp_step :=
  lazymatch goal with
  | |- InitialSyncManager.wp (InitialSyncManager.bind _ _) _ _ => apply wp_bind
  | |- InitialSyncManager.wp (InitialSyncManager.tryCatch _ _) _ _ =>
      apply wp_tryCatch
  | |- InitialSyncManager.wp (InitialSyncManager.tryFinally _ _) _ _ =>
      apply wp_tryFinally
  | |- InitialSyncManager.wp (InitialSyncManager.ret _) _ _ => apply wp_ret
  | |- InitialSyncManager.wp (InitialSyncManager.throw _) _ _ => apply wp_throw
  | |- InitialSyncManager.wp InitialSyncManager.get _ _ => apply wp_get
  | |- InitialSyncManager.wp (InitialSyncManager.modify _) _ _ => apply wp_modify
  | |- InitialSyncManager.wp (InitialSyncManager.updateBatch _ _) _ _ =>
      apply wp_modify
  | |- InitialSyncManager.wp (InitialSyncManager.emit _) _ _ => apply wp_emit
  | |- InitialSyncManager.wp (InitialSyncManager.handleError _ _ _) _ _ =>
      apply wp_emit
  | |- InitialSyncManager.wp (InitialSyncManager.invoke _ _) _ _ =>
      apply wp_invoke; intros [?|?]
  | |- InitialSyncManager.wp (InitialSyncManager.now _) _ _ =>
      apply wp_now; intros ?
  | |- InitialSyncManager.wp (if ?b then _ else _) _ _ => destruct b eqn:?
  | |- InitialSyncManager.wp (match ?x with _ => _ end) _ _ => destruct x eqn:?
  end; wp_simpl.

(** The log of the goal against the log of the start: [l ++ new]. *)
Ltac log_extends :=
  first [ exists []; split; [by rewrite app_nil_r|]
        | eexists; split; [by rewrite <- ?app_assoc|] ].

Section PerFile.

Import InitialSyncManager.

Context (w : World) (svc : Services).

Lemma processFile_spec (file : TFile) (r : Run) :
  wp (processFile w svc file) r (λ res r',
    ∃ new, log r' = log r ++ new
    ∧ attempted new
      = (if isSyncFile (options (st r)) (path file) then [] else [file])
    ∧ options (st r') = options (st r)
    ∧ batches (st r') = batches (st r)
    ∧ progress (st r') = progress (st r)
    ∧ rafScheduled (st r') = rafScheduled (st r)
    ∧ (∀ e, res = Err e →
         pendingFileMetadata (st r')
         = delete (path file) (pendingFileMetadata (st r))
         ∧ last new
           = Some (EvHandleError e "InitialSyncManager.processFile" (path file)))).
Proof.
  unfold processFile, processFile_body, calculateFileHash, embeddingReady.
  cbv [mbind Sync_bind].
  repeat wp_step;
    (log_extends; rewrite ?Heqb; split_and!; try done;
     intros e' [= <-]; (simpl; split; [by rewrite ?delete_insert_eq | done])).
Qed.

(** C10. Whenever [processFile] throws for a file, it has first removed
    the entry of the file's path from [pendingFileMetadata]: in the state
    the error propagates from, the table has no entry for that path, and
    it is the table from before the call without that entry. The error
    is reported to the error handler last, after the removal. *)
Theorem processFile_failure_clears_pending_entry
    (file : TFile) (r r' : Run) (e : JsError) :
  processFile w svc file r = (Err e, r') →
  pendingFileMetadata (st r') !! path file = None
  ∧ pendingFileMetadata (st r')
    = delete (path file) (pendingFileMetadata (st r))
  ∧ last (newEvents r r')
    = Some (EvHandleError e "InitialSyncManager.processFile" (path file)).
Proof.
  intros Hrun. pose proof (processFile_spec file r) as Hspec.
  unfold wp in Hspec. rewrite Hrun in Hspec. simpl in Hspec.
  destruct Hspec as (new & Hlog & _ & _ & _ & _ & _ & Herr).
  destruct (Herr e eq_refl) as [Hpending Hlast].
  rewrite (newEvents_app r r' new Hlog), Hpending.
  split_and!; [apply lookup_delete_eq | done | done].
Qed.

Lemma attempted_app (l1 l2 : list Event) :
  attempted (l1 ++ l2) = attempted l1 ++ attempted l2.
Proof. apply omap_app. Qed.

Lemma same_files_alter (f : SyncBatch → SyncBatch) (i : nat) (bs : list SyncBatch) :
  (∀ b, eraseProgress (f b) = eraseProgress b) →
  eraseProgress <$> alter f i bs = eraseProgress <$> bs.
Proof.
  intros Hf. revert i. induction bs as [|b bs IH]; intros [|i]; simpl; try done.
  - by rewrite Hf.
  - f_equal. apply IH.
Qed.

Lemma processBatchFile_spec (i : nat) (file : TFile) (r : Run) :
  wp (processBatchFile w svc i file) r (λ res r',
    res = Ok tt
    ∧ ∃ new, log r' = log r ++ new
    ∧ attempted new
      = (if isSyncFile (options (st r)) (path file) then [] else [file])
    ∧ options (st r') = options (st r)
    ∧ eraseProgress <$> batches (st r') = eraseProgress <$> batches (st r)).
Proof.
  unfold processBatchFile, updateProgressNotification.
  cbv [mbind Sync_bind].
  wp_step. wp_step.
  eapply wp_wand; [apply processFile_spec|].
  intros res [l1 s1] (new & Hlog & Hatt & Hopt & Hbs & _).
  simpl in Hlog, Hopt, Hbs. subst l1.
  destruct res as [[]|e]; wp_simpl.
  - repeat wp_step;
      (split; [done|]; log_extends; split_and!;
       [ rewrite ?attempted_app, Hatt; simpl; by rewrite ?app_nil_r
       | done
       | simpl; rewrite same_files_alter by done; by rewrite Hbs ]).
  - repeat wp_step.
    split; [done|]. log_extends.
    rewrite attempted_app, Hatt, Hbs. simpl. by rewrite app_nil_r.
Qed.

End PerFile.

Section PerBatch.

Import InitialSyncManager.

Context (w : World) (svc : Services).

Lemma forEachFile_spec (i : nat) (fs : list TFile) :
  ∀ r, wp (forEachFile w svc i fs) r (λ res r',
    res = Ok tt
    ∧ ∃ new, log r' = log r ++ new
    ∧ attempted new
      = filter (λ file, isSyncFile (options (st r)) (path file) = false) fs
    ∧ options (st r') = options (st r)
    ∧ eraseProgress <$> batches (st r') = eraseProgress <$> batches (st r)).
Proof.
  induction fs as [|file fs IH]; intros r; simpl.
  - apply wp_ret. split; [done|]. by log_extends.
  - cbv [mbind Sync_bind]. apply wp_bind.
    eapply wp_wand; [apply processBatchFile_spec|].
    intros res [l1 s1] (-> & new & Hlog & Hatt & Hopt & Hbs).
    simpl in Hlog, Hopt, Hbs. subst l1.
    eapply wp_wand; [apply IH|].
    intros res' [l2 s2] (-> & new' & Hlog' & Hatt' & Hopt' & Hbs').
    simpl in *. subst l2.
    split; [done|]. log_extends.
    rewrite attempted_app, Hatt, Hatt', Hopt, Hopt', Hbs', Hbs.
    split_and!; try done.
    rewrite filter_cons. by destruct (isSyncFile _ _).
Qed.

Lemma batchFiles_alter (f : SyncBatch → SyncBatch) (i : nat) (s : State) :
  (∀ b, files (f b) = files b) →
  batchFiles (set_batches (alter f i) s) i = batchFiles s i.
Proof.
  intros Hf. unfold batchFiles. simpl. rewrite list_lookup_alter_eq.
  destruct (batches s !! i); simpl; [apply Hf | done].
Qed.

Lemma cons_eq_inv {A} (x y : A) (l k : list A) :
  x :: l = y :: k → x = y ∧ l = k.
Proof. by intros [= -> ->]. Qed.

Lemma erase_alter (f : SyncBatch → SyncBatch) (i : nat) (bs bs' : list SyncBatch) :
  (∀ b, eraseProgress (f b) = f (eraseProgress b)) →
  eraseProgress <$> bs = eraseProgress <$> bs' →
  eraseProgress <$> alter f i bs = eraseProgress <$> alter f i bs'.
Proof.
  intros Hf. revert i bs'.
  induction bs as [|b bs IH]; intros [|i] [|b' bs'] Hbs; try done;
    rewrite !fmap_cons in Hbs; apply cons_eq_inv in Hbs as [Hb Hbs'];
    cbn [alter list_alter]; rewrite !fmap_cons.
  - by rewrite !Hf, Hb, Hbs'.
  - rewrite Hb. f_equal. by apply IH.
Qed.

Lemma processBatch_spec (i : nat) (r : Run) :
  wp (processBatch w svc i) r (λ res r',
    ∃ started ended new,
      res = Ok (ended - started)
      ∧ log r' = log r ++ [EvDateNow started] ++ new ++ [EvDateNow ended]
      ∧ attempted new
        = filter (λ file, isSyncFile (options (st r)) (path file) = false)
            (batchFiles (st r) i)
      ∧ options (st r') = options (st r)
      ∧ eraseProgress <$> batches (st r')
        = eraseProgress <$> alter (finished started ended) i (batches (st r))).
Proof.
  unfold processBatch. cbv [mbind Sync_bind].
  do 10 wp_step.
  rewrite !batchFiles_alter by done.
  eapply wp_wand; [apply forEachFile_spec|].
  intros res [l1 s1] (-> & new & Hlog & Hatt & Hopt & Hbs).
  simpl in Hlog, Hopt, Hbs. subst l1.
  repeat wp_step.
  exists t, t0, new. split_and!; [done| by rewrite <- !app_assoc |done|done|].
  simpl.
  rewrite (erase_alter _ i _ (alter (with_status BatchCompleted) i
    (alter (with_startTime t) i (alter (with_status BatchProcessing) i
       (batches (st r)))))) by (done || by apply erase_alter).
  by rewrite !list_alter_alter_eq.
Qed.

End PerBatch.

Section EventHandlers.

Import InitialSyncManager.

Context (w : World) (svc : Services).

Ltac new_events :=
  unfold newEvents; cbn [log];
  rewrite <- ?app_assoc, ?drop_app_length, ?drop_all; cbn [app].

(** C6. When a task-completed or a task-failed event arrives for a task
    whose id has an entry in [pendingFileMetadata], the handler returns
    normally and the table is left without that entry. The calls the
    handler makes to the sync file are: none when a Supabase service is
    configured; otherwise exactly one, for that id, with status OK on
    completion and FAILED on failure and with the [lastModified] and
    [hash] of the entry. So the sync file is written if and only if no
    Supabase service is configured. *)
Theorem task_event_clears_pending_entry
    (r : Run) (task : ProcessingTask) (error : JsError) (pending : PendingFile) :
  pendingFileMetadata (st r) !! task_id task = Some pending →
  let completed := handleTaskCompleted w svc task r in
  let failed := handleTaskFailed w svc task error r in
  let written status :=
    EvUpdateSyncStatus (task_id task) status
      (pf_lastModified pending) (pf_hash pending) in
  completed.1 = Ok tt ∧ failed.1 = Ok tt
  ∧ pendingFileMetadata (st completed.2)
    = delete (task_id task) (pendingFileMetadata (st r))
  ∧ pendingFileMetadata (st failed.2)
    = delete (task_id task) (pendingFileMetadata (st r))
  ∧ pendingFileMetadata (st completed.2) !! task_id task = None
  ∧ pendingFileMetadata (st failed.2) !! task_id task = None
  ∧ syncFileWrites (newEvents r completed.2)
    = (if supabaseService svc then [] else [written SYNC_OK])
  ∧ syncFileWrites (newEvents r failed.2)
    = (if supabaseService svc then [] else [written SYNC_FAILED])
  ∧ (written SYNC_OK ∈ newEvents r completed.2 ↔ supabaseService svc = false)
  ∧ (written SYNC_FAILED ∈ newEvents r failed.2 ↔ supabaseService svc = false).
Proof.
  intros Hpending completed failed written.
  subst completed failed written.
  cbv [handleTaskCompleted handleTaskFailed mbind Sync_bind bind get modify
       tryCatch invoke ret emit handleError].
  simpl. rewrite Hpending.
  destruct (supabaseService svc); simpl.
  - destruct (isError error); simpl; new_events;
      (split_and!; try done; try apply lookup_delete_eq;
       (split; [|done]); intros Hin;
       repeat (apply elem_of_cons in Hin as [Hin|Hin]; [discriminate Hin|]);
       by apply elem_of_nil in Hin).
  - destruct (updateSyncStatus w (log r) (task_id task) SYNC_OK _ _) as [[]|];
      destruct (updateSyncStatus w (log r) (task_id task) SYNC_FAILED _ _)
        as [[]|];
      destruct (isError error); simpl; new_events;
      (split_and!; try done; try apply lookup_delete_eq;
       (split; [done | intros _; apply list_elem_of_here])).
Qed.

End EventHandlers.

Section EventHandlerExamples.
Import InitialSyncManager.

Lemma task_event_clears_pending_entry_witness :
  let out := handleTaskCompleted (calmWorld [] 0) offline
               (QueueService.createTask "Note.md" CREATE) pendingNote in
  out.1 = Ok tt
  ∧ pendingFileMetadata (st out.2) !! "Note.md" = None
  ∧ syncFileWrites (newEvents pendingNote out.2)
    = [EvUpdateSyncStatus "Note.md" SYNC_OK 123 "abc"].
Proof.
  destruct (task_event_clears_pending_entry (calmWorld [] 0) offline
              pendingNote (QueueService.createTask "Note.md" CREATE) failure
              {| pf_metadata := metadataOf (note "Note.md");
                 pf_hash := "abc"; pf_lastModified := 123 |} eq_refl)
    as (H1 & _ & _ & _ & H5 & _ & H7 & _).
  split_and!; [exact H1 | exact H5 | exact H7].
Defined.
End EventHandlerExamples.

Section BatchTheorems.

Import InitialSyncManager.

Context (w : World) (svc : Services).

(** C7. Inside a batch, an error thrown by [processFile] for a file is
    caught by the loop and handed to the error handler, and the loop goes
    on with the rest of the files from the state the failed file left.
    Whatever the collaborators answer, [processBatch] returns normally
    with the duration it measured (end clock minus start clock), the
    metadata extractor has been called for every file of the batch, in
    order (the reserved sync files apart, which [processFile] skips), and
    the batch is marked completed with its start and end times. *)
Theorem processBatch_survives_file_failures
    (i : nat) (r : Run) (batch : SyncBatch) :
  batches (st r) !! i = Some batch →
  (∀ r0 file e r1,
     processFile w svc file r0 = (Err e, r1) →
     processBatchFile w svc i file r0
     = (Ok tt,
        {| log := log r1
                  ++ [EvHandleError e "InitialSyncManager.processFile" (path file)];
           st := st r1 |}))
  ∧ (∀ r0 file rest,
       forEachFile w svc i (file :: rest) r0
       = forEachFile w svc i rest (processBatchFile w svc i file r0).2)
  ∧ ∃ started ended new r' completed,
      processBatch w svc i r = (Ok (ended - started), r')
      ∧ log r' = log r ++ [EvDateNow started] ++ new ++ [EvDateNow ended]
      ∧ attempted new
        = filter (λ file, isSyncFile (options (st r)) (path file) = false)
            (files batch)
      ∧ batches (st r') !! i = Some completed
      ∧ status completed = BatchCompleted
      ∧ files completed = files batch
      ∧ startTime completed = Some started
      ∧ endTime completed = Some ended.
Proof.
  intros Hbatch. split_and!.
  - intros r0 file e r1 Hfail.
    cbv [processBatchFile mbind Sync_bind bind tryCatch]. by rewrite Hfail.
  - intros r0 file rest. simpl. cbv [mbind Sync_bind bind].
    pose proof (processBatchFile_spec w svc i file r0) as Hspec.
    unfold wp in Hspec.
    destruct (processBatchFile w svc i file r0) as [res r1].
    simpl in Hspec. by destruct Hspec as [-> _].
  - pose proof (processBatch_spec w svc i r) as Hspec. unfold wp in Hspec.
    destruct (processBatch w svc i r) as [res r'].
    destruct Hspec as (started & ended & new & Hres & Hlog & Hatt & _ & Hbs).
    simpl in Hres, Hlog, Hatt, Hbs. subst res.
    assert (Hi : (eraseProgress <$> batches (st r')) !! i
                 = Some (eraseProgress (finished started ended batch))).
    { by rewrite Hbs, list_lookup_fmap, list_lookup_alter_eq, Hbatch. }
    rewrite list_lookup_fmap in Hi.
    destruct (batches (st r') !! i) as [completed|] eqn:Hlookup; [|done].
    injection Hi as Hi.
    exists started, ended, new, r', completed.
    unfold batchFiles in Hatt. rewrite Hbatch in Hatt.
    by split_and!.
Qed.

(** C5. When a Supabase service is configured and reports a record
    count other than zero, [startSync] returns normally after that one
    call: the vault is not listed, no file is handed to the metadata
    extractor, no task is enqueued, and the batches, the progress and the
    table of pending files are as they were; only [isRunning] is reset.
    This holds for every vault content, that is for every [World]. *)
Theorem startSync_skipped_when_store_has_records
    (schedule : nat → nat) (r : Run) (count : N) :
  supabaseService svc = true →
  getFileCount w (log r) = Ok count →
  count ≠ 0%N →
  let out := startSync w svc schedule r in
  out = (Ok tt, {| log := log r ++ [EvGetFileCount];
                   st := set_isRunning false (st r) |})
  ∧ newEvents r out.2 = [EvGetFileCount]
  ∧ (EvGetMarkdownFiles ∉ newEvents r out.2)
  ∧ attempted (newEvents r out.2) = []
  ∧ enqueued (newEvents r out.2) = []
  ∧ batches (st out.2) = batches (st r)
  ∧ pendingFileMetadata (st out.2) = pendingFileMetadata (st r)
  ∧ progress (st out.2) = progress (st r).
Proof.
  intros Hsvc Hcount Hnonzero out.
  assert (Hout : out = (Ok tt, {| log := log r ++ [EvGetFileCount];
                                  st := set_isRunning false (st r) |})).
  { subst out.
    cbv [startSync alreadySynced tryFinally tryCatch mbind Sync_bind bind
         modify invoke ret].
    rewrite Hsvc. cbn [log st]. rewrite Hcount.
    by rewrite bool_decide_eq_true_2 by lia. }
  rewrite Hout. simpl.
  rewrite (newEvents_app r _ [EvGetFileCount]) by done.
  split_and!; try done.
  intros Hin. apply list_elem_of_singleton in Hin. discriminate.
Qed.

End BatchTheorems.

Section BatchExamples.

Import InitialSyncManager.

Lemma processFile_failure_clears_pending_entry_witness :
  pendingFileMetadata
    (st (processFile (fullQueueWorld []) offline (note "a.md")
           (fresh defaultOptions)).2) !! "a.md" = None.
Proof.
  refine (proj1 (processFile_failure_clears_pending_entry
                   (fullQueueWorld []) offline (note "a.md")
                   (fresh defaultOptions) _ failure _)).
  vm_compute. reflexivity.
Defined.

Lemma processBatch_survives_file_failures_witness :
  ∃ started ended new r' completed,
    processBatch (fullQueueWorld []) offline 0
      (holding [note "a.md"; note "b.md"]) = (Ok (ended - started), r')
    ∧ log r' = [] ++ [EvDateNow started] ++ new ++ [EvDateNow ended]
    ∧ attempted new = [note "a.md"; note "b.md"]
    ∧ batches (st r') !! 0%nat = Some completed
    ∧ status completed = BatchCompleted.
Proof.
  destruct (processBatch_survives_file_failures (fullQueueWorld []) offline 0
              (holding [note "a.md"; note "b.md"]) _ eq_refl)
    as (_ & _ & started & ended & new & r' & completed
        & H1 & H2 & H3 & H4 & H5 & _).
  exists started, ended, new, r', completed.
  split_and!; [exact H1 | exact H2 | exact H3 | exact H4 | exact H5].
Defined.

Lemma startSync_skipped_when_store_has_records_witness :
  startSync (calmWorld [note "a.md"; note "b.md"] 5) online (λ _, 0%nat)
    (fresh defaultOptions)
  = (Ok tt, {| log := [EvGetFileCount]; st := initialState defaultOptions |}).
Proof.
  destruct (startSync_skipped_when_store_has_records
              (calmWorld [note "a.md"; note "b.md"] 5) online (λ _, 0%nat)
              (fresh defaultOptions) 5%N eq_refl eq_refl) as [H _];
    [discriminate|].
  exact H.
Defined.

(** With an empty store the same files are processed and enqueued. *)
Example startSync_runs_when_store_is_empty :
  let out := startSync (calmWorld [note "a.md"; note "b.md"] 0) online
               (λ _, 0%nat) (fresh defaultOptions) in
  attempted (log out.2) = [note "a.md"; note "b.md"]
  ∧ task_id <$> enqueued (log out.2) = ["a.md"; "b.md"].
Proof. by vm_compute. Qed.

End BatchExamples.

Section Pool.

Import InitialSyncManager.

Context (w : World) (svc : Services).
Context (o : InitialSyncOptions) (base : list (list TFile)) (allFiles : list TFile).

Lemma PoolInv_frame (r r' : Run) (c : Cursor) :
  options (st r') = options (st r) →
  files <$> batches (st r') = files <$> batches (st r) →
  PoolInv o base allFiles r c → PoolInv o base allFiles r' c.
Proof.
  intros Hopt Hfiles (Ho & Hidx & slices & Hbs & Hrest).
  split_and!; [congruence | done |].
  exists slices. by rewrite Hfiles.
Qed.

Lemma files_of_erased (bs bs' : list SyncBatch) :
  eraseProgress <$> bs = eraseProgress <$> bs' → files <$> bs = files <$> bs'.
Proof.
  intros H. apply (f_equal (fmap files)) in H.
  by rewrite <- !list_fmap_compose in H.
Qed.

Lemma files_alter (f : SyncBatch → SyncBatch) (i : nat) (bs : list SyncBatch) :
  (∀ b, files (f b) = files b) → files <$> alter f i bs = files <$> bs.
Proof.
  intros Hf. revert i. induction bs as [|b bs IH]; intros [|i]; simpl; try done.
  - by rewrite Hf.
  - f_equal. apply IH.
Qed.

Lemma sliceSize_bounds (s : State) (c : Cursor) :
  (nextIndex c < length allFiles)%nat →
  (1 ≤ sliceSize s (length allFiles) c ≤ length allFiles - nextIndex c)%nat
  ∧ Z.of_nat (sliceSize s (length allFiles) c)
    ≤ Z.max 1 (maxBatchSize (throttling (options s))).
Proof.
  intros Hlt. unfold sliceSize, normalizedBatchSize. lia.
Qed.

Lemma getNextBatch_spec (r : Run) (c : Cursor) :
  PoolInv o base allFiles r c →
  wp (getNextBatch allFiles c) r (λ res r',
    ∃ got c',
      res = Ok (got, c')
      ∧ PoolInv o base allFiles r' c'
      ∧ ((is_Some got ∧ (nextIndex c < nextIndex c')%nat)
         ∨ (got = None ∧ c' = c ∧ (length allFiles ≤ nextIndex c)%nat))).
Proof.
  intros (Ho & Hidx & slices & Hbs & Hcat & Hmin & Hmax).
  unfold getNextBatch. cbv [mbind Sync_bind].
  wp_step. wp_step. case_decide as Hdone; repeat wp_step.
  - exists None, c. split_and!; [done| |right; done].
    split_and!; [done..|]. by exists slices.
  - destruct (sliceSize_bounds (st r) c) as [[H1 H2] H3]; [lia|].
    set (size := sliceSize (st r) (length allFiles) c) in *. clearbody size.
    eexists _, _. split; [done|]. simpl. split; [|left; split; [done|lia]].
    split_and!; [done | simpl; lia |]. simpl.
    exists (slices ++ [take size (drop (nextIndex c) allFiles)]).
    rewrite fmap_app, Hbs, app_assoc. split; [done|].
    rewrite concat_app, Hcat. simpl. rewrite app_nil_r, take_take_drop.
    split; [done|].
    assert (Hlen : length (take size (drop (nextIndex c) allFiles)) = size).
    { rewrite length_take, length_drop. lia. }
    split.
    + apply Forall_app. split; [done|]. apply Forall_singleton. lia.
    + apply Forall_app. split; [done|].
      apply Forall_singleton. by rewrite Hlen, <- Ho.
Qed.

Lemma afterBatch_frame (duration : Z) (n : nat) (r : Run) :
  wp (afterBatch duration n) r (λ res r',
    res = Ok tt ∧ log r' = log r
    ∧ options (st r') = options (st r)
    ∧ batches (st r') = batches (st r)).
Proof.
  unfold afterBatch. cbv [mbind Sync_bind]. by repeat wp_step.
Qed.

Lemma claimNext_spec (r : Run) (c : Cursor) :
  PoolInv o base allFiles r c →
  wp (claimNext allFiles c) r (λ res r',
    ∃ next c',
      res = Ok (next, c')
      ∧ PoolInv o base allFiles r' c'
      ∧ ((next = None ∧ c' = c ∧ (length allFiles ≤ nextIndex c)%nat)
         ∨ (∃ i, next = Some (Processing i))
           ∧ (nextIndex c < nextIndex c')%nat)).
Proof.
  intros Hinv. unfold claimNext. cbv [mbind Sync_bind]. wp_step.
  eapply wp_wand; [by apply getNextBatch_spec|].
  intros res r' (got & c' & -> & Hinv' & Hcase). wp_step.
  exists (Processing <$> got), c'. split_and!; [done..|].
  destruct Hcase as [[[i ->] Hlt] | (-> & -> & Hge)]; [right|left]; eauto.
Qed.

Lemma workerStep_spec (wk : Worker) (r : Run) (c : Cursor) :
  PoolInv o base allFiles r c →
  wp (workerStep w svc allFiles wk c) r (λ res r',
    ∃ next c',
      res = Ok (next, c')
      ∧ PoolInv o base allFiles r' c'
      ∧ (2 * (length allFiles - nextIndex c') + from_option weight 0 next
         < 2 * (length allFiles - nextIndex c) + weight wk)%nat
      ∧ (next = None → (length allFiles ≤ nextIndex c')%nat)).
Proof.
  intros Hinv. pose proof Hinv as (_ & Hidx & _).
  destruct wk as [i|]; simpl.
  - cbv [mbind Sync_bind]. wp_step. wp_step.
    eapply wp_wand; [apply processBatch_spec|].
    intros res [l1 s1] (started & ended & new & -> & _ & _ & Hopt & Hbs).
    simpl in Hopt, Hbs. wp_simpl. wp_step. wp_step. wp_step.
    eapply wp_wand; [apply afterBatch_frame|].
    intros res [l2 s2] (-> & _ & Hopt' & Hbs'). simpl in Hopt', Hbs'. wp_simpl.
    assert (Hinv2 : PoolInv o base allFiles {| log := l2; st := s2 |} c).
    { apply (PoolInv_frame r); simpl; [congruence| |done].
      rewrite Hbs'. apply files_of_erased in Hbs. rewrite Hbs.
      by apply files_alter. }
    destruct (0 <? throttleDelayMs (throttling (options s1))).
    + repeat wp_step. exists (Some Throttled), c.
      split_and!; [done| |simpl; lia|done].
      by apply (PoolInv_frame {| log := l2; st := s2 |}).
    + eapply wp_wand; [by apply claimNext_spec|].
      intros res r' (next & c' & -> & Hinv' & Hcase).
      pose proof Hinv' as (_ & Hidx' & _).
      exists next, c'. split_and!; [done..| |].
      * destruct Hcase as [(-> & -> & Hge) | [[j ->] Hlt]]; simpl; lia.
      * destruct Hcase as [(-> & -> & Hge) | [[j ->] Hlt]]; [done|done].
  - eapply wp_wand; [by apply claimNext_spec|].
    intros res r' (next & c' & -> & Hinv' & Hcase).
    pose proof Hinv' as (_ & Hidx' & _).
    exists next, c'. split_and!; [done..| |].
    + destruct Hcase as [(-> & -> & Hge) | [[j ->] Hlt]]; simpl; lia.
    + destruct Hcase as [(-> & -> & Hge) | [[j ->] Hlt]]; [done|done].
Qed.

Lemma startWorkers_spec (n : nat) :
  ∀ (r : Run) (c : Cursor),
    PoolInv o base allFiles r c →
    wp (startWorkers n allFiles c) r (λ res r',
      ∃ workers c',
        res = Ok (workers, c')
        ∧ PoolInv o base allFiles r' c'
        ∧ (poolMeasure (length allFiles) workers c'
           ≤ 2 * (length allFiles - nextIndex c))%nat
        ∧ ((0 < n)%nat → workers = [] → (length allFiles ≤ nextIndex c')%nat)).
Proof.
  induction n as [|n IH]; intros r c Hinv; simpl.
  - wp_step. exists [], c. unfold poolMeasure. simpl.
    split_and!; [done| done | lia | lia].
  - cbv [mbind Sync_bind]. wp_step.
    eapply wp_wand; [by apply getNextBatch_spec|].
    intros res r' (got & c' & -> & Hinv' & Hcase). wp_simpl.
    pose proof Hinv' as (_ & Hidx' & _).
    destruct Hcase as [[[i ->] Hlt] | (-> & -> & Hge)]; wp_simpl.
    + wp_step.
      eapply wp_wand; [by apply IH|].
      intros res r'' (workers & c'' & -> & Hinv'' & Hmeasure & _). wp_step.
      exists (Processing i :: workers), c''.
      split_and!; [done..| |done].
      unfold poolMeasure in *. simpl. lia.
    + wp_step. exists [], c. unfold poolMeasure. simpl.
      split_and!; [done| done | lia | done].
Qed.

Lemma measure_insert (workers : list Worker) (k : nat) (wk wk' : Worker) :
  workers !! k = Some wk →
  (sum_list_with weight (<[k:=wk']> workers) + weight wk
   = sum_list_with weight workers + weight wk')%nat.
Proof.
  intros Hk. rewrite insert_take_drop by (by eapply lookup_lt_Some).
  rewrite <- (take_drop_middle workers k wk Hk) at 3.
  rewrite !sum_list_with_app. simpl. lia.
Qed.

Lemma measure_delete (workers : list Worker) (k : nat) (wk : Worker) :
  workers !! k = Some wk →
  (sum_list_with weight (delete k workers) + weight wk
   = sum_list_with weight workers)%nat.
Proof.
  intros Hk. rewrite delete_take_drop.
  rewrite <- (take_drop_middle workers k wk Hk) at 3.
  rewrite !sum_list_with_app. simpl. lia.
Qed.


End Pool.

Section PoolTheorem.

Import InitialSyncManager.

Context (w : World) (svc : Services).


End PoolTheorem.

Section PoolExamples.

Import InitialSyncManager.


(** Two workers, batches of at most two files: the five files are cut
    into three batches. *)
Example pool_cuts_five_files :
  let o := {| batchSize := 2; maxConcurrentBatches := 2;
              enableAutoInitialSync := true; priorityRules := [];
              syncFilePath := None; exclusions := None;
              throttling := {| minBatchSize := 1; maxBatchSize := 2;
                               targetBatchDurationMs := 2000;
                               throttleDelayMs := 5;
                               progressIntervalMs := 16 |} |} in
  let all := note <$> ["a.md"; "b.md"; "c.md"; "d.md"; "e.md"] in
  let out := runPool (calmWorld [] 0) offline (λ n, n) all (fresh o) in
  (λ b, path <$> files b) <$> batches (st out.2)
  = [["a.md"; "b.md"]; ["c.md"; "d.md"]; ["e.md"]]
  ∧ status <$> batches (st out.2)
    = [BatchCompleted; BatchCompleted; BatchCompleted].
Proof. by vm_compute. Qed.

End PoolExamples.

(** * Properties of the offline queue *)

Section OfflineQueue.

Import OfflineQueueManager.

Context (w : World).

Lemma isPendingDeleteOf_true (id : string) (op : OfflineOperation) :
  isPendingDeleteOf id op = true
  ↔ isPending op = true ∧ operationType op = op_delete ∧ fileId op = id.
Proof.
  unfold isPendingDeleteOf.
  rewrite !andb_true_iff, !bool_decide_eq_true. tauto.
Qed.

Lemma replay_unreachable (id : string) (op : OfflineOperation) (log : list Event) :
  isPending op = true →
  ∃ new, (replay w false op log).2 = log ++ new ∧ quiet id new [op].
Proof.
  intros Hpending. unfold replay, quiet.
  rewrite filter_cons, filter_nil.
  destruct (operationType op) eqn:Htype; simpl.
  1,2: exists []; rewrite app_nil_r; split_and!; [done..|];
       case_decide as H; [|done];
       apply isPendingDeleteOf_true in H as (_ & H & _); congruence.
  assert (Hsame : isPendingDeleteOf id op = bool_decide (fileId op = id)).
  { unfold isPendingDeleteOf.
    by rewrite Hpending, (bool_decide_eq_true_2 _ Htype). }
  rewrite Hsame.
  destruct (syncFileResolves w log op); simpl;
    eexists; (split; [done|]); rewrite !filter_cons, !filter_nil; simpl;
    (split; [repeat (apply Forall_cons; split; [done|]); by apply Forall_nil|]);
    by case_decide.
Qed.

Lemma replayAll_unreachable (id : string) (ops : list OfflineOperation) :
  ∀ log, ∃ new, (replayAll w false ops log).2 = log ++ new ∧ quiet id new ops.
Proof.
  induction ops as [|op ops IH]; intros log; cbn [replayAll].
  - exists []. rewrite app_nil_r. by split_and!.
  - destruct (isPending op) eqn:Hpending; cbn [fst snd].
    + destruct (replay_unreachable id op log Hpending)
        as (new1 & Hlog1 & Hq1 & Hn1).
      rewrite Hlog1.
      destruct (IH (log ++ new1)) as (new2 & -> & Hq2 & Hn2).
      exists (new1 ++ new2). rewrite app_assoc. split; [done|].
      split; [by apply Forall_app|].
      rewrite filter_app, length_app, Hn1, Hn2.
      rewrite (filter_cons _ op ops), (filter_cons _ op []), filter_nil.
      by case_decide.
    + destruct (IH log) as (new & -> & Hq & Hn).
      exists new. split; [done|]. split; [done|].
      rewrite Hn, filter_cons. case_decide as H; [|done].
      apply isPendingDeleteOf_true in H as (H & _). congruence.
Qed.

Lemma replayAll_removes (op : OfflineOperation) (ops : list OfflineOperation) :
  isPending op = true → operationType op = op_delete →
  (∀ log, syncFileResolves w log op = true) →
  ∀ log, op ∉ (replayAll w false ops log).1.
Proof.
  intros Hpending Hdelete Hresolves.
  induction ops as [|x ops IH]; intros log; cbn [replayAll];
    [apply not_elem_of_nil|].
  destruct (isPending x) eqn:Hx; cbn [fst snd].
  - destruct (replay w false x log).1 eqn:Hremoved; [apply IH|].
    apply not_elem_of_cons. split; [|apply IH].
    intros <-. revert Hremoved. unfold replay.
    by rewrite Hdelete, Hresolves.
  - apply not_elem_of_cons. split; [|apply IH]. intros <-. congruence.
Qed.

(** C8. During a pass made while the remote store is unreachable (no
    Supabase service, or offline), no call at all goes to the remote
    store. Replaying a pending DELETE makes one call to the sync file,
    [updateSyncStatus] with status OK for the file of the operation, and
    nothing else but a report if that call fails; over the whole pass the
    OK updates for an identity are as many as the pending DELETEs of that
    identity, so exactly one when the operation is the only one. When the
    sync-file call of the operation resolves, the operation is no longer
    in the durable queue after the pass. *)
Theorem offline_delete_falls_back_to_sync_file
    (m : Manager) (op : OfflineOperation) :
  reachable m = false →
  op ∈ queue m →
  op_status op = op_pending →
  operationType op = op_delete →
  let out := processQueue w m in
  Forall (λ ev, isRemoteCall ev = false) out.2
  ∧ length (filter (λ ev, isSyncFileOK (fileId op) ev = true) out.2)
    = length (filter (λ x, isPendingDeleteOf (fileId op) x = true) (queue m))
  ∧ (filter (λ x, isPendingDeleteOf (fileId op) x = true) (queue m) = [op] →
     length (filter (λ ev, isSyncFileOK (fileId op) ev = true) out.2) = 1%nat)
  ∧ ((∀ log, syncFileResolves w log op = true) → op ∉ queue out.1)
  ∧ (∀ log, (replay w false op log).1 = syncFileResolves w log op
            ∧ ∃ reports,
                (replay w false op log).2
                = log ++ EvUpdateSyncStatusOK (fileId op) (metadata op) :: reports
                ∧ Forall (λ ev, isSyncFileOK (fileId op) ev = false
                                ∧ isRemoteCall ev = false) reports).
Proof.
  intros Hunreachable Hin Hstatus Hdelete out. subst out.
  unfold processQueue. rewrite Hunreachable. simpl.
  assert (Hpending : isPending op = true) by by apply bool_decide_eq_true_2.
  destruct (replayAll_unreachable (fileId op) (queue m) []) as (new & -> & Hq & Hn).
  simpl. split_and!; [done | done | | |].
  - intros Hone. by rewrite Hn, Hone.
  - intros Hresolves. by apply replayAll_removes.
  - intros log. unfold replay. rewrite Hdelete.
    destruct (syncFileResolves w log op); simpl; (split; [done|]).
    + by exists [].
    + eexists [_]. split; [done|]. by repeat constructor.
Qed.

End OfflineQueue.

Section OfflineQueueExamples.

Import OfflineQueueManager.

Example test_create_replayed :
  processQueue allResolve (withSupabase [op1])
  = (withSupabase [],
     [EvUpdateFileVectorizationStatus "Note.md"
        (Some {| op_contentHash := Some "abc"; op_lastModified := Some 123 |})]).
Proof. reflexivity. Qed.

Example test_delete_falls_back :
  processQueue allResolve (withoutSupabase [op2])
  = (withoutSupabase [], [EvUpdateSyncStatusOK "Note.md" None]).
Proof. reflexivity. Qed.

Lemma offline_delete_falls_back_to_sync_file_witness :
  let out := processQueue allResolve (withoutSupabase [op1; op2]) in
  Forall (λ ev, isRemoteCall ev = false) out.2
  ∧ length (filter (λ ev, isSyncFileOK "Note.md" ev = true) out.2) = 1%nat
  ∧ op2 ∉ queue out.1.
Proof.
  destruct (offline_delete_falls_back_to_sync_file allResolve
              (withoutSupabase [op1; op2]) op2 eq_refl)
    as (H1 & _ & H3 & H4 & _);
    [apply list_elem_of_further, list_elem_of_here | reflexivity | reflexivity |].
  split; [exact H1|]. split; [apply H3; reflexivity | apply H4; reflexivity].
Defined.

End OfflineQueueExamples.

(** * Further properties of the bulk scheduler *)

(** ** JavaScript strings *)

Section JsStrings.

Lemma string_app_cons (c : Ascii.ascii) (s t : string) :
  String c s +:+ t = String c (s +:+ t).
Proof. reflexivity. Qed.

Lemma string_app_nil_l (s : string) : EmptyString +:+ s = s.
Proof. reflexivity. Qed.

Lemma string_app_nil_r (s : string) : s +:+ EmptyString = s.
Proof.
  induction s as [|c s IH]; [done|]. by rewrite string_app_cons, IH.
Qed.

Lemma string_app_assoc (a b c : string) : (a +:+ b) +:+ c = a +:+ (b +:+ c).
Proof.
  induction a as [|x a IH]; [done|]. by rewrite !string_app_cons, IH.
Qed.

Lemma startsWith_spec (s p : string) :
  Js.startsWith s p = true ↔ ∃ rest, s = p +:+ rest.
Proof.
  unfold Js.startsWith. revert s.
  induction p as [|c p IH]; intros s.
  - destruct s; simpl; split; eauto.
  - destruct s as [|d s]; simpl.
    + split; [done|]. by intros [rest ?].
    + destruct (Ascii.ascii_dec c d) as [->|Hne].
      * rewrite IH. split; intros [rest H]; exists rest;
          rewrite string_app_cons in *; congruence.
      * split; [done|]. intros [rest H].
        rewrite string_app_cons in H. congruence.
Qed.

Lemma rev_app_spec (s acc : string) :
  String.rev_app s acc = String.rev s +:+ acc.
Proof.
  unfold String.rev. revert acc.
  induction s as [|c s IH]; intros acc; simpl; [done|].
  by rewrite IH, (IH (String c EmptyString)), string_app_assoc.
Qed.

Lemma rev_cons (c : Ascii.ascii) (s : string) :
  String.rev (String c s) = String.rev s +:+ String c EmptyString.
Proof. unfold String.rev at 1. simpl. apply rev_app_spec. Qed.

Lemma rev_app (a b : string) :
  String.rev (a +:+ b) = String.rev b +:+ String.rev a.
Proof.
  induction a as [|c a IH].
  - by rewrite string_app_nil_l, string_app_nil_r.
  - by rewrite string_app_cons, !rev_cons, IH, string_app_assoc.
Qed.

Lemma rev_involutive (s : string) : String.rev (String.rev s) = s.
Proof.
  induction s as [|c s IH]; [done|].
  by rewrite rev_cons, rev_app, IH.
Qed.

Lemma endsWith_spec (s p : string) :
  Js.endsWith s p = true ↔ ∃ front, s = front +:+ p.
Proof.
  unfold Js.endsWith.
  change (String.prefix (String.rev p) (String.rev s))
    with (Js.startsWith (String.rev s) (String.rev p)).
  rewrite startsWith_spec. split.
  - intros [rest H]. exists (String.rev rest).
    apply (f_equal String.rev) in H.
    by rewrite rev_involutive, rev_app, rev_involutive in H.
  - intros [front ->]. exists (String.rev front). apply rev_app.
Qed.

Lemma includes_nil (p : string) : Js.includes EmptyString p = Js.startsWith EmptyString p.
Proof. unfold Js.startsWith. simpl. apply orb_false_r. Qed.

Lemma includes_cons (c : Ascii.ascii) (s p : string) :
  Js.includes (String c s) p
  = Js.startsWith (String c s) p || Js.includes s p.
Proof. reflexivity. Qed.

Lemma includes_spec (s p : string) :
  Js.includes s p = true ↔ ∃ front rest, s = front +:+ p +:+ rest.
Proof.
  induction s as [|c s IH].
  - rewrite includes_nil, startsWith_spec. split.
    + intros [rest H]. by exists EmptyString, rest.
    + intros ([|d front] & rest & H); [by exists rest|done].
  - rewrite includes_cons, orb_true_iff, IH, startsWith_spec. split.
    + intros [[rest H] | (front & rest & H)].
      * by exists EmptyString, rest.
      * exists (String c front), rest. by rewrite string_app_cons, H.
    + intros ([|d front] & rest & H).
      * left. by exists rest.
      * right. exists front, rest. rewrite string_app_cons in H. congruence.
Qed.

End JsStrings.

(** ** Sorting by priority *)

Section Sorting.

Import InitialSyncManager.
Context (o : InitialSyncOptions).

Lemma insertByPriority_perm x l : insertByPriority o x l ≡ₚ x :: l.
Proof.
  induction l as [|y l IH]; simpl; [done|].
  destruct (_ <? _); [|done]. rewrite IH. apply Permutation_swap.
Qed.

Lemma sortFilesByPriority_perm fs : sortFilesByPriority o fs ≡ₚ fs.
Proof.
  induction fs as [|x fs IH]; simpl; [done|].
  unfold sortFilesByPriority in *. simpl.
  by rewrite insertByPriority_perm, IH.
Qed.

Lemma insertByPriority_sorted x l :
  StronglySorted (byPriority o) l → StronglySorted (byPriority o) (insertByPriority o x l).
Proof.
  induction 1 as [|y l Hl IH Hy]; simpl.
  - by repeat constructor.
  - destruct (_ <? _) eqn:Hlt.
    + apply Z.ltb_lt in Hlt. constructor; [done|].
      rewrite insertByPriority_perm. constructor; [unfold byPriority; lia|done].
    + apply Z.ltb_ge in Hlt. constructor; [by constructor|].
      constructor; [done|].
      eapply Forall_impl; [exact Hy|]. unfold byPriority. simpl. intros z. lia.
Qed.

Lemma sortFilesByPriority_sorted fs :
  StronglySorted (byPriority o) (sortFilesByPriority o fs).
Proof.
  induction fs as [|x fs IH]; [constructor|].
  by apply insertByPriority_sorted.
Qed.

Lemma StronglySorted_lookup_lt {A} (R : relation A) (l : list A) i j a b :
  StronglySorted R l → (i < j)%nat → l !! i = Some a → l !! j = Some b → R a b.
Proof.
  intros Hl. revert i j. induction Hl as [|x l Hl IH Hx]; intros i j Hij Hi Hj.
  - done.
  - destruct j as [|j]; [lia|]. destruct i as [|i]; simpl in *.
    + injection Hi as <-. rewrite Forall_forall in Hx. apply Hx.
      by eapply list_elem_of_lookup_2.
    + apply (IH i j); [lia|done..].
Qed.

Lemma filter_insertByPriority (k : Z) x l :
  filter (λ f, getFilePriority o (path f) = k) (insertByPriority o x l)
  = filter (λ f, getFilePriority o (path f) = k) (x :: l).
Proof.
  induction l as [|y l IH]; simpl; [done|].
  destruct (_ <? _) eqn:Hlt; [|done]. apply Z.ltb_lt in Hlt.
  rewrite (filter_cons _ y), IH, !filter_cons.
  repeat case_decide; try done; lia.
Qed.

(** X1. [sortFilesByPriority] returns the files it is given, each as
    often as it was given, in the order of their priorities, highest
    first; files of the same priority keep the order they had. *)
Theorem sortFilesByPriority_stable_descending (fs : list TFile) :
  let sorted := sortFilesByPriority o fs in
  sorted ≡ₚ fs
  ∧ (∀ i j a b, (i < j)%nat → sorted !! i = Some a → sorted !! j = Some b →
       getFilePriority o (path b) ≤ getFilePriority o (path a))
  ∧ (∀ k, filter (λ f, getFilePriority o (path f) = k) sorted
          = filter (λ f, getFilePriority o (path f) = k) fs).
Proof.
  split_and!.
  - apply sortFilesByPriority_perm.
  - intros i j a b Hij Hi Hj.
    by apply (StronglySorted_lookup_lt (byPriority o) _ i j a b
                (sortFilesByPriority_sorted fs)).
  - intros k. induction fs as [|x fs IH]; [done|].
    unfold sortFilesByPriority in *. simpl.
    by rewrite filter_insertByPriority, !filter_cons, IH.
Qed.
End Sorting.

(** ** Priorities, exclusions and the adaptive batch size *)

Section Pure.

Import InitialSyncManager.

(** X2. [getFilePriority] returns the priority of the first rule, in the
    order of the rules, whose pattern occurs in the path as a substring,
    whatever the priorities of the rules after it; and 1 when no pattern
    occurs in the path. (It is the first match, not the highest.) *)
Theorem getFilePriority_is_first_match (o : InitialSyncOptions) (p : string) :
  (∃ before rule after,
     priorityRules o = before ++ rule :: after
     ∧ Forall (λ earlier, ¬ occursIn (pattern earlier) p) before
     ∧ occursIn (pattern rule) p
     ∧ getFilePriority o p = rule_priority rule)
  ∨ (Forall (λ rule, ¬ occursIn (pattern rule) p) (priorityRules o)
     ∧ getFilePriority o p = 1).
Proof.
  unfold getFilePriority.
  induction (priorityRules o) as [|rule rules IH]; simpl.
  - right. by split.
  - destruct (Js.includes p (pattern rule)) eqn:Hin.
    + left. exists [], rule, rules. split_and!; try done.
      by apply includes_spec.
    + assert (Hrule : ¬ occursIn (pattern rule) p).
      { intros Hocc. apply includes_spec in Hocc. congruence. }
      destruct IH as [(before & hit & after & -> & Hbefore & Hhit & Heq)
                     | [Hnone Heq]].
      * left. exists (rule :: before), hit, after. split_and!; try done.
        by constructor.
      * right. split; [by constructor | done].
Qed.

Lemma existsb_false {A} (f : A → bool) (l : list A) (x : A) :
  existsb f l = false → x ∈ l → f x = false.
Proof.
  intros H Hx. induction Hx as [x l|x y l Hx IH]; simpl in H;
    apply orb_false_iff in H as [H1 H2]; auto.
Qed.

Lemma not_true_false_iff (b : bool) (P : Prop) : (b = true ↔ P) → b = false → ¬ P.
Proof. intros H Hb HP. apply H in HP. congruence. Qed.

(** X3. What [startSync] keeps after its two exclusion filters
    ([filterExcludedFiles], then [isExcluded]) is a file of the vault
    that is no reserved sync file, whose path starts with no excluded
    folder name (with or without a slash after it: the second filter
    compares the bare name, so [notes] also excludes [notes2/a.md]),
    whose name and path start with no excluded prefix, whose lower-cased
    path ends with no excluded file type, and whose name and path are
    not listed as excluded files. *)
Theorem filesToSync_respects_exclusions
    (o : InitialSyncOptions) (fs : list TFile) (file : TFile) :
  file ∈ filesToSync o fs →
  let ex := effectiveExclusions o in
  file ∈ fs
  ∧ path file ≠ effectiveSyncFilePath o
  ∧ path file ≠ "_obsidianragsync.md"
  ∧ path file ≠ "_obsidianragsync.md.backup"
  ∧ (∀ folder, folder ∈ excludedFolders ex →
       ¬ ∃ rest, path file = folder +:+ rest)
  ∧ (∀ prefix, prefix ∈ excludedFilePrefixes ex →
       (¬ ∃ rest, name file = prefix +:+ rest)
       ∧ ¬ ∃ rest, path file = prefix +:+ rest)
  ∧ (∀ ext, ext ∈ excludedFileTypes ex →
       ¬ ∃ front, Js.toLowerCase (path file) = front +:+ Js.toLowerCase ext)
  ∧ (name file ∉ excludedFiles ex)
  ∧ (path file ∉ excludedFiles ex).
Proof.
  intros Hin ex. unfold filesToSync, filterExcludedFiles in Hin.
  apply list_elem_of_filter in Hin as [Hexcl Hin].
  apply list_elem_of_filter in Hin as [Hkept Hin].
  unfold keptByFilter in Hkept. fold ex in Hkept.
  unfold isExcluded in Hexcl. fold ex in Hexcl.
  destruct (isSyncFile o (path file)) eqn:Hsync; [done|].
  case_bool_decide as Hname; [done|].
  destruct (existsb _ (excludedFolders ex)) eqn:Hfolders1 in Hkept; [done|].
  destruct (existsb _ (excludedFileTypes ex)) eqn:Htypes in Hkept; [done|].
  destruct (existsb _ (excludedFilePrefixes ex)) eqn:Hprefixes1 in Hkept; [done|].
  destruct (existsb _ (excludedFolders ex)) eqn:Hfolders2 in Hexcl; [done|].
  destruct (_ && _) in Hexcl; [done|].
  destruct (existsb _ (excludedFilePrefixes ex)) eqn:Hprefixes2 in Hexcl; [done|].
  apply bool_decide_eq_false in Hexcl.
  unfold isSyncFile in Hsync.
  apply orb_false_iff in Hsync as [Hsync Hbackup].
  apply orb_false_iff in Hsync as [Hsync Hdefault].
  apply bool_decide_eq_false in Hsync, Hdefault, Hbackup.
  split_and!; try done.
  - intros folder Hfolder.
    eapply not_true_false_iff; [apply startsWith_spec|].
    by apply (existsb_false _ _ folder Hfolders2).
  - intros prefix Hprefix. split.
    + eapply not_true_false_iff; [apply startsWith_spec|].
      by apply (existsb_false _ _ prefix Hprefixes1).
    + eapply not_true_false_iff; [apply startsWith_spec|].
      by apply (existsb_false _ _ prefix Hprefixes2).
  - intros ext Hext.
    eapply not_true_false_iff; [apply endsWith_spec|].
    by apply (existsb_false _ _ ext Htypes).
Qed.

Lemma filesToSync_sublist (o : InitialSyncOptions) (fs : list TFile) :
  filesToSync o fs `sublist_of` fs.
Proof.
  unfold filesToSync, filterExcludedFiles.
  etrans; apply sublist_filter.
Qed.

Lemma round_1_25_bounds (p : Z) :
  4 * Js.round_times_1_25 p ≤ 5 * p + 2 < 4 * Js.round_times_1_25 p + 4.
Proof.
  unfold Js.round_times_1_25.
  pose proof (Z.div_mod (5 * p + 2) 4 ltac:(lia)).
  pose proof (Z.mod_pos_bound (5 * p + 2) 4 ltac:(lia)). lia.
Qed.

Lemma round_0_8_bounds (p : Z) :
  10 * Js.round_times_0_8 p ≤ 8 * p + 5 < 10 * Js.round_times_0_8 p + 10.
Proof.
  unfold Js.round_times_0_8.
  pose proof (Z.div_mod (8 * p + 5) 10 ltac:(lia)).
  pose proof (Z.mod_pos_bound (8 * p + 5) 10 ltac:(lia)). lia.
Qed.

Ltac unfold_next :=
  unfold nextBatchSize;
  repeat match goal with
  | |- context [bool_decide ?P] => destruct (bool_decide_reflect P)
  | |- context [?a <=? ?b] => destruct (Z.leb_spec a b)
  | |- context [?a <? ?b] => destruct (Z.ltb_spec a b)
  end; simpl.

Lemma nextBatchSize_bounds
    (th : ThrottlingControls) (current duration : Z) (processedCount : nat) :
  1 ≤ maxBatchSize th →
  minBatchSize th ≤ current ≤ maxBatchSize th →
  minBatchSize th
  ≤ nextBatchSize th current duration processedCount
  ≤ maxBatchSize th.
Proof.
  intros Hmax Hcur.
  pose proof (round_1_25_bounds current). pose proof (round_0_8_bounds current).
  unfold_next; lia.
Qed.

(** X4. [adjustBatchSize] keeps the adaptive batch size within the
    configured bounds: from a size between [minBatchSize] and
    [maxBatchSize], with [maxBatchSize] at least 1, the next size is
    again between them, whatever the duration and the number of files of
    the batch. *)
Theorem nextBatchSize_within_bounds
    (th : ThrottlingControls) (current duration : Z) (processedCount : nat) :
  1 ≤ maxBatchSize th →
  minBatchSize th ≤ current ≤ maxBatchSize th →
  minBatchSize th
  ≤ nextBatchSize th current duration processedCount
  ≤ maxBatchSize th.
Proof. apply nextBatchSize_bounds. Qed.

(** X5. Where the adjustment stalls. A size of 1 is never changed:
    rounding 1.25 and 0.8 both give 1, so a fast batch does not grow it.
    A size of 2 or more never gets below 2. Apart from that the size
    moves as intended: a fast batch strictly grows a size of at least 2
    that is below the maximum, and a slow batch strictly shrinks a size
    of at least 3 that is above the minimum. *)
Theorem nextBatchSize_stalls_at_one
    (th : ThrottlingControls) (duration : Z) (processedCount : nat) :
  nextBatchSize th 1 duration processedCount = 1
  ∧ (∀ current, 2 ≤ current →
       2 ≤ nextBatchSize th current duration processedCount)
  ∧ (∀ current,
       processedCount ≠ 0%nat → 0 < duration →
       5 * duration < 3 * targetBatchDurationMs th →
       2 ≤ current < maxBatchSize th →
       current < nextBatchSize th current duration processedCount)
  ∧ (∀ current,
       processedCount ≠ 0%nat → 0 < duration →
       7 * targetBatchDurationMs th < 5 * duration →
       3 ≤ current → minBatchSize th < current →
       nextBatchSize th current duration processedCount < current).
Proof.
  split_and!; [|intros current..];
    try (pose proof (round_1_25_bounds current);
         pose proof (round_0_8_bounds current));
    intros; unfold_next; try lia.
  all: pose proof (round_1_25_bounds 1); pose proof (round_0_8_bounds 1); lia.
Qed.

End Pure.

(** ** What a run of the scheduler logs *)

Section Trace.

Import InitialSyncManager.
Context (w : World) (svc : Services).

Lemma wp_and {A} (m : Sync A) r (P Q : Result JsError A → Run → Prop) :
  wp m r P → wp m r Q → wp m r (λ res r', P res r' ∧ Q res r').
Proof. unfold wp. auto. Qed.

Lemma warnings_app l1 l2 : warnings (l1 ++ l2) = warnings l1 ++ warnings l2.
Proof. apply filter_app. Qed.

Lemma fileReports_app l1 l2 :
  fileReports (l1 ++ l2) = fileReports l1 ++ fileReports l2.
Proof. apply filter_app. Qed.

Lemma fileReports_cons ev l :
  fileReports (ev :: l)
  = (if isFileReport ev then [ev] else []) ++ fileReports l.
Proof.
  unfold fileReports. rewrite filter_cons.
  destruct (isFileReport ev); by destruct (decide _).
Qed.

Lemma bulkLog_refl o r : bulkLog o svc r r [].
Proof.
  split_and!; [by rewrite app_nil_r | done | simpl; lia | done |].
  by intros [?|?].
Qed.

Lemma bulkLog_trans o r r1 r2 new1 new2 :
  bulkLog o svc r r1 new1 → bulkLog o svc r1 r2 new2 →
  bulkLog o svc r r2 (new1 ++ new2).
Proof.
  intros (Hlog1 & Hall1 & Hone1 & Hnone1 & Hshown1)
         (Hlog2 & Hall2 & Hone2 & Hnone2 & Hshown2).
  split_and!.
  - by rewrite Hlog2, Hlog1, app_assoc.
  - by apply Forall_app.
  - rewrite warnings_app, length_app.
    destruct (warnings new1) as [|ev l] eqn:Hw1; [simpl; lia|].
    rewrite Hnone2; [simpl in *; lia|]. apply Hshown1. by right.
  - intros Hs. rewrite warnings_app, Hnone1 by done.
    apply Hnone2, Hshown1. by left.
  - rewrite warnings_app. intros [Hs|Hw].
    + apply Hshown2. left. apply Hshown1. by left.
    + apply Hshown2.
      destruct (warnings new1) as [|ev l] eqn:Hw1; [by right|].
      left. apply Hshown1. by right.
Qed.

(** A step that logs calls other than notices and keeps the flag. *)
Lemma bulkLog_quiet o r r' new :
  log r' = log r ++ new →
  Forall (bulkEvent o svc) new →
  warnings new = [] →
  embeddingWarningShown (st r') = embeddingWarningShown (st r) →
  bulkLog o svc r r' new.
Proof.
  intros Hlog Hall Hw Hs. split_and!; try done.
  - rewrite Hw. simpl. lia.
  - rewrite Hw, Hs. by intros [?|?].
Qed.

Ltac trace_events :=
  repeat (apply Forall_cons; split; [simpl; auto; try lia|]);
  try apply Forall_nil_2.

Lemma processFile_trace (file : TFile) (r : Run) :
  wp (processFile w svc file) r (λ res r',
    ∃ new, bulkLog (options (st r)) svc r r' new
    ∧ length (fileReports new) = (match res with Ok _ => 0 | Err _ => 1 end)%nat
    ∧ sameTuning r r').
Proof.
  unfold processFile, processFile_body, calculateFileHash, embeddingReady.
  cbv [mbind Sync_bind].
  repeat wp_step.
  all: eexists;
    (split; [split; [first [by rewrite app_nil_r | by rewrite <- ?app_assoc]|]|]).
  all: try (split; [by trace_events|]).
  all: unfold warnings, fileReports, sameTuning; simpl in *;
    split_and!; try done; try lia; try (intros; congruence);
    try (intros [?|Hw]; [congruence | exfalso; by apply Hw]).
Qed.

Ltac quiet_step :=
  first
    [ apply (bulkLog_quiet _ _ _ []);
      [simpl; by rewrite app_nil_r | apply Forall_nil_2 | done | done]
    | eapply bulkLog_quiet;
      [simpl; by rewrite <- ?app_assoc | by trace_events | done | done] ].

Lemma processBatchFile_trace (i : nat) (file : TFile) (r : Run) :
  wp (processBatchFile w svc i file) r (λ res r',
    ∃ new, bulkLog (options (st r)) svc r r' new
    ∧ 2 * processedFiles (progress (st r')) + Z.of_nat (length (fileReports new))
      = 2 * processedFiles (progress (st r)) + 2
    ∧ sameTuning r r').
Proof.
  unfold processBatchFile, updateProgressNotification.
  cbv [mbind Sync_bind].
  wp_step. wp_step.
  eapply wp_wand; [apply (wp_and _ _ _ _ (processFile_spec w svc file r)
                            (processFile_trace file r))|].
  intros res [l1 s1] [(_ & _ & _ & Hopt & _ & Hprog & _)
                        (new & Hbulk & Hrep & Hadapt & Hcount & Htotal & _)].
  simpl in Hopt, Hprog, Hadapt, Hcount, Htotal.
  destruct res as [[]|e]; wp_simpl; repeat wp_step.
  all: eexists; (split; [eapply bulkLog_trans; [exact Hbulk|]; quiet_step|]).
  all: simpl; rewrite ?app_nil_r, ?fileReports_app, ?length_app, Hrep, Hprog.
  all: unfold sameTuning; simpl; rewrite ?Hprog;
    (split; [lia|]); split_and!; [done | done | by rewrite ?Htotal | lia].
Qed.

Lemma sameTuning_trans r r1 r2 :
  sameTuning r r1 → sameTuning r1 r2 → sameTuning r r2.
Proof.
  unfold sameTuning. intros (-> & -> & -> & ?) (-> & -> & -> & ?).
  split_and!; [done..|lia].
Qed.

Lemma forEachFile_trace (i : nat) (fs : list TFile) :
  ∀ r, wp (forEachFile w svc i fs) r (λ res r',
    ∃ new, bulkLog (options (st r)) svc r r' new
    ∧ 2 * processedFiles (progress (st r')) + Z.of_nat (length (fileReports new))
      = 2 * processedFiles (progress (st r)) + 2 * Z.of_nat (length fs)
    ∧ sameTuning r r').
Proof.
  induction fs as [|file fs IH]; intros r; simpl.
  - apply wp_ret. exists []. split; [apply bulkLog_refl|]. simpl.
    split; [lia|]. unfold sameTuning. split_and!; [done..|lia].
  - cbv [mbind Sync_bind]. apply wp_bind.
    eapply wp_wand; [apply (wp_and _ _ _ _ (processBatchFile_spec w svc i file r)
                              (processBatchFile_trace i file r))|].
    intros res r1 [(-> & _ & _ & _ & Hopt & _) (new & Hbulk & Hcount & Htune)].
    eapply wp_wand; [apply IH|].
    intros res' r2 (new' & Hbulk' & Hcount' & Htune').
    rewrite Hopt in Hbulk'.
    exists (new ++ new'). split; [by eapply bulkLog_trans|].
    split; [|by eapply sameTuning_trans].
    rewrite fileReports_app, length_app. lia.
Qed.

Lemma processBatch_trace (i : nat) (r : Run) :
  wp (processBatch w svc i) r (λ res r',
    ∃ new, bulkLog (options (st r)) svc r r' new
    ∧ 2 * processedFiles (progress (st r')) + Z.of_nat (length (fileReports new))
      = 2 * processedFiles (progress (st r))
        + 2 * Z.of_nat (length (batchFiles (st r) i))
    ∧ sameTuning r r').
Proof.
  unfold processBatch. cbv [mbind Sync_bind].
  do 10 wp_step.
  rewrite !batchFiles_alter by done.
  eapply wp_wand; [apply forEachFile_trace|].
  intros res [l1 s1] (new & Hbulk & Hcount & Htune).
  simpl in Hbulk, Hcount. unfold sameTuning in Htune. simpl in Htune.
  destruct Htune as (Hadapt & Hcbc & Htotal & Hgrows).
  destruct res as [[]|e]; wp_simpl; repeat wp_step.
  all: eexists;
    (split; [eapply (bulkLog_trans _ _ {| log := log r ++ [EvDateNow t] |});
               [quiet_step|];
             eapply bulkLog_trans; [exact Hbulk|]; quiet_step|]).
  all: simpl; rewrite ?fileReports_cons, ?fileReports_app, ?length_app;
    simpl; rewrite ?Nat.add_0_r.
  all: unfold sameTuning; simpl; (split; [lia|]); by split_and!.
Qed.

End Trace.

(** ** The invariant of a run of the pool *)

Section PoolRuns.

Import InitialSyncManager.
Context (w : World) (svc : Services).

Lemma shapes_of_erased (s s' : State) :
  eraseProgress <$> batches s = eraseProgress <$> batches s' →
  shapes s = shapes s'.
Proof.
  intros H. unfold shapes.
  apply (f_equal (fmap (λ b, (status b, files b)))) in H.
  by rewrite <- !list_fmap_compose in H.
Qed.

Lemma shapes_alter_finished (started ended : Z) (i : nat) (bs : list SyncBatch) :
  (λ b, (status b, files b)) <$> alter (finished started ended) i bs
  = alter complete i ((λ b, (status b, files b)) <$> bs).
Proof.
  revert i. induction bs as [|b bs IH]; intros [|i]; simpl; try done.
  f_equal. apply IH.
Qed.

Lemma filter_alter_complete (L : list (BatchStatus * list TFile)) (k : nat)
    (fs : list TFile) :
  L !! k = Some (BatchPending, fs) →
  ∃ A B,
    snd <$> filter (λ p, p.1 = BatchCompleted) L = A ++ B
    ∧ snd <$> filter (λ p, p.1 = BatchCompleted) (alter complete k L)
      = A ++ fs :: B.
Proof.
  revert k. induction L as [|p L IH]; intros [|k] Hk; simpl in Hk; try done.
  - injection Hk as ->. exists [], (snd <$> filter (λ p, p.1 = BatchCompleted) L).
    cbn [alter list_alter]. rewrite !filter_cons. simpl.
    by repeat case_decide.
  - destruct (IH k Hk) as (A & B & H1 & H2).
    cbn [alter list_alter]. rewrite !filter_cons.
    destruct (decide (p.1 = BatchCompleted)).
    + exists (p.2 :: A), B. rewrite !fmap_cons, H1, H2. done.
    + exists A, B. by rewrite H1, H2.
Qed.

Lemma completedSlices_alter (n0 i : nat) (s s' : State) (fs : list TFile) :
  shapes s' = alter complete i (shapes s) →
  shapes s !! i = Some (BatchPending, fs) →
  (n0 ≤ i)%nat →
  ∃ A B, completedSlices n0 s = A ++ B
         ∧ completedSlices n0 s' = A ++ fs :: B.
Proof.
  intros Hs Hi Hle. unfold completedSlices. rewrite Hs.
  rewrite drop_alter_ge by done.
  apply filter_alter_complete. rewrite lookup_drop.
  by replace (n0 + (i - n0))%nat with i by lia.
Qed.

Lemma held_cons wk workers : held (wk :: workers) = heldBy wk ++ held workers.
Proof. done. Qed.

Lemma held_lookup (workers : list Worker) (k : nat) (wk : Worker) :
  workers !! k = Some wk →
  held workers ≡ₚ heldBy wk ++ held (delete k workers).
Proof.
  revert k. induction workers as [|x workers IH]; intros [|k] Hk;
    simpl in Hk; try done.
  - by injection Hk as ->.
  - cbn [delete list_delete]. rewrite !held_cons, (IH k Hk).
    apply Permutation_app_swap_app.
Qed.

Lemma held_insert (workers : list Worker) (k : nat) (wk wk' : Worker) :
  workers !! k = Some wk →
  held (<[k:=wk']> workers) ≡ₚ heldBy wk' ++ held (delete k workers).
Proof.
  revert k. induction workers as [|x workers IH]; intros [|k] Hk;
    simpl in Hk; try done.
  cbn [delete list_delete]. simpl. rewrite !held_cons, (IH k Hk).
  apply Permutation_app_swap_app.
Qed.

Lemma PoolRun_perm (r0 r : Run) (hs hs' : list nat) :
  hs ≡ₚ hs' → PoolRun svc r0 hs r → PoolRun svc r0 hs' r.
Proof.
  intros Hperm (Hnodup & Hall & Hheld & Hrest).
  split; [by rewrite <- Hperm|]. split; [|split; [|done]].
  - intros j p Hj Hle. destruct (Hall j p Hj Hle) as [?|[? ?]]; [by left|].
    right. by rewrite <- Hperm.
  - intros i Hi. apply Hheld. by rewrite Hperm.
Qed.

Lemma PoolRun_start (r0 : Run) : PoolRun svc r0 [] r0.
Proof.
  assert (Hdone : completedSlices (length (batches (st r0))) (st r0) = []).
  { unfold completedSlices, shapes.
    by rewrite drop_ge by (by rewrite length_fmap). }
  unfold PoolRun. rewrite Hdone. split_and!; try done.
  - apply NoDup_nil_2.
  - intros j p Hj Hle. apply lookup_lt_Some in Hj.
    unfold shapes in Hj. rewrite length_fmap in Hj. lia.
  - intros i Hi. by apply elem_of_nil in Hi.
  - simpl. lia.
  - exists []. split; [apply bulkLog_refl|]. simpl. split; [done|lia].
Qed.

(** Claiming: a pending batch is pushed and handed to a worker. *)
Lemma PoolRun_claim (r0 r r' : Run) (hs : list nat) (b : SyncBatch) :
  (length (batches (st r0)) ≤ length (batches (st r)))%nat →
  log r' = log r →
  st r' = set_batches (λ bs, bs ++ [b]) (st r) →
  status b = BatchPending →
  PoolRun svc r0 hs r →
  PoolRun svc r0 (length (batches (st r)) :: hs) r'.
Proof.
  intros Hlen Hlog Hst Hpending
    (Hnodup & Hall & Hheld & Hbounds & Htotal & Hgrows & Hcount & Hsettled
     & new & Hbulk & Hrest).
  assert (Hshapes : shapes (st r') = shapes (st r) ++ [(BatchPending, files b)]).
  { rewrite Hst. unfold shapes. simpl. by rewrite fmap_app, <- Hpending. }
  assert (Hlen' : length (shapes (st r)) = length (batches (st r))).
  { unfold shapes. by rewrite length_fmap. }
  assert (Hdone : completedSlices (length (batches (st r0))) (st r')
                  = completedSlices (length (batches (st r0))) (st r)).
  { unfold completedSlices. rewrite Hshapes, drop_app_le by lia.
    rewrite filter_app, filter_cons, filter_nil. simpl.
    by rewrite app_nil_r. }
  unfold PoolRun. rewrite Hdone. split_and!.
  - apply NoDup_cons. split; [|done]. intros Hin.
    destruct (Hheld _ Hin) as (_ & fs & Hfs). apply lookup_lt_Some in Hfs. lia.
  - intros j p Hj Hle. rewrite Hshapes in Hj.
    apply lookup_app_Some in Hj as [Hj | [Hge Hj]].
    + destruct (Hall j p Hj Hle) as [?|[? ?]]; [by left|].
      right. split; [done|]. by apply elem_of_cons; right.
    + rewrite Hlen' in *. apply list_lookup_singleton_Some in Hj as [Hj <-].
      right. split; [done|]. apply elem_of_cons. left. lia.
  - intros i Hi. apply elem_of_cons in Hi as [-> | Hi].
    + split; [done|]. exists (files b). rewrite Hshapes, <- Hlen'.
      by rewrite list_lookup_middle.
    + destruct (Hheld i Hi) as (Hle & fs & Hfs). split; [done|].
      exists fs. rewrite Hshapes. by apply lookup_app_l_Some.
  - by rewrite Hst.
  - by rewrite Hst.
  - by rewrite Hst.
  - by rewrite Hst.
  - by rewrite Hst.
  - exists new. split; [|by rewrite Hst].
    destruct Hbulk as (H1 & H2 & H3 & H4 & H5).
    split_and!; try done; [congruence|]. by rewrite Hst.
Qed.


Lemma attempted_dates (started ended : Z) (new : list Event) :
  attempted ([EvDateNow started] ++ new ++ [EvDateNow ended]) = attempted new.
Proof. rewrite !attempted_app. simpl. by rewrite app_nil_r. Qed.

Lemma processBatch_run (i : nat) (r : Run) :
  wp (processBatch w svc i) r (λ res r',
    ∃ duration new,
      res = Ok duration
      ∧ bulkLog (options (st r)) svc r r' new
      ∧ attempted new
        = filter (λ file, isSyncFile (options (st r)) (path file) = false)
            (batchFiles (st r) i)
      ∧ options (st r') = options (st r)
      ∧ shapes (st r') = alter complete i (shapes (st r))
      ∧ 2 * processedFiles (progress (st r'))
        + Z.of_nat (length (fileReports new))
        = 2 * processedFiles (progress (st r))
          + 2 * Z.of_nat (length (batchFiles (st r) i))
      ∧ sameTuning r r').
Proof.
  eapply wp_wand; [apply (wp_and _ _ _ _ (processBatch_spec w svc i r)
                            (processBatch_trace w svc i r))|].
  intros res r' [(started & ended & new1 & -> & Hlog & Hatt & Hopt & Hbs)
                   (new & Hbulk & Hcount & Htune)].
  exists (ended - started), new. split_and!; try done.
  - destruct Hbulk as [Hlog' _]. rewrite Hlog in Hlog'.
    apply app_inv_head in Hlog'. subst new. by rewrite attempted_dates.
  - rewrite (shapes_of_erased _ (set_batches (λ _, alter (finished started ended) i
                                                (batches (st r))) (st r))) by done.
    unfold shapes. simpl. apply shapes_alter_finished.
Qed.

Lemma afterBatch_run (duration : Z) (n : nat) (r : Run) :
  wp (afterBatch duration n) r (λ res r',
    res = Ok tt ∧ log r' = log r
    ∧ options (st r') = options (st r)
    ∧ batches (st r') = batches (st r)
    ∧ embeddingWarningShown (st r') = embeddingWarningShown (st r)
    ∧ totalFiles (progress (st r')) = totalFiles (progress (st r))
    ∧ processedFiles (progress (st r')) = processedFiles (progress (st r))
    ∧ completedBatchCount (st r') = completedBatchCount (st r) + 1
    ∧ adaptiveBatchSize (st r')
      = nextBatchSize (throttling (options (st r))) (adaptiveBatchSize (st r))
          duration n
    ∧ batchCountersSettled (st r')).
Proof.
  unfold afterBatch. cbv [mbind Sync_bind]. by repeat wp_step.
Qed.

Lemma batchFiles_shape (s : State) (i : nat) (p : BatchStatus * list TFile) :
  shapes s !! i = Some p → batchFiles s i = p.2.
Proof.
  unfold shapes, batchFiles. rewrite list_lookup_fmap.
  destruct (batches s !! i); simpl; [|done]. by intros [= <-].
Qed.

Lemma PoolInv_length o base allFiles r c :
  PoolInv o base allFiles r c → (length base ≤ length (batches (st r)))%nat.
Proof.
  intros (_ & _ & slices & Hbs & _).
  apply (f_equal length) in Hbs. rewrite length_fmap, length_app in Hbs. lia.
Qed.

(** A batch went through [processBatch] and the bookkeeping after it. *)
Lemma PoolRun_finish (r0 r r1 r2 : Run) (hs : list nat) (i : nat)
    (duration : Z) (new1 : list Event) :
  options (st r) = options (st r0) →
  PoolRun svc r0 (i :: hs) r →
  bulkLog (options (st r)) svc r r1 new1 →
  attempted new1
  = filter (λ file, isSyncFile (options (st r)) (path file) = false)
      (batchFiles (st r) i) →
  options (st r1) = options (st r) →
  shapes (st r1) = alter complete i (shapes (st r)) →
  2 * processedFiles (progress (st r1)) + Z.of_nat (length (fileReports new1))
  = 2 * processedFiles (progress (st r))
    + 2 * Z.of_nat (length (batchFiles (st r) i)) →
  sameTuning r r1 →
  log r2 = log r1 →
  batches (st r2) = batches (st r1) →
  embeddingWarningShown (st r2) = embeddingWarningShown (st r1) →
  totalFiles (progress (st r2)) = totalFiles (progress (st r1)) →
  processedFiles (progress (st r2)) = processedFiles (progress (st r1)) →
  completedBatchCount (st r2) = completedBatchCount (st r1) + 1 →
  adaptiveBatchSize (st r2)
  = nextBatchSize (throttling (options (st r1))) (adaptiveBatchSize (st r1))
      duration (length (batchFiles (st r1) i)) →
  batchCountersSettled (st r2) →
  PoolRun svc r0 hs r2.
Proof.
  intros Ho (Hnodup & Hall & Hheld & Hbounds & Htotal & Hgrows & Hcount & _
             & new & Hbulk & Hatt & Hprocessed)
    Hbulk1 Hatt1 Ho1 Hshapes1 Hprocessed1 (Hadapt1 & Hcount1 & Htotal1 & Hgrows1)
    Hlog2 Hbs2 Hshown2 Htotal2 Hprocessed2 Hcount2 Hadapt2 Hsettled2.
  apply NoDup_cons in Hnodup as [Hi Hnodup].
  destruct (Hheld i) as (Hle & fs & Hfs); [by apply elem_of_cons; left|].
  assert (Hshapes2 : shapes (st r2) = alter complete i (shapes (st r))).
  { unfold shapes at 1. rewrite Hbs2. exact Hshapes1. }
  destruct (completedSlices_alter (length (batches (st r0))) i (st r) (st r2) fs
              Hshapes2 Hfs Hle) as (A & B & Hdone & Hdone2).
  rewrite (batchFiles_shape _ _ _ Hfs) in *. simpl in *.
  unfold PoolRun. rewrite Hdone2. rewrite Hdone in Hcount, Hatt, Hprocessed.
  split_and!.
  - done.
  - intros j p Hj Hlej. rewrite Hshapes2 in Hj.
    destruct (decide (i = j)) as [<-|Hne].
    + rewrite list_lookup_alter_eq, Hfs in Hj. injection Hj as <-. by left.
    + rewrite list_lookup_alter_ne in Hj by done.
      destruct (Hall j p Hj Hlej) as [?|[? Hin]]; [by left|].
      right. split; [done|]. apply elem_of_cons in Hin as [->|Hin]; done.
  - intros k Hk. destruct (Hheld k) as (Hlek & fs' & Hfs');
      [by apply elem_of_cons; right|].
    split; [done|]. exists fs'. rewrite Hshapes2.
    rewrite list_lookup_alter_ne; [done|]. by intros ->.
  - intros Hstart. specialize (Hbounds Hstart).
    rewrite Hadapt2, Hadapt1, Ho1, Ho. destruct Hbounds as [Hone Hin].
    split; [done|]. by apply nextBatchSize_bounds.
  - congruence.
  - lia.
  - rewrite Hcount2, Hcount1, Hcount, !length_app. simpl. lia.
  - done.
  - exists (new ++ new1). split_and!.
    + eapply bulkLog_trans; [exact Hbulk|]. rewrite <- Ho.
      destruct Hbulk1 as (H1 & H2 & H3 & H4 & H5).
      split_and!; try done; [congruence|]. by rewrite Hshown2.
    + rewrite attempted_app, Hatt, Hatt1, Ho.
      rewrite !concat_app, !filter_app. simpl. rewrite filter_app.
      rewrite <- !app_assoc. f_equiv. apply Permutation_app_comm.
    + rewrite fileReports_app, !concat_app, !length_app in *. simpl.
      rewrite length_app. lia.
Qed.

End PoolRuns.

Section PoolSteps.

Import InitialSyncManager.
Context (w : World) (svc : Services).
Context (r0 : Run) (allFiles : list TFile).

Lemma Inv_length (r : Run) (c : Cursor) :
  (PoolInv (options (st r0)) (files <$> batches (st r0)) allFiles) r c → (length (batches (st r0)) ≤ length (batches (st r)))%nat.
Proof.
  intros H. apply PoolInv_length in H. by rewrite length_fmap in H.
Qed.

Lemma getNextBatch_run (hs : list nat) (r : Run) (c : Cursor) :
  (PoolInv (options (st r0)) (files <$> batches (st r0)) allFiles) r c →
  PoolRun svc r0 hs r →
  wp (getNextBatch allFiles c) r (λ res r',
    ∃ got c', res = Ok (got, c')
              ∧ PoolRun svc r0 (from_option (λ i, [i]) [] got ++ hs) r').
Proof.
  intros Hinv Hrun. unfold getNextBatch. cbv [mbind Sync_bind].
  wp_step. wp_step. case_decide as Hdone; repeat wp_step.
  - exists None, c. split; [done|]. simpl. by destruct r.
  - eexists (Some _), _. split; [done|]. simpl.
    eapply (PoolRun_claim svc r0 r); [by eapply Inv_length|done|done|done|done].
Qed.

Lemma claimNext_run (hs : list nat) (r : Run) (c : Cursor) :
  (PoolInv (options (st r0)) (files <$> batches (st r0)) allFiles) r c →
  PoolRun svc r0 hs r →
  wp (claimNext allFiles c) r (λ res r',
    ∃ next c', res = Ok (next, c')
               ∧ PoolRun svc r0 (from_option heldBy [] next ++ hs) r').
Proof.
  intros Hinv Hrun. unfold claimNext. cbv [mbind Sync_bind]. wp_step.
  eapply wp_wand; [by apply getNextBatch_run|].
  intros res r' (got & c' & -> & Hrun'). wp_step.
  exists (Processing <$> got), c'. split; [done|]. by destruct got.
Qed.

Lemma workerStep_run (wk : Worker) (hs : list nat) (r : Run) (c : Cursor) :
  (PoolInv (options (st r0)) (files <$> batches (st r0)) allFiles) r c →
  PoolRun svc r0 (heldBy wk ++ hs) r →
  wp (workerStep w svc allFiles wk c) r (λ res r',
    ∃ next c', res = Ok (next, c')
               ∧ PoolRun svc r0 (from_option heldBy [] next ++ hs) r').
Proof.
  intros Hinv Hrun. pose proof Hinv as (Ho & _).
  destruct wk as [i|]; simpl in *; [|by apply claimNext_run].
  cbv [mbind Sync_bind]. wp_step. wp_step.
  eapply wp_wand; [apply (wp_and _ _ _ _ (processBatch_spec w svc i r)
                            (processBatch_run w svc i r))|].
  intros res [l1 s1]
    [(started & ended & new0 & _ & _ & _ & _ & Hbs)
     (duration & new & -> & Hbulk & Hatt & Hopt & Hshapes & Hcount & Htune)].
  simpl in Hopt, Hbs. wp_simpl. wp_step. wp_step. wp_step.
  eapply wp_wand; [apply (afterBatch_run)|].
  intros res [l2 s2] (-> & Hlog2 & Hopt2 & Hbs2 & Hshown2 & Htotal2 & Hproc2
                      & Hcount2 & Hadapt2 & Hsettled2).
  simpl in Hlog2, Hopt2, Hbs2, Hshown2, Htotal2, Hproc2, Hcount2, Hadapt2,
    Hsettled2.
  wp_simpl.
  assert (Hinv2 : (PoolInv (options (st r0)) (files <$> batches (st r0)) allFiles) {| log := l2; st := s2 |} c).
  { apply (PoolInv_frame _ _ _ r); simpl; [congruence| |done].
    rewrite Hbs2. apply files_of_erased in Hbs. rewrite Hbs.
    by apply files_alter. }
  assert (Hrun2 : PoolRun svc r0 hs {| log := l2; st := s2 |}).
  { by eapply (PoolRun_finish svc r0 r {| log := l1; st := s1 |} _ hs i
                 duration new). }
  destruct (0 <? throttleDelayMs (throttling (options s1))) eqn:Hdelay.
  - repeat wp_step. exists (Some Throttled), c. split; [done|]. simpl.
    destruct Hrun2 as (H1 & H2 & H3 & H4 & H5 & H6 & H8 & H9 & new2 & Hbulk2 & H7).
    split_and!; try done. exists (new2 ++ [EvSetTimeout
      (throttleDelayMs (throttling (options s1)))]).
    split; [|by rewrite attempted_app, fileReports_app, !app_nil_r].
    eapply bulkLog_trans; [exact Hbulk2|].
    apply bulkLog_quiet; [done| |done|done].
    apply Forall_singleton. simpl. lia.
  - eapply wp_wand; [exact (claimNext_run hs _ c Hinv2 Hrun2)|].
    intros res r' (next & c' & -> & Hrun'). by exists next, c'.
Qed.

Lemma startWorkers_run (n : nat) :
  ∀ (hs : list nat) (r : Run) (c : Cursor),
    (PoolInv (options (st r0)) (files <$> batches (st r0)) allFiles) r c →
    PoolRun svc r0 hs r →
    wp (startWorkers n allFiles c) r (λ res r',
      ∃ workers c', res = Ok (workers, c')
                    ∧ PoolRun svc r0 (held workers ++ hs) r').
Proof.
  induction n as [|n IH]; intros hs r c Hinv Hrun; simpl.
  - wp_step. by exists [], c.
  - cbv [mbind Sync_bind]. wp_step.
    eapply wp_wand; [apply (wp_and _ _ _ _
                              (getNextBatch_spec _ _ _ r c Hinv)
                              (getNextBatch_run hs r c Hinv Hrun))|].
    intros res r' [(got & c' & -> & Hinv' & _)
                     (got' & c'' & [= <- <-] & Hrun')]. wp_simpl.
    destruct got as [i|]; wp_simpl.
    + wp_step.
      eapply wp_wand; [by apply (IH (i :: hs))|].
      intros res r'' (workers & c'' & -> & Hrun''). wp_step.
      exists (Processing i :: workers), c''. split; [done|].
      eapply PoolRun_perm; [|exact Hrun''].
      rewrite held_cons. simpl. by rewrite Permutation_middle.
    + wp_step. by exists [], c'.
Qed.

Lemma runWorkers_run (schedule : nat → nat) (fuel : nat) :
  ∀ (workers : list Worker) (r : Run) (c : Cursor),
    (PoolInv (options (st r0)) (files <$> batches (st r0)) allFiles) r c →
    (poolMeasure (length allFiles) workers c ≤ fuel)%nat →
    (workers = [] → (length allFiles ≤ nextIndex c)%nat) →
    PoolRun svc r0 (held workers) r →
    wp (runWorkers w svc fuel schedule allFiles workers c) r (λ res r',
      ∃ c', res = Ok ([], c')
            ∧ (PoolInv (options (st r0)) (files <$> batches (st r0)) allFiles) r' c'
            ∧ nextIndex c' = length allFiles
            ∧ PoolRun svc r0 [] r').
Proof.
  induction fuel as [|fuel IH]; intros workers r c Hinv Hfuel Hempty Hrun;
    pose proof Hinv as (_ & Hidx & _); unfold poolMeasure in Hfuel; simpl.
  - wp_step. destruct workers as [|wk workers].
    + exists c. split_and!; [done..| |done]. specialize (Hempty eq_refl). lia.
    + simpl in Hfuel. destruct wk; simpl in Hfuel; lia.
  - destruct (workers !! (schedule fuel `mod` length workers)%nat)
      as [wk|] eqn:Hk.
    + cbv [mbind Sync_bind]. wp_step.
      apply (PoolRun_perm svc _ _ _ _ (held_lookup _ _ _ Hk)) in Hrun.
      eapply wp_wand; [apply (wp_and _ _ _ _
                                (workerStep_spec w svc _ _ _ wk r c Hinv)
                                (workerStep_run wk _ r c Hinv Hrun))|].
      intros res r' [(next & c' & -> & Hinv' & Hless & Hnone)
                       (next' & c'' & [= <- <-] & Hrun')]. wp_simpl.
      apply IH; [done| | |].
      * unfold poolMeasure. destruct next as [wk'|]; simpl in Hless |- *.
        -- pose proof (measure_insert workers _ wk wk' Hk). lia.
        -- pose proof (measure_delete workers _ wk Hk). lia.
      * destruct next as [wk'|]; [|by intros _; apply Hnone].
        intros Hnil. apply (f_equal length) in Hnil.
        rewrite length_insert in Hnil. apply lookup_lt_Some in Hk.
        simpl in Hnil. lia.
      * destruct next as [wk'|]; simpl in Hrun'.
        -- eapply PoolRun_perm; [|exact Hrun']. symmetry.
           by eapply held_insert.
        -- done.
    + wp_step. destruct workers as [|wk workers].
      * exists c. split_and!; [done..| |done]. specialize (Hempty eq_refl). lia.
      * apply lookup_ge_None in Hk.
        pose proof (Nat.mod_upper_bound (schedule fuel)
                      (length (wk :: workers)) ltac:(done)). lia.
Qed.



(** Any number of turns, enough to finish or not. *)
Lemma runWorkers_turns (schedule : nat → nat) (turns : nat) :
  ∀ (workers : list Worker) (r : Run) (c : Cursor) (bound : nat),
    (PoolInv (options (st r0)) (files <$> batches (st r0)) allFiles) r c →
    (poolMeasure (length allFiles) workers c ≤ bound)%nat →
    (workers = [] → (length allFiles ≤ nextIndex c)%nat) →
    PoolRun svc r0 (held workers) r →
    wp (runWorkers w svc turns schedule allFiles workers c) r (λ res r',
      ∃ workers' c',
        res = Ok (workers', c')
        ∧ (PoolInv (options (st r0)) (files <$> batches (st r0)) allFiles) r' c'
        ∧ (poolMeasure (length allFiles) workers' c' ≤ bound)%nat
        ∧ (workers' = [] → (length allFiles ≤ nextIndex c')%nat)
        ∧ PoolRun svc r0 (held workers') r').
Proof.
  induction turns as [|turns IH]; intros workers r c bound Hinv Hbound Hempty Hrun;
    simpl.
  - wp_step. by exists workers, c.
  - destruct (workers !! (schedule turns `mod` length workers)%nat)
      as [wk|] eqn:Hk.
    + cbv [mbind Sync_bind]. wp_step.
      apply (PoolRun_perm svc _ _ _ _ (held_lookup _ _ _ Hk)) in Hrun.
      eapply wp_wand; [apply (wp_and _ _ _ _
                                (workerStep_spec w svc _ _ _ wk r c Hinv)
                                (workerStep_run wk _ r c Hinv Hrun))|].
      intros res r' [(next & c' & -> & Hinv' & Hless & Hnone)
                       (next' & c'' & [= <- <-] & Hrun')]. wp_simpl.
      apply IH; [done| | |].
      * unfold poolMeasure in *. destruct next as [wk'|]; simpl in Hless |- *.
        -- pose proof (measure_insert workers _ wk wk' Hk). lia.
        -- pose proof (measure_delete workers _ wk Hk). lia.
      * destruct next as [wk'|]; [|by intros _; apply Hnone].
        intros Hnil. apply (f_equal length) in Hnil.
        rewrite length_insert in Hnil. apply lookup_lt_Some in Hk.
        simpl in Hnil. lia.
      * destruct next as [wk'|]; simpl in Hrun'.
        -- eapply PoolRun_perm; [|exact Hrun']. symmetry.
           by eapply held_insert.
        -- done.
    + wp_step. by exists workers, c.
Qed.

End PoolSteps.

Section PoolEnd.

Import InitialSyncManager.
Context (w : World) (svc : Services).

Lemma filter_Forall_id {A} (P : A → Prop) `{!∀ x, Decision (P x)} (l : list A) :
  Forall P l → filter P l = l.
Proof.
  induction 1 as [|x l Hx _ IH]; [done|].
  by rewrite filter_cons, decide_True, IH.
Qed.

(** When no worker holds a batch and every file is claimed. *)
Lemma pool_end (r0 r : Run) (allFiles : list TFile) (c : Cursor) :
  PoolInv (options (st r0)) (files <$> batches (st r0)) allFiles r c →
  nextIndex c = length allFiles →
  PoolRun svc r0 [] r →
  let n0 := length (batches (st r0)) in
  Forall (λ b, status b = BatchCompleted) (drop n0 (batches (st r)))
  ∧ completedSlices n0 (st r) = files <$> drop n0 (batches (st r))
  ∧ concat (completedSlices n0 (st r)) = allFiles
  ∧ take n0 (files <$> batches (st r)) = files <$> batches (st r0).
Proof.
  intros (_ & _ & slices & Hbs & Hcat & _) Hall (_ & Hshape & _) n0.
  assert (Hdone : Forall (λ p : BatchStatus * list TFile, p.1 = BatchCompleted)
                    (drop n0 (shapes (st r)))).
  { apply Forall_lookup. intros j p Hj. rewrite lookup_drop in Hj.
    destruct (Hshape _ p Hj) as [?|[_ Hin]]; [lia|done|].
    by apply elem_of_nil in Hin. }
  assert (Hslices : completedSlices n0 (st r) = files <$> drop n0 (batches (st r))).
  { unfold completedSlices. rewrite filter_Forall_id by done.
    unfold shapes. by rewrite <- fmap_drop, <- list_fmap_compose. }
  split_and!.
  - unfold shapes in Hdone. rewrite <- fmap_drop in Hdone.
    by apply Forall_fmap in Hdone.
  - done.
  - rewrite Hslices, fmap_drop, Hbs.
    replace n0 with (length (files <$> batches (st r0)))
      by (by rewrite length_fmap).
    by rewrite drop_app_length, Hcat, Hall, take_ge.
  - rewrite Hbs.
    replace n0 with (length (files <$> batches (st r0)))
      by (by rewrite length_fmap).
    by rewrite take_app_length.
Qed.

Lemma PoolInv_start (r : Run) (allFiles : list TFile) :
  PoolInv (options (st r)) (files <$> batches (st r)) allFiles r
    {| nextIndex := 0; batchCounter := 0 |}.
Proof.
  split_and!; [done | simpl; lia |]. exists []. simpl.
  rewrite app_nil_r. split_and!; by try constructor.
Qed.

Lemma runPool_run (schedule : nat → nat) (allFiles : list TFile) (r : Run) :
  wp (runPool w svc schedule allFiles) r (λ res r',
    ∃ c', res = Ok ([], c')
          ∧ PoolInv (options (st r)) (files <$> batches (st r)) allFiles r' c'
          ∧ nextIndex c' = length allFiles
          ∧ PoolRun svc r [] r').
Proof.
  unfold runPool. cbv [mbind Sync_bind]. wp_step. wp_step. wp_step.
  pose proof (PoolInv_start r allFiles) as Hinv.
  eapply wp_wand; [apply (wp_and _ _ _ _
                            (startWorkers_spec _ _ _ _ r _ Hinv)
                            (startWorkers_run svc r allFiles _ [] r _ Hinv
                               (PoolRun_start svc r)))|].
  intros res r' [(workers & c' & -> & Hinv' & Hmeasure & Hempty)
                   (workers' & c'' & [= <- <-] & Hrun')]. wp_simpl.
  rewrite app_nil_r in Hrun'.
  apply (runWorkers_run w svc r allFiles); [done| simpl in *; lia | |done].
  apply Hempty. unfold concurrencyOf. lia.
Qed.


Lemma wp_invoke_exact {A} ev (answer : list Event → Result JsError A) r Q :
  Q (answer (log r)) {| log := log r ++ [ev]; st := st r |} →
  wp (invoke ev answer) r Q.
Proof. done. Qed.

Lemma sort_nil_iff (o : InitialSyncOptions) (fs : list TFile) :
  sortFilesByPriority o fs = [] ↔ length fs = 0%nat.
Proof.
  rewrite <- (Permutation_length (sortFilesByPriority_perm o fs)).
  by destruct (sortFilesByPriority o fs).
Qed.

Lemma startSync_run (schedule : nat → nat) (r : Run) :
  let o := options (st r) in
  let pre := if supabaseService svc then [EvGetFileCount] else [] in
  let count := if supabaseService svc then getFileCount w (log r) else Ok 0%N in
  let todo :=
    sortFilesByPriority o (filesToSync o (getMarkdownFiles w (log r ++ pre))) in
  let stopped log' := {| log := log'; st := set_isRunning false (st r) |} in
  wp (startSync w svc schedule) r (λ res r',
    match count with
    | Err e => res = Err e ∧ r' = stopped (log r ++ pre)
    | Ok n =>
        res = Ok tt
        ∧ if bool_decide (0 < n)%N then r' = stopped (log r ++ pre)
          else if bool_decide (todo = []) then
            r' = stopped (log r ++ pre ++ [EvGetMarkdownFiles])
          else
            ∃ started c r1,
              let r0 :=
                {| log := log r ++ pre ++ [EvGetMarkdownFiles; EvDateNow started];
                   st := resetForRun (Z.of_nat (length todo)) started
                           (set_isRunning true (st r)) |} in
              log r' = log r1
              ∧ st r' = set_isRunning false (st r1)
              ∧ PoolInv o [] todo r1 c
              ∧ nextIndex c = length todo
              ∧ PoolRun svc r0 [] r1
    end).
Proof.
  intros o pre count todo stopped. subst pre count todo stopped.
  unfold startSync, alreadySynced.
  cbv [mbind Sync_bind].
  lazymatch goal with
  | |- context [bind (invoke EvGetMarkdownFiles ?a) ?k] =>
      set (body := bind (invoke EvGetMarkdownFiles a) k)
  end.
  assert (Hbody : ∀ l,
    wp body {| log := log r ++ l; st := set_isRunning true (st r) |}
      (λ res r1,
         res = Ok tt
         ∧ let todo := sortFilesByPriority o
                         (filesToSync o (getMarkdownFiles w (log r ++ l))) in
           if bool_decide (todo = []) then
             r1 = {| log := log r ++ l ++ [EvGetMarkdownFiles];
                     st := set_isRunning true (st r) |}
           else
             ∃ started c,
               let r0 :=
                 {| log := log r ++ l ++ [EvGetMarkdownFiles; EvDateNow started];
                    st := resetForRun (Z.of_nat (length todo)) started
                            (set_isRunning true (st r)) |} in
               PoolInv o [] todo r1 c
               ∧ nextIndex c = length todo
               ∧ PoolRun svc r0 [] r1)).
  { intros l. subst body. apply wp_bind, wp_invoke_exact. wp_simpl.
    wp_step. wp_step.
    change (options (set_isRunning true (st r))) with o.
    fold (filesToSync o (getMarkdownFiles w (log r ++ l))).
    set (fs := filesToSync o (getMarkdownFiles w (log r ++ l))).
    case_bool_decide as Hempty.
    - wp_step. split; [done|]. simpl.
      rewrite bool_decide_eq_true_2 by (by apply sort_nil_iff).
      by rewrite <- app_assoc.
    - wp_step. wp_step. wp_step. wp_step.
      assert (Hne : sortFilesByPriority o fs ≠ []) by (by rewrite sort_nil_iff).
      remember (sortFilesByPriority o fs) as todo' eqn:Htodo'.
      unfold processFilesAdaptive.
      destruct todo' as [|file rest] eqn:Htodo; [done|].
      rewrite <- Htodo in *. cbv [mbind Sync_bind]. wp_step.
      set (r0 := {| log := log r ++ l ++ [EvGetMarkdownFiles; EvDateNow t];
                    st := resetForRun (Z.of_nat (length todo')) t
                            (set_isRunning true (st r)) |}).
      replace ({| log := ((log r ++ l) ++ [EvGetMarkdownFiles]) ++ [EvDateNow t];
                  st := resetForRun (Z.of_nat (length todo')) t
                          (set_isRunning true (st r)) |}) with r0
        by (subst r0; by rewrite <- !app_assoc).
      eapply wp_wand; [apply runPool_run|].
      intros res r1 (c & -> & Hinv & Hall & Hrun). wp_simpl.
      wp_step. split; [done|]. simpl.
      rewrite bool_decide_eq_false_2 by done.
      exists t, c. split_and!; [exact Hinv | exact Hall | exact Hrun]. }
  clearbody body.
  destruct (supabaseService svc) eqn:Hsvc.
  - wp_step. wp_step. wp_step. wp_step. wp_step. wp_step.
    apply wp_invoke_exact. wp_simpl.
    destruct (getFileCount w (log r)) as [n|e]; wp_simpl.
    + wp_step. case_bool_decide as Hn; wp_simpl.
      * repeat wp_step. split; [done|reflexivity].
      * eapply wp_wand; [exact (Hbody [EvGetFileCount])|].
        intros res r1 (-> & H). wp_simpl. wp_step. split; [done|].
        simpl in H. destruct (bool_decide _).
        -- rewrite H. reflexivity.
        -- destruct H as (started & c & H). by exists started, c, r1.
    + repeat wp_step. split; [done|reflexivity].
  - wp_step. wp_step. wp_step. wp_step. wp_step. wp_step. cbv beta iota.
    pose proof (Hbody []) as H0. rewrite app_nil_r in H0.
    eapply wp_wand; [exact H0|].
    intros res r1 (-> & H). wp_simpl. wp_step. split; [done|].
    simpl in H. rewrite !app_nil_r. simpl. destruct (bool_decide _).
    + rewrite H. reflexivity.
    + destruct H as (started & c & H). by exists started, c, r1.
Qed.

End PoolEnd.

(** ** startSync *)

Section StartSync.

Import InitialSyncManager.
Context (w : World) (svc : Services).

Lemma filesToSync_no_sync_file (o : InitialSyncOptions) (fs : list TFile) :
  Forall (λ file, isSyncFile o (path file) = false) (filesToSync o fs).
Proof.
  apply Forall_forall. intros file Hin.
  unfold filesToSync, filterExcludedFiles in Hin.
  apply list_elem_of_filter in Hin as [_ Hin].
  apply list_elem_of_filter in Hin as [Hkept _].
  unfold keptByFilter in Hkept. by destruct (isSyncFile o (path file)).
Qed.

(** The run of [startSync] when the store is empty or absent and there
    are files to synchronise. *)
Lemma startSync_main (schedule : nat → nat) (r : Run) :
  let o := options (st r) in
  let todo := sortFilesByPriority o (vaultFilesToSync w svc r) in
  (supabaseService svc = true → getFileCount w (log r) = Ok 0%N) →
  vaultFilesToSync w svc r ≠ [] →
  ∃ started c r1 r',
    let r0 :=
      {| log := log r ++ countCalls svc ++ [EvGetMarkdownFiles; EvDateNow started];
         st := resetForRun (Z.of_nat (length todo)) started
                 (set_isRunning true (st r)) |} in
    startSync w svc schedule r = (Ok tt, r')
    ∧ log r' = log r1
    ∧ st r' = set_isRunning false (st r1)
    ∧ PoolInv o [] todo r1 c
    ∧ nextIndex c = length todo
    ∧ PoolRun svc r0 [] r1.
Proof.
  intros o todo Hcount Hfiles.
  pose proof (startSync_run w svc schedule r) as Hrun.
  unfold wp in Hrun. cbv zeta in Hrun.
  destruct (startSync w svc schedule r) as [res r'].
  fold o (countCalls svc) in Hrun. fold (vaultFilesToSync w svc r) in Hrun.
  fold todo in Hrun. simpl in Hrun.
  assert (Htodo : todo ≠ []).
  { unfold todo. rewrite sort_nil_iff. by destruct (vaultFilesToSync w svc r). }
  destruct (supabaseService svc) eqn:Hsvc.
  - rewrite Hcount in Hrun by done. destruct Hrun as [-> Hrun].
    rewrite bool_decide_eq_false_2 in Hrun by lia.
    rewrite bool_decide_eq_false_2 in Hrun by done.
    destruct Hrun as (started & c & r1 & Hrun). by exists started, c, r1, r'.
  - destruct Hrun as [-> Hrun].
    rewrite bool_decide_eq_false_2 in Hrun by lia.
    rewrite bool_decide_eq_false_2 in Hrun by done.
    destruct Hrun as (started & c & r1 & Hrun). by exists started, c, r1, r'.
Qed.


(** What [startSync_main] gives, read at the end of the pool. *)
Lemma startSync_summary (schedule : nat → nat) (r : Run) :
  let o := options (st r) in
  let found := vaultFilesToSync w svc r in
  let todo := sortFilesByPriority o found in
  (supabaseService svc = true → getFileCount w (log r) = Ok 0%N) →
  found ≠ [] →
  ∃ started new r',
    startSync w svc schedule r = (Ok tt, r')
    ∧ newEvents r r'
      = countCalls svc ++ [EvGetMarkdownFiles; EvDateNow started] ++ new
    ∧ attempted new ≡ₚ found
    ∧ Forall (bulkEvent o svc) new
    ∧ (length (warnings new) ≤ 1)%nat
    ∧ (embeddingWarningShown (st r) = true → warnings new = [])
    ∧ (embeddingWarningShown (st r) = true ∨ warnings new ≠ [] →
       embeddingWarningShown (st r') = true)
    ∧ concat (files <$> batches (st r')) = todo
    ∧ Forall (λ b, status b = BatchCompleted) (batches (st r'))
    ∧ Forall (λ b, (1 ≤ length (files b))%nat
                   ∧ Z.of_nat (length (files b))
                     ≤ Z.max 1 (maxBatchSize (throttling o)))
        (batches (st r'))
    ∧ totalFiles (progress (st r')) = Z.of_nat (length found)
    ∧ 2 * processedFiles (progress (st r'))
      + Z.of_nat (length (fileReports new))
      = 2 * Z.of_nat (length found)
    ∧ 0 ≤ processedFiles (progress (st r'))
    ∧ completedBatchCount (st r') = Z.of_nat (length (batches (st r')))
    ∧ batchCountersSettled (st r')
    ∧ (withinBounds (throttling o) (batchSize o) →
       withinBounds (throttling o) (adaptiveBatchSize (st r')))
    ∧ isRunning (st r') = false
    ∧ options (st r') = o.
Proof.
  intros o fs todo Hcount Hfiles.
  destruct (startSync_main schedule r Hcount Hfiles)
    as (started & c & r1 & r' & Hrun & Hlog & Hst & Hinv & Hall & Hpool).
  fold o fs todo in Hrun, Hlog, Hst, Hinv, Hall, Hpool.
  match type of Hpool with PoolRun _ ?x _ _ =>
    pose proof (pool_end svc x r1 todo c Hinv Hall Hpool) as Hend end.
  cbv zeta in Hend. cbn [st batches resetForRun length drop] in Hend.
  rewrite drop_0 in Hend. destruct Hend as (Hdone & Hslices & Hcat & _).
  destruct Hinv as (Ho & _ & slices & Hbs & _ & Hmin & Hmax).
  destruct Hpool as (_ & _ & _ & Hbounds & Htotal & Hgrows & Hcbc & Hsettled
                     & new & Hbulk & Hatt & Hprocessed).
  cbn [st batches resetForRun length drop options progress totalFiles
       processedFiles completedBatchCount adaptiveBatchSize set_isRunning]
    in Hbounds, Htotal, Hgrows, Hcbc, Hsettled, Hatt, Hprocessed, Hbulk.
  fold o in Hbounds, Hatt, Hbulk.
  rewrite Hslices in Hcat, Hcbc, Hsettled, Hatt, Hprocessed.
  rewrite Hcat in Hatt, Hprocessed.
  assert (Hlen : length todo = length fs)
    by apply Permutation_length, sortFilesByPriority_perm.
  destruct Hbulk as (Hlog1 & Hevents & Hone & Hnone & Hshown).
  cbn [log st embeddingWarningShown resetForRun set_isRunning] in Hlog1, Hnone, Hshown.
  exists started, new, r'. rewrite Hst. cbn [set_isRunning batches progress
    completedBatchCount adaptiveBatchSize isRunning options embeddingWarningShown].
  split_and!; try done.
  - apply newEvents_app. rewrite Hlog, Hlog1. by rewrite <- !app_assoc.
  - rewrite Hatt, filter_Forall_id.
    + apply sortFilesByPriority_perm.
    + unfold todo. rewrite (sortFilesByPriority_perm o fs).
      apply filesToSync_no_sync_file.
  - simpl in Hbs. rewrite <- Hbs in Hmin, Hmax.
    rewrite Forall_forall in Hmin. rewrite Forall_forall in Hmax.
    apply Forall_forall. intros b Hb.
    split; [apply Hmin | apply Hmax]; by apply list_elem_of_fmap_2.
  - by rewrite Htotal, Hlen.
  - rewrite Hlen in Hprocessed. lia.
  - rewrite Hcbc, length_fmap. lia.
  - apply Hsettled. intros Hnil. rewrite Hnil in Hcat. simpl in Hcat.
    apply Hfiles. symmetry in Hcat. apply sort_nil_iff in Hcat.
    by destruct fs.
Qed.

End StartSync.

Section StartSyncTheorems.

Import InitialSyncManager.
Context (w : World) (svc : Services).

Lemma countCalls_bulk (o : InitialSyncOptions) :
  Forall (bulkEvent o svc) (countCalls svc) ∧ warnings (countCalls svc) = [].
Proof.
  unfold countCalls. destruct (supabaseService svc) eqn:Hsvc; split; try done.
  by apply Forall_singleton.
Qed.

(** Whatever the branch, what [startSync] logs is a bulk log. *)
Lemma startSync_trace (schedule : nat → nat) (r : Run) :
  let out := startSync w svc schedule r in
  bulkLog (options (st r)) svc r out.2 (newEvents r out.2)
  ∧ isRunning (st out.2) = false
  ∧ options (st out.2) = options (st r)
  ∧ (∀ e, out.1 = Err e ↔
          supabaseService svc = true ∧ getFileCount w (log r) = Err e).
Proof.
  intros out. subst out.
  pose proof (startSync_run w svc schedule r) as Hrun.
  unfold wp in Hrun. cbv zeta in Hrun.
  destruct (startSync w svc schedule r) as [res r'].
  fold (countCalls svc) in Hrun. simpl in Hrun. simpl.
  set (o := options (st r)) in *.
  destruct (countCalls_bulk o) as [Hpre Hquiet].
  assert (Hstopped : ∀ l, Forall (bulkEvent o svc) l → warnings l = [] →
            bulkLog o svc r {| log := log r ++ l; st := set_isRunning false (st r) |}
              (newEvents r {| log := log r ++ l; st := set_isRunning false (st r) |})).
  { intros l Hl Hw. rewrite (newEvents_app r _ l) by done.
    by apply bulkLog_quiet. }
  assert (Hiff : ∀ (n : N) e, (Ok tt : Result JsError unit) = Err e ↔
              supabaseService svc = true ∧ (Ok n : Result JsError N) = Err e).
  { intros n e. split; [done|]. by intros [_ ?]. }
  destruct (supabaseService svc) eqn:Hsvc.
  - destruct (getFileCount w (log r)) as [n|e].
    + destruct Hrun as [-> Hrun]. case_bool_decide.
      { subst r'. split_and!; [by apply Hstopped|done|done|apply Hiff]. }
      case_bool_decide.
      { subst r'. split_and!; [|done|done|apply Hiff].
        apply Hstopped.
        - apply Forall_app. split; [done|]. by apply Forall_singleton.
        - by rewrite warnings_app, Hquiet. }
      destruct Hrun as (started & c & r1 & Hlog & Hst & Hinv & _ & Hpool).
      destruct Hpool as (_ & _ & _ & _ & _ & _ & _ & _ & new & Hbulk & _).
      destruct Hinv as [Ho _].
      split_and!; [|by rewrite Hst|by rewrite Hst|apply Hiff].
      destruct Hbulk as (Hlog1 & Hall & Hone & Hnone & Hshown).
      simpl in Hlog1, Hnone, Hshown.
      rewrite (newEvents_app r r'
                 ((countCalls svc ++ [EvGetMarkdownFiles; EvDateNow started]) ++ new))
        by (by rewrite Hlog, Hlog1, <- !app_assoc).
      split_and!.
      * by rewrite Hlog, Hlog1, <- !app_assoc.
      * apply Forall_app. split; [|done]. apply Forall_app. split; [done|].
        by repeat constructor.
      * by rewrite !warnings_app, Hquiet.
      * intros Hs. rewrite !warnings_app, Hquiet. simpl. by apply Hnone.
      * rewrite !warnings_app, Hquiet, Hst. simpl. exact Hshown.
    + destruct Hrun as [-> ->].
      split_and!; [by apply Hstopped|done|done|].
      intros e'. split; [by intros [= ->]|]. by intros [_ [= ->]].
  - destruct Hrun as [-> Hrun]. simpl in Hrun.
    assert (Hiff' : ∀ e, (Ok tt : Result JsError unit) = Err e ↔
               false = true ∧ getFileCount w (log r) = Err e).
    { intros e. split; [done|]. by intros [? _]. }
    case_bool_decide.
    { subst r'. split_and!; [|done|done|apply Hiff'].
      apply Hstopped.
      - apply Forall_app. split; [done|]. by apply Forall_singleton.
      - by rewrite warnings_app, Hquiet. }
    destruct Hrun as (started & c & r1 & Hlog & Hst & Hinv & _ & Hpool).
    destruct Hpool as (_ & _ & _ & _ & _ & _ & _ & _ & new & Hbulk & _).
    destruct Hinv as [Ho _].
    split_and!; [|by rewrite Hst|by rewrite Hst|apply Hiff'].
    destruct Hbulk as (Hlog1 & Hall & Hone & Hnone & Hshown).
    simpl in Hlog1, Hnone, Hshown.
    rewrite (newEvents_app r r'
               ((countCalls svc ++ [EvGetMarkdownFiles; EvDateNow started]) ++ new))
      by (by rewrite Hlog, Hlog1, <- !app_assoc).
    split_and!.
    * by rewrite Hlog, Hlog1, <- !app_assoc.
    * apply Forall_app. split; [|done]. apply Forall_app. split; [done|].
      by repeat constructor.
    * by rewrite !warnings_app, Hquiet.
    * intros Hs. rewrite !warnings_app, Hquiet. simpl. by apply Hnone.
    * rewrite !warnings_app, Hquiet, Hst. simpl. exact Hshown.
Qed.


Lemma startSync_empty (schedule : nat → nat) (r : Run) :
  (supabaseService svc = true → getFileCount w (log r) = Ok 0%N) →
  vaultFilesToSync w svc r = [] →
  startSync w svc schedule r
  = (Ok tt, {| log := log r ++ countCalls svc ++ [EvGetMarkdownFiles];
               st := set_isRunning false (st r) |}).
Proof.
  intros Hcount Hfiles.
  pose proof (startSync_run w svc schedule r) as Hrun.
  unfold wp in Hrun. cbv zeta in Hrun.
  destruct (startSync w svc schedule r) as [res r'].
  fold (countCalls svc) in Hrun. fold (vaultFilesToSync w svc r) in Hrun.
  rewrite Hfiles in Hrun. simpl in Hrun.
  destruct (supabaseService svc) eqn:Hsvc.
  - rewrite Hcount in Hrun by done. by destruct Hrun as [-> ->].
  - by destruct Hrun as [-> ->].
Qed.

(** X6. [startSync] always ends with [isRunning] false and the options it
    started with, and the only way it rejects is that a Supabase service
    is configured and its file count rejects: it then rejects with that
    same error. Failures of single files never make it reject. *)
Theorem startSync_rejects_only_when_count_fails
    (schedule : nat → nat) (r : Run) :
  let out := startSync w svc schedule r in
  isRunning (st out.2) = false
  ∧ options (st out.2) = options (st r)
  ∧ ∀ e, out.1 = Err e ↔
         supabaseService svc = true ∧ getFileCount w (log r) = Err e.
Proof. intros out. by destruct (startSync_trace schedule r) as (_ & ? & ? & ?). Qed.

Lemma bulk_no_sync_file_write (o : InitialSyncOptions) (l : list Event) :
  supabaseService svc = true → Forall (bulkEvent o svc) l → syncFileWrites l = [].
Proof.
  intros Hsvc. unfold syncFileWrites.
  induction 1 as [|ev l Hev _ IH]; [done|].
  rewrite filter_cons, IH. destruct ev; simpl in *; try done.
  destruct Hev as [? _]. congruence.
Qed.

Lemma bulk_enqueued (o : InitialSyncOptions) (l : list Event) (task : ProcessingTask) :
  Forall (bulkEvent o svc) l → task ∈ enqueued l → bulkEvent o svc (EvAddTask task).
Proof.
  intros Hall Hin. unfold enqueued in Hin.
  apply list_elem_of_omap in Hin as (ev & Hev & Htask).
  rewrite Forall_forall in Hall. specialize (Hall ev Hev).
  destruct ev; try done. by injection Htask as <-.
Qed.

(** X10. Whatever the collaborators answer, [startSync] talks to one
    backend only. With a Supabase service it never writes to the sync
    file; without one it never asks Supabase for the file count or
    writes a vectorization status, and every status it writes to the
    sync file is PENDING. Every task it hands to the queue is a CREATE
    in status QUEUED_DURING_INIT with 3 retries left of 3, a content
    hash, and the priority that the rules give to its path. *)
Theorem startSync_calls_only_the_configured_backend
    (schedule : nat → nat) (r : Run) :
  let new := newEvents r (startSync w svc schedule r).2 in
  Forall (bulkEvent (options (st r)) svc) new
  ∧ (supabaseService svc = true → syncFileWrites new = [])
  ∧ (supabaseService svc = false →
     (EvGetFileCount ∉ new)
     ∧ (∀ metadata vstatus,
          EvUpdateFileVectorizationStatus metadata vstatus ∉ new)
     ∧ ∀ id sstatus lastModified hash,
         EvUpdateSyncStatus id sstatus lastModified hash ∈ new →
         sstatus = SYNC_PENDING)
  ∧ ∀ task, task ∈ enqueued new →
      task_type task = CREATE
      ∧ task_status task = QUEUED_DURING_INIT
      ∧ priority task = getFilePriority (options (st r)) (task_id task)
      ∧ maxRetries task = 3 ∧ retryCount task = 0
      ∧ is_Some (contentHash (task_metadata task)).
Proof.
  intros new. subst new.
  destruct (startSync_trace schedule r) as ((_ & Hall & _) & _).
  split; [done|]. split; [|split].
  - intros Hsvc. by eapply bulk_no_sync_file_write.
  - intros Hsvc. rewrite Forall_forall in Hall. split_and!.
    + intros Hin. apply Hall in Hin. simpl in Hin. congruence.
    + intros metadata vstatus Hin. apply Hall in Hin as [Hin _]. congruence.
    + intros id sstatus lastModified hash Hin. by apply Hall in Hin as [_ ?].
  - intros task Hin. by apply (bulk_enqueued _ _ _ Hall Hin).
Qed.

(** X13. The warning about the missing embedding provider is shown at
    most once: a run of [startSync] shows it at most once, not at all
    when an earlier run showed it, and once shown the flag stays set. *)
Theorem startSync_warns_at_most_once (schedule : nat → nat) (r : Run) :
  let out := startSync w svc schedule r in
  let shown := warnings (newEvents r out.2) in
  (length shown ≤ 1)%nat
  ∧ (embeddingWarningShown (st r) = true → shown = [])
  ∧ (embeddingWarningShown (st r) = true ∨ shown ≠ [] →
     embeddingWarningShown (st out.2) = true).
Proof.
  intros out shown.
  by destruct (startSync_trace schedule r) as ((_ & _ & ? & ? & ?) & _).
Qed.

(** X7. When every file of the vault is excluded (and the store is empty
    or absent), [startSync] lists the vault and returns: no file is
    processed, and batches, progress and the adaptive batch size are not
    reset. *)
Theorem startSync_without_files_changes_nothing
    (schedule : nat → nat) (r : Run) :
  (supabaseService svc = true → getFileCount w (log r) = Ok 0%N) →
  vaultFilesToSync w svc r = [] →
  startSync w svc schedule r
  = (Ok tt, {| log := log r ++ countCalls svc ++ [EvGetMarkdownFiles];
               st := set_isRunning false (st r) |}).
Proof. apply startSync_empty. Qed.

(** X8. When the store is empty or absent, [startSync] hands every file
    that passes the two exclusion filters to the metadata extractor
    exactly once, whatever the number of workers, their turns and the
    errors of single files; no other file is handed to it. *)
Theorem startSync_extracts_each_file_once (schedule : nat → nat) (r : Run) :
  (supabaseService svc = true → getFileCount w (log r) = Ok 0%N) →
  ∃ r', startSync w svc schedule r = (Ok tt, r')
        ∧ attempted (newEvents r r') ≡ₚ vaultFilesToSync w svc r.
Proof.
  intros Hcount.
  destruct (decide (vaultFilesToSync w svc r = [])) as [Hnone|Hsome].
  - rewrite (startSync_empty schedule r Hcount Hnone). eexists. split; [done|].
    rewrite (newEvents_app r _ (countCalls svc ++ [EvGetMarkdownFiles])) by done.
    rewrite Hnone, attempted_app. unfold countCalls.
    by destruct (supabaseService svc).
  - destruct (startSync_summary w svc schedule r Hcount Hsome)
      as (started & new & r' & Hrun & Hnew & Hatt & _).
    exists r'. split; [done|]. rewrite Hnew, !attempted_app, Hatt.
    unfold countCalls. by destruct (supabaseService svc).
Qed.

(** X9. After [startSync] went through the files, [this.batches] holds
    exactly the batches of this run: read in order they list the files
    to synchronise sorted by priority, every batch is completed, holds at
    least one file and at most [max(1, maxBatchSize)] files. *)
Theorem startSync_batches_follow_priority (schedule : nat → nat) (r : Run) :
  let o := options (st r) in
  (supabaseService svc = true → getFileCount w (log r) = Ok 0%N) →
  vaultFilesToSync w svc r ≠ [] →
  ∃ r', startSync w svc schedule r = (Ok tt, r')
        ∧ concat (files <$> batches (st r'))
          = sortFilesByPriority o (vaultFilesToSync w svc r)
        ∧ Forall (λ b, status b = BatchCompleted) (batches (st r'))
        ∧ Forall (λ b, (1 ≤ length (files b))%nat
                       ∧ Z.of_nat (length (files b))
                         ≤ Z.max 1 (maxBatchSize (throttling o)))
            (batches (st r')).
Proof.
  intros o Hcount Hsome.
  destruct (startSync_summary w svc schedule r Hcount Hsome)
    as (started & new & r' & Hrun & _ & _ & _ & _ & _ & _ & Hcat & Hdone
        & Hsize & _).
  by exists r'.
Qed.

(** X11. At the end of [startSync], [totalFiles] is the number of files to
    synchronise and every one of them is accounted for: it was either
    counted in [processedFiles] or reported to the error handler, and a
    file that failed was reported twice under the context of
    [processFile] (once by [processFile], once by the loop of
    [processBatch]). So [processedFiles] never exceeds [totalFiles]. *)
Theorem startSync_accounts_for_every_file (schedule : nat → nat) (r : Run) :
  (supabaseService svc = true → getFileCount w (log r) = Ok 0%N) →
  vaultFilesToSync w svc r ≠ [] →
  ∃ r', startSync w svc schedule r = (Ok tt, r')
        ∧ totalFiles (progress (st r'))
          = Z.of_nat (length (vaultFilesToSync w svc r))
        ∧ 2 * processedFiles (progress (st r'))
          + Z.of_nat (length (fileReports (newEvents r r')))
          = 2 * totalFiles (progress (st r'))
        ∧ 0 ≤ processedFiles (progress (st r')) ≤ totalFiles (progress (st r')).
Proof.
  intros Hcount Hsome.
  destruct (startSync_summary w svc schedule r Hcount Hsome)
    as (started & new & r' & Hrun & Hnew & _ & _ & _ & _ & _ & _ & _ & _
        & Htotal & Hprocessed & Hpositive & _).
  assert (Hpre : fileReports (countCalls svc) = [])
    by (unfold countCalls; by destruct (supabaseService svc)).
  assert (Hreports : fileReports (newEvents r r') = fileReports new).
  { rewrite Hnew, !fileReports_app, Hpre. done. }
  exists r'. rewrite Hreports, Htotal. split_and!; [done|done|lia..].
Qed.

Lemma ceilDiv_positive (a b : Z) : 0 < a → 1 ≤ b → 1 ≤ Js.ceilDiv a b.
Proof.
  intros Ha Hb. unfold Js.ceilDiv.
  assert ((- a) / b < 0) by (apply Z.div_lt_upper_bound; lia). lia.
Qed.

(** X12. At the end of [startSync], [currentBatch] is the number of
    batches that were run, and [totalBatches] is that number plus the
    batches the files not counted in [processedFiles] would still fill:
    [totalBatches] equals [currentBatch] if and only if no file failed.
    After a failed file the progress keeps announcing batches that will
    never come. *)
Theorem startSync_batch_counters (schedule : nat → nat) (r : Run) :
  (supabaseService svc = true → getFileCount w (log r) = Ok 0%N) →
  vaultFilesToSync w svc r ≠ [] →
  ∃ r', startSync w svc schedule r = (Ok tt, r')
        ∧ currentBatch (progress (st r')) = Z.of_nat (length (batches (st r')))
        ∧ completedBatchCount (st r') = Z.of_nat (length (batches (st r')))
        ∧ currentBatch (progress (st r')) ≤ totalBatches (progress (st r'))
        ∧ (totalBatches (progress (st r')) = currentBatch (progress (st r'))
           ↔ processedFiles (progress (st r')) = totalFiles (progress (st r'))).
Proof.
  intros Hcount Hsome.
  destruct (startSync_summary w svc schedule r Hcount Hsome)
    as (started & new & r' & Hrun & _ & _ & _ & _ & _ & _ & _ & _ & _
        & Htotal & Hprocessed & _ & Hcbc & [Hcurrent Hbatches] & _).
  exists r'. rewrite Hcurrent, Hbatches, <- Hcbc.
  rewrite <- Htotal in Hprocessed.
  set (remaining := totalFiles (progress (st r')) - processedFiles (progress (st r'))) in *.
  assert (Hrem : 0 ≤ remaining) by (unfold remaining; lia).
  split_and!; [done|done|done|lia|].
  destruct (decide (remaining = 0)) as [Hzero|Hpos].
  - rewrite Hzero. unfold Js.ceilDiv. simpl. rewrite Z.div_0_l by lia.
    split; [unfold remaining in *; lia|lia].
  - pose proof (ceilDiv_positive remaining
                  (Z.max 1 (adaptiveBatchSize (st r'))) ltac:(lia) ltac:(lia)).
    split; [lia|unfold remaining in *; lia].
Qed.

(** X14. When the configured batch size lies between the configured
    minimum and maximum (and the maximum is at least 1), the adaptive
    batch size is still between them at the end of [startSync], however
    many times it was adjusted. *)
Theorem startSync_keeps_adaptive_size_within_bounds
    (schedule : nat → nat) (r : Run) :
  let o := options (st r) in
  (supabaseService svc = true → getFileCount w (log r) = Ok 0%N) →
  vaultFilesToSync w svc r ≠ [] →
  1 ≤ maxBatchSize (throttling o) →
  minBatchSize (throttling o) ≤ batchSize o ≤ maxBatchSize (throttling o) →
  ∃ r', startSync w svc schedule r = (Ok tt, r')
        ∧ minBatchSize (throttling o)
          ≤ adaptiveBatchSize (st r')
          ≤ maxBatchSize (throttling o).
Proof.
  intros o Hcount Hsome Hmax Hsize.
  destruct (startSync_summary w svc schedule r Hcount Hsome)
    as (started & new & r' & Hrun & _ & _ & _ & _ & _ & _ & _ & _ & _
        & _ & _ & _ & _ & _ & Hbounds & _).
  exists r'. split; [done|]. by apply Hbounds.
Qed.

End StartSyncTheorems.

(** ** Files and the events of their tasks *)

Section PerFileMore.

Import InitialSyncManager.
Context (w : World) (svc : Services).

Lemma processFile_success (file : TFile) (r : Run) :
  wp (processFile w svc file) r (λ res r',
    res = Ok tt → isSyncFile (options (st r)) (path file) = false →
    ∃ metadata hash created updated,
      let stored := with_contentHash hash metadata in
      pendingFileMetadata (st r')
      = <[path file := {| pf_metadata := stored; pf_hash := hash;
                          pf_lastModified := stat_mtime file |}]>
          (pendingFileMetadata (st r))
      ∧ enqueued (newEvents r r')
        = [newTask (options (st r)) file stored created updated]
      ∧ syncFileWrites (newEvents r r')
        = (if supabaseService svc then []
           else [EvUpdateSyncStatus (path file) SYNC_PENDING
                   (stat_mtime file) hash])).
Proof.
  unfold processFile, processFile_body, calculateFileHash, embeddingReady.
  cbv [mbind Sync_bind].
  repeat wp_step; intros Hres Hsync; try done.
  all: eexists _, _, _, _; unfold newEvents; cbn [log st];
    rewrite <- ?app_assoc, drop_app_length; simpl;
    rewrite ?Heqb0; split_and!; reflexivity.
Qed.


(** X16. A file that [processFile] went through is expected in the table
    of pending files under its path, with its modification time and the
    content hash that was also put into the metadata of the one task
    enqueued for it; the id of that task is the path. So the completion
    event of that task finds the entry: the handler removes it, and when
    no Supabase service is configured the sync file is written twice for
    the file, PENDING and then OK, with the same modification time and
    hash. *)
Theorem processFile_then_task_completed (file : TFile) (r r1 : Run) :
  processFile w svc file r = (Ok tt, r1) →
  isSyncFile (options (st r)) (path file) = false →
  ∃ task hash pending,
    enqueued (newEvents r r1) = [task]
    ∧ task_id task = path file
    ∧ contentHash (task_metadata task) = Some hash
    ∧ pendingFileMetadata (st r1) !! path file = Some pending
    ∧ pf_metadata pending = task_metadata task
    ∧ pf_hash pending = hash
    ∧ pf_lastModified pending = stat_mtime file
    ∧ let out := handleTaskCompleted w svc task r1 in
      out.1 = Ok tt
      ∧ pendingFileMetadata (st out.2)
        = delete (path file) (pendingFileMetadata (st r))
      ∧ syncFileWrites (newEvents r out.2)
        = (if supabaseService svc then []
           else [EvUpdateSyncStatus (path file) SYNC_PENDING
                   (stat_mtime file) hash;
                 EvUpdateSyncStatus (path file) SYNC_OK
                   (stat_mtime file) hash]).
Proof.
  intros Hrun Hsync.
  pose proof (processFile_success file r) as Hspec. unfold wp in Hspec.
  rewrite Hrun in Hspec.
  destruct (Hspec eq_refl Hsync)
    as (metadata & hash & created & updated & Hpending & Henq & Hwrites).
  simpl in Hpending, Henq, Hwrites.
  pose proof (processFile_spec w svc file r) as Hframe. unfold wp in Hframe.
  rewrite Hrun in Hframe. destruct Hframe as (new & Hlog & _).
  simpl in Hlog. rewrite (newEvents_app r r1 new Hlog) in Henq, Hwrites.
  eexists _, hash, _. rewrite (newEvents_app r r1 new Hlog).
  split; [exact Henq|]. split; [done|]. split; [done|].
  split; [by rewrite Hpending, lookup_insert_eq|].
  split; [done|]. split; [done|]. split; [done|].
  cbv [handleTaskCompleted mbind Sync_bind bind get modify tryCatch invoke ret
       handleError emit newTask task_id].
  cbn [st log fst snd]. rewrite Hpending, lookup_insert_eq.
  cbn [pf_lastModified pf_hash].
  unfold newEvents, syncFileWrites in *.
  destruct (supabaseService svc); cbn [negb fst snd st log].
  - split; [done|]. cbn [set_pendingFileMetadata pendingFileMetadata].
    rewrite Hpending, delete_insert_eq. split; [done|].
    by rewrite Hlog, drop_app_length.
  - destruct (updateSyncStatus w (log r1) (path file) SYNC_OK _ _) as [[]|e];
      cbn [fst snd st log set_pendingFileMetadata pendingFileMetadata];
      rewrite Hpending, delete_insert_eq;
      (split; [done|]); (split; [done|]);
      rewrite Hlog, <- ?app_assoc, drop_app_length, !filter_app, Hwrites; done.
Qed.


End PerFileMore.

Section HandlersMore.

Import InitialSyncManager.
Context (w : World) (svc : Services).

Lemma handleTaskCompleted_unknown (task : ProcessingTask) (r : Run) :
  pendingFileMetadata (st r) !! task_id task = None →
  handleTaskCompleted w svc task r = (Ok tt, r).
Proof.
  intros Hnone. cbv [handleTaskCompleted mbind Sync_bind bind get ret].
  rewrite Hnone. by destruct r.
Qed.

Lemma handleTaskFailed_unknown (task : ProcessingTask) (error : JsError) (r : Run) :
  pendingFileMetadata (st r) !! task_id task = None →
  handleTaskFailed w svc task error r
  = (Ok tt,
     if isError error
     then {| log := log r ++ [EvHandleError error
                                "InitialSyncManager.queueTaskFailed" (task_id task)];
             st := st r |}
     else r).
Proof.
  intros Hnone.
  cbv [handleTaskFailed mbind Sync_bind bind get ret handleError emit].
  rewrite Hnone. destruct (isError error); by destruct r.
Qed.

Lemma handleTaskCompleted_clears (task : ProcessingTask) (r : Run) :
  pendingFileMetadata (st (handleTaskCompleted w svc task r).2) !! task_id task
  = None.
Proof.
  destruct (pendingFileMetadata (st r) !! task_id task) as [pending|] eqn:Hp.
  - cbv [handleTaskCompleted mbind Sync_bind bind get modify tryCatch invoke ret
         handleError emit].
    rewrite Hp. cbn [st log fst snd].
    destruct (supabaseService svc); cbn [negb fst snd st].
    + apply lookup_delete_eq.
    + destruct (updateSyncStatus _ _ _ _ _ _) as [[]|e];
        cbn [fst snd st]; apply lookup_delete_eq.
  - by rewrite handleTaskCompleted_unknown.
Qed.

Lemma handleTaskFailed_clears (task : ProcessingTask) (error : JsError) (r : Run) :
  pendingFileMetadata (st (handleTaskFailed w svc task error r).2) !! task_id task
  = None.
Proof.
  destruct (pendingFileMetadata (st r) !! task_id task) as [pending|] eqn:Hp.
  - cbv [handleTaskFailed mbind Sync_bind bind get modify tryCatch invoke ret
         handleError emit].
    rewrite Hp. cbn [st log fst snd].
    destruct (supabaseService svc); cbn [negb fst snd st].
    + destruct (isError error); cbn [fst snd st]; apply lookup_delete_eq.
    + destruct (updateSyncStatus _ _ _ _ _ _)
        as [[]|e]; cbn [fst snd st];
        destruct (isError error); cbn [fst snd st]; apply lookup_delete_eq.
  - rewrite handleTaskFailed_unknown by done. by destruct (isError error).
Qed.

(** X18. A task event is acted on once. An event for a task whose id has
    no entry in the table of pending files changes nothing and writes
    nothing ([handleTaskFailed] still reports the error, when it is an
    [Error]); and after either handler ran for a task, a second
    completion event for the same task is such an event: it leaves the
    manager as it is and calls no collaborator. *)
Theorem task_events_are_handled_once
    (task : ProcessingTask) (error : JsError) (r : Run) :
  (pendingFileMetadata (st r) !! task_id task = None →
   handleTaskCompleted w svc task r = (Ok tt, r)
   ∧ st (handleTaskFailed w svc task error r).2 = st r
   ∧ syncFileWrites (newEvents r (handleTaskFailed w svc task error r).2) = [])
  ∧ (let completed := (handleTaskCompleted w svc task r).2 in
     handleTaskCompleted w svc task completed = (Ok tt, completed))
  ∧ (let failed := (handleTaskFailed w svc task error r).2 in
     handleTaskCompleted w svc task failed = (Ok tt, failed)).
Proof.
  split_and!.
  - intros Hnone. split; [by apply handleTaskCompleted_unknown|].
    rewrite handleTaskFailed_unknown by done.
    destruct (isError error); simpl; (split; [done|]).
    + by rewrite (newEvents_app r _ [EvHandleError error
                    "InitialSyncManager.queueTaskFailed" (task_id task)]).
    + by rewrite (newEvents_app r r []) by (by rewrite app_nil_r).
  - intros completed. apply handleTaskCompleted_unknown,
      handleTaskCompleted_clears.
  - intros failed. apply handleTaskCompleted_unknown, handleTaskFailed_clears.
Qed.

End HandlersMore.

(** ** stop *)

Section Stop.

Import InitialSyncManager.
Context (w : World) (svc : Services).

Lemma PoolRun_stop (r0 r : Run) (hs : list nat) :
  PoolRun svc r0 hs r → PoolRun svc r0 hs (stop r).2.
Proof.
  intros (H1 & H2 & H3 & H4 & H5 & H6 & H7 & H8 & new & Hbulk & Hatt & Hcount).
  split_and!; try done.
  exists (new ++ [EvNotice "Initial sync stopped"]).
  rewrite attempted_app, fileReports_app, !app_nil_r.
  split; [|done].
  eapply bulkLog_trans; [exact Hbulk|].
  apply bulkLog_quiet; [done| |done|done].
  apply Forall_singleton. by right.
Qed.

Lemma PoolInv_stop o base allFiles (r : Run) (c : Cursor) :
  PoolInv o base allFiles r c → PoolInv o base allFiles (stop r).2 c.
Proof. by apply PoolInv_frame. Qed.

(** X15. [stop()] sets [isRunning] to false and shows a notice, and that
    is all: nothing in the pool reads [isRunning]. After any number of
    turns of the workers, under any schedule, a call to [stop()] does not
    keep the workers from going on: they still end with every file
    claimed, every batch of the run completed, and every file (the
    reserved sync files apart) handed to the metadata extractor exactly
    once. *)
Theorem stop_does_not_halt_the_pool
    (schedule1 schedule2 : nat → nat) (turns : nat)
    (allFiles : list TFile) (r : Run) :
  ∃ workers c r1 workers2 c2 r2 c3 r3,
    startWorkers (concurrencyOf (options (st r))) allFiles
      {| nextIndex := 0; batchCounter := 0 |} r = (Ok (workers, c), r1)
    ∧ runWorkers w svc turns schedule1 allFiles workers c r1
      = (Ok (workers2, c2), r2)
    ∧ isRunning (st (stop r2).2) = false
    ∧ runWorkers w svc (2 * length allFiles) schedule2 allFiles workers2 c2
        (stop r2).2 = (Ok ([], c3), r3)
    ∧ nextIndex c3 = length allFiles
    ∧ concat (files <$> drop (length (batches (st r))) (batches (st r3)))
      = allFiles
    ∧ Forall (λ b, status b = BatchCompleted)
        (drop (length (batches (st r))) (batches (st r3)))
    ∧ attempted (newEvents r r3)
      ≡ₚ filter (λ file, isSyncFile (options (st r)) (path file) = false)
           allFiles.
Proof.
  pose proof (PoolInv_start r allFiles) as Hinv.
  pose proof (wp_and _ _ _ _
                (startWorkers_spec _ _ _ (concurrencyOf (options (st r))) r _ Hinv)
                (startWorkers_run svc r allFiles (concurrencyOf (options (st r))) []
                   r _ Hinv (PoolRun_start svc r))) as Hstart.
  unfold wp in Hstart.
  destruct (startWorkers _ _ _ r) as [res1 r1].
  simpl in Hstart. destruct Hstart as [(workers & c & -> & Hinv1 & Hmeasure & Hempty)
                        (workers' & c' & [= <- <-] & Hrun1)].
  simpl in Hinv1, Hrun1. rewrite app_nil_r in Hrun1.
  assert (Hempty1 : workers = [] → (length allFiles ≤ nextIndex c)%nat).
  { apply Hempty. unfold concurrencyOf. lia. }
  pose proof (runWorkers_turns w svc r allFiles schedule1 turns workers r1 c
                (2 * length allFiles) Hinv1 ltac:(simpl in *; lia) Hempty1 Hrun1)
    as Hturns.
  unfold wp in Hturns.
  destruct (runWorkers w svc turns schedule1 allFiles workers c r1)
    as [res2 r2] eqn:Hrun12.
  simpl in Hturns. destruct Hturns as (workers2 & c2 & -> & Hinv2 & Hmeasure2 & Hempty2 & Hrun2).
  simpl in Hinv2, Hrun2.
  pose proof (runWorkers_run w svc r allFiles schedule2 (2 * length allFiles)
                workers2 (stop r2).2 c2 (PoolInv_stop _ _ _ _ _ Hinv2) Hmeasure2
                Hempty2 (PoolRun_stop _ _ _ Hrun2)) as Hrest.
  unfold wp in Hrest.
  destruct (runWorkers w svc (2 * length allFiles) schedule2 allFiles workers2 c2
              (stop r2).2) as [res3 r3] eqn:Hrun23.
  simpl in Hrest. destruct Hrest as (c3 & -> & Hinv3 & Hall & Hrun3). simpl in Hinv3, Hrun3.
  destruct (pool_end svc r r3 allFiles c3 Hinv3 Hall Hrun3)
    as (Hdone & Hslices & Hcat & _).
  destruct Hrun3 as (_ & _ & _ & _ & _ & _ & _ & _ & new & Hbulk & Hatt & _).
  exists workers, c, r1, workers2, c2, r2, c3, r3.
  split_and!; [done | done | reflexivity | done | done | | done |].
  - by rewrite <- Hslices.
  - destruct Hbulk as [Hlog _]. rewrite (newEvents_app r r3 new Hlog).
    by rewrite Hatt, Hcat.
Qed.

End Stop.

(** ** Options and progress notifications *)

Section Options.

Import InitialSyncManager.

(** X19. [updateThrottlingControls] changes the keys it is given and no
    other, and clamps the adaptive batch size into the new bounds: the
    size ends at most at the new maximum, at least at the new minimum
    when the minimum does not exceed the maximum (otherwise it ends at
    the maximum), and is unchanged when it was within the bounds. Doing
    the same update again changes nothing more. *)
Theorem updateThrottlingControls_clamps
    (controls : ThrottlingOverrides) (s : State) :
  let s' := updateThrottlingControls controls s in
  let th := throttling (options s') in
  th = mergeThrottling (throttling (options s)) controls
  ∧ adaptiveBatchSize s' ≤ maxBatchSize th
  ∧ (minBatchSize th ≤ maxBatchSize th → minBatchSize th ≤ adaptiveBatchSize s')
  ∧ (maxBatchSize th < minBatchSize th → adaptiveBatchSize s' = maxBatchSize th)
  ∧ (minBatchSize th ≤ adaptiveBatchSize s ≤ maxBatchSize th →
     adaptiveBatchSize s' = adaptiveBatchSize s)
  ∧ updateThrottlingControls controls s' = s'.
Proof.
  intros s' th. subst s' th. unfold updateThrottlingControls. simpl.
  split_and!; try done; try lia.
  unfold set_adaptiveBatchSize, set_options, with_throttling, mergeThrottling.
  simpl. f_equal.
  - f_equal. destruct controls as [[?|] [?|] [?|] [?|] [?|]]; reflexivity.
  - destruct controls as [[?|] [?|] [?|] [?|] [?|]]; simpl; lia.
Qed.

(** X20. [updateOptions] applies the throttling overrides first and the
    batch size last: a positive [batchSize] becomes the adaptive batch
    size as it is, also when it lies outside the bounds given in the same
    call; a [batchSize] that is not positive is stored in the options but
    leaves the adaptive batch size to the clamp. Batches, progress and
    the table of pending files are not touched. *)
Theorem updateOptions_batch_size_wins (overrides : OptionOverrides) (s : State) :
  let s' := updateOptions overrides s in
  let clamped :=
    match newThrottling overrides with
    | Some controls => updateThrottlingControls controls s
    | None => s
    end in
  throttling (options s') = throttling (options clamped)
  ∧ (∀ size, newBatchSize overrides = Some size →
       batchSize (options s') = size
       ∧ adaptiveBatchSize s'
         = if 0 <? size then size else adaptiveBatchSize clamped)
  ∧ (newBatchSize overrides = None →
     batchSize (options s') = batchSize (options s)
     ∧ adaptiveBatchSize s' = adaptiveBatchSize clamped)
  ∧ batches s' = batches s ∧ progress s' = progress s
  ∧ pendingFileMetadata s' = pendingFileMetadata s
  ∧ isRunning s' = isRunning s.
Proof.
  intros s' clamped. subst s' clamped. unfold updateOptions.
  destruct (newThrottling overrides) as [controls|];
    destruct (newBatchSize overrides) as [size|] eqn:Hnew; simpl;
    try destruct (0 <? size) eqn:Hsize; simpl; rewrite ?Hnew; simpl;
    (split_and!; try done; try (intros size' [= <-]; by rewrite ?Hsize)).
Qed.

End Options.

Section Coalescing.

Import InitialSyncManager.
Context (w : World).

Lemma scheduled_app l1 l2 : scheduled (l1 ++ l2) = scheduled l1 ++ scheduled l2.
Proof. apply filter_app. Qed.

Lemma runUi_spec (calls : list UiCall) :
  ∀ r, wp (runUi w calls) r (λ res r',
    ∃ updates new,
      res = Ok updates
      ∧ log r' = log r ++ new
      ∧ (length (scheduled new) + (if rafScheduled (st r) then 1 else 0)
         ≤ length (filter (λ c, isFlush c = true) calls)
           + (if rafScheduled (st r') then 1 else 0))%nat
      ∧ (length updates ≤ length (filter (λ c, isFlush c = true) calls))%nat
      ∧ Forall (λ ev, match ev with EvSetTimeout ms => 16 ≤ ms | _ => True end) new).
Proof.
  induction calls as [|call calls IH]; intros r; simpl.
  - wp_step. exists [], []. rewrite app_nil_r. simpl. by split_and!.
  - destruct call; cbv [mbind Sync_bind].
    + wp_step. wp_step.
      eapply wp_wand; [apply IH|].
      intros res r' (updates & new & -> & Hlog & Hcount & Hupd & Hall).
      exists updates, new. rewrite filter_cons. simpl in *. by split_and!.
    + unfold updateProgressNotification. cbv [mbind Sync_bind].
      repeat wp_step.
      all: eapply wp_wand; [apply IH|].
      all: intros res r' (updates & new & -> & Hlog & Hcount & Hupd & Hall).
      all: simpl in Hlog, Hcount.
      all: rewrite filter_cons; simpl.
      all: try (exists updates, new; split_and!; try done;
                rewrite ?Heqb0 in *; done).
      all: eexists updates, (_ :: new);
        (split_and!; [done | by rewrite Hlog, <- app_assoc | | done
                      | apply Forall_cons; split; [simpl; lia | done]]).
      all: change (?x :: new) with ([x] ++ new); rewrite scheduled_app;
        simpl; rewrite ?Heqb0; simpl in *; lia.
    + unfold flushProgressUpdate, calculateEstimatedTimeRemaining.
      cbv [mbind Sync_bind].
      repeat wp_step.
      all: eapply wp_wand; [apply IH|].
      all: intros res r' (updates & new & -> & Hlog & Hcount & Hupd & Hall).
      all: simpl in Hlog, Hcount. all: wp_step.
      all: rewrite filter_cons; simpl.
      all: try (eexists _, new; split_and!; [done | done | | simpl; lia | done];
                destruct (rafScheduled (st r)); simpl in *; lia).
      all: eexists _, (_ :: new);
        (split_and!; [done | by rewrite Hlog, <- app_assoc | | simpl; lia
                      | apply Forall_cons; split; [done | done]]).
      all: change (?x :: new) with ([x] ++ new); rewrite scheduled_app;
        simpl; destruct (rafScheduled (st r)); simpl in *; lia.
Qed.

(** X21. Requests for a progress notification are coalesced: however the
    counting of files, the requests and the scheduled callbacks
    interleave, from a manager with nothing scheduled the number of
    animation frames and timers requested is at most the number of
    callbacks that ran, plus one for the request still pending at the
    end. Each callback sends at most one update, and no timer is set for
    less than 16 ms. *)
Theorem progress_notifications_are_coalesced (calls : list UiCall) (r : Run) :
  rafScheduled (st r) = false →
  let out := runUi w calls r in
  let flushes := length (filter (λ c, isFlush c = true) calls) in
  ∃ updates,
    out.1 = Ok updates
    ∧ (length updates ≤ flushes)%nat
    ∧ (length (scheduled (newEvents r out.2))
       ≤ flushes + (if rafScheduled (st out.2) then 1 else 0))%nat
    ∧ Forall (λ ev, match ev with EvSetTimeout ms => 16 ≤ ms | _ => True end)
        (newEvents r out.2).
Proof.
  intros Hidle out flushes. subst out flushes.
  pose proof (runUi_spec calls r) as Hspec. unfold wp in Hspec.
  destruct (runUi w calls r) as [res r'].
  destruct Hspec as (updates & new & Hres & Hlog & Hcount & Hupd & Hall).
  simpl in *. rewrite Hidle in Hcount.
  exists updates. rewrite (newEvents_app r r' new Hlog).
  split_and!; [done | done | lia | done].
Qed.

End Coalescing.

(** * Properties of the metadata extractor *)

Section Sets.
Import MetadataExtractor.

Lemma setAdd_spec (x : string) (set : list string) :
  NoDup set →
  NoDup (setAdd x set)
  ∧ (∀ y, y ∈ setAdd x set ↔ y ∈ set ∨ y = x)
  ∧ set `prefix_of` setAdd x set.
Proof.
  intros Hset. unfold setAdd. case_bool_decide as Hin.
  - split_and!; [done| |done]. intros y. split; [by left|].
    by intros [?| ->].
  - split_and!.
    + apply NoDup_app. split_and!; [done| |apply NoDup_singleton].
      intros y Hy Hy'. apply list_elem_of_singleton in Hy'. by subst.
    + intros y. rewrite elem_of_app, list_elem_of_singleton. done.
    + by apply prefix_app_r.
Qed.

Lemma setAdds_spec (l set : list string) :
  NoDup set →
  NoDup (foldl (λ set x, setAdd x set) set l)
  ∧ (∀ y, y ∈ foldl (λ set x, setAdd x set) set l ↔ y ∈ set ∨ y ∈ l)
  ∧ set `prefix_of` foldl (λ set x, setAdd x set) set l.
Proof.
  revert set. induction l as [|x l IH]; intros set Hset; simpl.
  - split_and!; [done| |done]. intros y. split; [by left|].
    intros [?|Hin]; [done|]. by apply elem_of_nil in Hin.
  - destruct (setAdd_spec x set Hset) as (Hnodup & Hin & Hpre).
    destruct (IH _ Hnodup) as (Hnodup' & Hin' & Hpre').
    split_and!; [done| |by etrans].
    intros y. rewrite Hin', Hin, elem_of_cons. tauto.
Qed.

End Sets.

Section FrontMatterTags.
Import MetadataExtractor.

Lemma chars_app (a b : string) : chars (a +:+ b) = chars a ++ chars b.
Proof.
  induction a as [|c a IH]; [done|].
  rewrite string_app_cons. simpl. by rewrite IH.
Qed.

Lemma chars_rev (s : string) (c : Strings.Ascii.ascii) :
  c ∈ chars (String.rev s) ↔ c ∈ chars s.
Proof.
  induction s as [|d s IH]; [done|].
  rewrite rev_cons, chars_app. simpl.
  rewrite elem_of_app, IH, !elem_of_cons, elem_of_nil. tauto.
Qed.

Lemma splitOn_cons (sep c : Strings.Ascii.ascii) (rest : string) :
  splitOn sep (String c rest)
  = if Strings.Ascii.eqb c sep then EmptyString :: splitOn sep rest
    else match splitOn sep rest with
         | [] => [String c EmptyString]
         | part :: parts => String c part :: parts
         end.
Proof. done. Qed.

Lemma splitOn_no_separator (sep : Strings.Ascii.ascii) (s part : string) :
  part ∈ splitOn sep s → sep ∉ chars part.
Proof.
  revert part. induction s as [|c s IH]; intros part Hin.
  - apply list_elem_of_singleton in Hin as ->. apply not_elem_of_nil.
  - rewrite splitOn_cons in Hin.
    destruct (Strings.Ascii.eqb c sep) eqn:Heq.
    + apply elem_of_cons in Hin as [-> | Hin]; [apply not_elem_of_nil | by apply IH].
    + apply Strings.Ascii.eqb_neq in Heq.
      destruct (splitOn sep s) as [|first parts].
      * apply list_elem_of_singleton in Hin as ->. simpl.
        intros Hc. apply list_elem_of_singleton in Hc. by subst.
      * apply elem_of_cons in Hin as [-> | Hin].
        -- simpl. intros Hc. apply elem_of_cons in Hc as [Hc|Hc]; [by subst|].
           by apply (IH first); [apply list_elem_of_here|].
        -- apply IH. by apply list_elem_of_further.
Qed.

Lemma trimStartOf_suffix (backwards : bool) (s : string) :
  ∃ removed, s = removed +:+ trimStartOf backwards s.
Proof.
  remember (String.length s) as n eqn:Hn. revert s Hn.
  induction n as [n IH] using lt_wf_ind. intros s Hn.
  assert (Hrec : ∀ s', (String.length s' < n)%nat →
            ∃ removed, s' = removed +:+ trimStartOf backwards s').
  { intros s' Hlt. by apply (IH _ Hlt). }
  destruct s as [|c1 [|c2 [|c3 rest3]]]; simpl in Hn.
  - by exists EmptyString.
  - simpl. destruct (isSpace1 _).
    + by exists (String c1 EmptyString).
    + by exists EmptyString.
  - simpl. destruct (isSpace1 (Strings.Ascii.nat_of_ascii c1)).
    + destruct (isSpace1 (Strings.Ascii.nat_of_ascii c2)).
      * by exists (String c1 (String c2 EmptyString)).
      * by exists (String c1 EmptyString).
    + destruct (if backwards then _ else _).
      * by exists (String c1 (String c2 EmptyString)).
      * by exists EmptyString.
  - cbn [trimStartOf]. destruct (isSpace1 (Strings.Ascii.nat_of_ascii c1)).
    + destruct (Hrec (String c2 (String c3 rest3))) as [removed Hremoved];
        [simpl; lia|].
      exists (String c1 removed). rewrite string_app_cons. by f_equal.
    + destruct (if backwards then isSpace2 _ _ else isSpace2 _ _).
      * destruct (Hrec (String c3 rest3)) as [removed Hremoved]; [simpl; lia|].
        exists (String c1 (String c2 removed)). rewrite !string_app_cons.
        by do 2 f_equal.
      * destruct (if backwards then isSpace3 _ _ _ else isSpace3 _ _ _).
        -- destruct (Hrec rest3) as [removed Hremoved]; [simpl; lia|].
           exists (String c1 (String c2 (String c3 removed))).
           rewrite !string_app_cons. by do 3 f_equal.
        -- by exists EmptyString.
Qed.

Lemma trimStartOf_chars (backwards : bool) (s : string) (c : Strings.Ascii.ascii) :
  c ∈ chars (trimStartOf backwards s) → c ∈ chars s.
Proof.
  destruct (trimStartOf_suffix backwards s) as [removed Hs].
  intros Hc. rewrite Hs, chars_app. apply elem_of_app. by right.
Qed.

Lemma trim_chars (s : string) (c : Strings.Ascii.ascii) :
  c ∈ chars (trim s) → c ∈ chars s.
Proof.
  unfold trim. intros Hc.
  apply (proj1 (chars_rev _ _)) in Hc. apply trimStartOf_chars in Hc.
  apply (proj1 (chars_rev _ _)) in Hc. by apply trimStartOf_chars in Hc.
Qed.

Lemma stripHash_chars (s : string) (c : Strings.Ascii.ascii) :
  c ∈ chars (stripHash s) → c ∈ chars s.
Proof.
  destruct s as [|d s]; [done|]. simpl.
  destruct (Strings.Ascii.eqb d hash); [|done].
  intros Hc. by apply elem_of_cons; right.
Qed.

Lemma tagParts_clean (tagValue part : string) :
  part ∈ tagParts tagValue → part ≠ EmptyString ∧ comma ∉ chars part.
Proof.
  unfold tagParts. intros Hin.
  apply list_elem_of_filter in Hin as [Hne Hin].
  apply list_elem_of_fmap in Hin as (trimmed & -> & Hin).
  apply list_elem_of_filter in Hin as [_ Hin].
  apply list_elem_of_fmap in Hin as (raw & -> & Hin).
  split.
  - unfold nonEmpty in Hne. apply negb_true_iff, bool_decide_eq_false in Hne.
    done.
  - intros Hc. apply stripHash_chars, trim_chars in Hc.
    by apply (splitOn_no_separator _ _ _ Hin).
Qed.

Lemma addTagValues_spec (rawTags : list JsValue) (normalized : list string) :
  NoDup normalized →
  NoDup (foldl addTagValue normalized rawTags)
  ∧ ∀ tag, tag ∈ foldl addTagValue normalized rawTags ↔
           tag ∈ normalized
           ∨ ∃ tagValue, JsString tagValue ∈ rawTags ∧ tag ∈ tagParts tagValue.
Proof.
  revert normalized. induction rawTags as [|v rawTags IH];
    intros normalized Hnodup; simpl.
  - split; [done|]. intros tag. split; [by left|].
    intros [?|(tagValue & Hin & _)]; [done|]. by apply elem_of_nil in Hin.
  - assert (Hstep : NoDup (addTagValue normalized v)
              ∧ ∀ tag, tag ∈ addTagValue normalized v ↔
                       tag ∈ normalized
                       ∨ ∃ tagValue, v = JsString tagValue
                                     ∧ tag ∈ tagParts tagValue).
    { destruct v; simpl;
        try (split; [done|]; intros tag; split; [by left|];
             by intros [?|(tagValue & ? & _)]).
      destruct (setAdds_spec (tagParts s) normalized Hnodup) as (H1 & H2 & _).
      split; [done|]. intros tag. rewrite H2. split.
      - intros [?|?]; [by left|]. right. by exists s.
      - intros [?|(tagValue & [= <-] & ?)]; [by left|by right]. }
    destruct Hstep as [Hnodup' Hin'].
    destruct (IH _ Hnodup') as [Hnodup'' Hin''].
    split; [done|]. intros tag. rewrite Hin'', Hin'. split.
    + intros [[?|(tagValue & -> & ?)]|(tagValue & ? & ?)].
      * by left.
      * right. exists tagValue. split; [apply list_elem_of_here|done].
      * right. exists tagValue. split; [by apply list_elem_of_further|done].
    + intros [?|(tagValue & Hin & ?)]; [by left; left|].
      apply elem_of_cons in Hin as [<- | Hin].
      * left. right. by exists tagValue.
      * right. by exists tagValue.
Qed.

End FrontMatterTags.

Section Tags.
Import MetadataExtractor.

(** X22. [normalizeFrontMatterTags] returns each tag once, no tag is
    empty and no tag holds a comma. The tags are exactly the parts of the
    string values given (the value itself, or the strings of the array):
    split at commas, trimmed, one leading [#] removed, the empty ones
    dropped; values that are no strings contribute nothing. *)
Theorem normalizeFrontMatterTags_clean (tags : JsValue) :
  let normalized := normalizeFrontMatterTags tags in
  NoDup normalized
  ∧ (∀ tag, tag ∈ normalized → tag ≠ EmptyString ∧ comma ∉ chars tag)
  ∧ ∀ tag, tag ∈ normalized ↔
      ∃ tagValue,
        (tags = JsString tagValue
         ∨ ∃ items, tags = JsArray items ∧ JsString tagValue ∈ items)
        ∧ tag ∈ tagParts tagValue.
Proof.
  intros normalized.
  assert (Hspec : NoDup normalized
            ∧ ∀ tag, tag ∈ normalized ↔
                ∃ tagValue,
                  (tags = JsString tagValue
                   ∨ ∃ items, tags = JsArray items ∧ JsString tagValue ∈ items)
                  ∧ tag ∈ tagParts tagValue).
  { subst normalized. unfold normalizeFrontMatterTags.
    destruct (truthy tags) eqn:Htruthy; simpl.
    - destruct (addTagValues_spec
                  (match tags with JsArray items => items | _ => [tags] end)
                  [] (NoDup_nil_2 (A:=string))) as [Hnodup Hin].
      split; [done|]. intros tag. rewrite Hin. split.
      + intros [Hnil|(tagValue & Hraw & Hpart)]; [by apply elem_of_nil in Hnil|].
        exists tagValue. split; [|done].
        destruct tags; try (apply list_elem_of_singleton in Hraw; by left);
          try (apply list_elem_of_singleton in Hraw; discriminate).
        right. by exists items.
      + intros (tagValue & [-> | (items & -> & Hitem)] & Hpart); right;
          exists tagValue; (split; [|done]); [apply list_elem_of_here|done].
    - split; [apply NoDup_nil_2|]. intros tag. split.
      + intros Hnil. by apply elem_of_nil in Hnil.
      + intros (tagValue & [-> | (items & -> & _)] & Hpart); [|done].
        simpl in Htruthy. apply negb_false_iff, bool_decide_eq_true in Htruthy.
        subst tagValue. by vm_compute in Hpart. }
  destruct Hspec as [Hnodup Hin]. split; [done|]. split; [|done].
  intros tag Htag. apply Hin in Htag as (tagValue & _ & Hpart).
  by apply (tagParts_clean tagValue).
Qed.

Lemma isTagChar_hash : isTagChar hash = false.
Proof. reflexivity. Qed.

Lemma scanTags_some (acc : string) (c : Strings.Ascii.ascii) (rest : string) :
  scanTags (Some acc) (String c rest)
  = if isTagChar c then scanTags (Some (String c acc)) rest
    else emitTag acc
         ++ scanTags (if Strings.Ascii.eqb c hash then Some EmptyString else None)
              rest.
Proof. done. Qed.

Lemma scanTags_none (c : Strings.Ascii.ascii) (rest : string) :
  scanTags None (String c rest)
  = scanTags (if Strings.Ascii.eqb c hash then Some EmptyString else None) rest.
Proof. done. Qed.

Lemma emitTag_elem (acc tag : string) :
  tag ∈ emitTag acc ↔ acc ≠ EmptyString ∧ tag = String.rev acc.
Proof.
  unfold emitTag, nonEmpty. case_bool_decide as Hacc; simpl.
  - rewrite elem_of_nil. split; [done|]. by intros [? _].
  - rewrite list_elem_of_singleton. split; [done|]. by intros [_ ?].
Qed.

Lemma rev_nonempty (s : string) : s ≠ EmptyString → String.rev s ≠ EmptyString.
Proof.
  destruct s as [|c s]; [done|]. intros _. rewrite rev_cons.
  by destruct (String.rev s).
Qed.

Lemma hashtagIn_cons (c : Strings.Ascii.ascii) (content tag : string) :
  hashtagIn content tag → hashtagIn (String c content) tag.
Proof.
  intros (front & rest & -> & Htag). exists (String c front), rest.
  by rewrite string_app_cons.
Qed.

Lemma scanTags_sound (content : string) :
  ∀ (current : option string) (tag : string),
    tag ∈ scanTags current content →
    (∃ acc run rest,
       current = Some acc
       ∧ content = run +:+ rest
       ∧ Forall (λ c, isTagChar c = true) (chars run)
       ∧ match rest with
         | EmptyString => True
         | String c _ => isTagChar c = false
         end
       ∧ tag = String.rev acc +:+ run
       ∧ tag ≠ EmptyString)
    ∨ hashtagIn content tag.
Proof.
  induction content as [|c content IH]; intros current tag Hin.
  - destruct current as [acc|]; simpl in Hin; [|by apply elem_of_nil in Hin].
    apply emitTag_elem in Hin as [Hacc ->]. left.
    exists acc, EmptyString, EmptyString.
    rewrite !string_app_nil_r. split_and!; try done. by apply rev_nonempty.
  - assert (Hnext : ∀ tag,
              tag ∈ scanTags (if Strings.Ascii.eqb c hash then Some EmptyString
                              else None) content →
              hashtagIn (String c content) tag).
    { intros tag' Hin'.
      destruct (IH _ _ Hin')
        as [(acc & run & rest & Hcur & -> & Hrun & Hrest & -> & Hne) | Hhash];
        [|by apply hashtagIn_cons].
      destruct (Strings.Ascii.eqb c hash) eqn:Hc; [|done].
      apply Strings.Ascii.eqb_eq in Hc. subst c. injection Hcur as <-.
      change (String.rev EmptyString) with EmptyString in *.
      rewrite string_app_nil_l in *.
      exists EmptyString, rest. by rewrite string_app_nil_l. }
    destruct current as [acc|].
    + rewrite scanTags_some in Hin. destruct (isTagChar c) eqn:Hc.
      * destruct (IH _ _ Hin)
          as [(acc' & run & rest & [= <-] & -> & Hrun & Hrest & -> & Hne) | Hhash];
          [|right; by apply hashtagIn_cons].
        left. exists acc, (String c run), rest.
        rewrite rev_cons, string_app_assoc in *. split_and!; try done.
        simpl. by constructor.
      * apply elem_of_app in Hin as [Hin|Hin]; [|right; by apply Hnext].
        apply emitTag_elem in Hin as [Hacc ->]. left.
        exists acc, EmptyString, (String c content).
        rewrite !string_app_nil_r. split_and!; try done. by apply rev_nonempty.
    + rewrite scanTags_none in Hin. right. by apply Hnext.
Qed.

Lemma scanTags_run (run : string) :
  ∀ (acc rest : string),
    Forall (λ c, isTagChar c = true) (chars run) →
    scanTags (Some acc) (run +:+ rest)
    = scanTags (Some (String.rev run +:+ acc)) rest.
Proof.
  induction run as [|c run IH]; intros acc rest Hrun; [done|].
  simpl in Hrun. apply Forall_cons in Hrun as [Hc Hrun].
  rewrite string_app_cons, scanTags_some, Hc, IH by done.
  by rewrite rev_cons, string_app_assoc.
Qed.

Lemma scanTags_complete (front : string) :
  ∀ (current : option string) (tag rest : string),
    tag ≠ EmptyString →
    Forall (λ c, isTagChar c = true) (chars tag) →
    match rest with
    | EmptyString => True
    | String c _ => isTagChar c = false
    end →
    tag ∈ scanTags current (front +:+ String hash tag +:+ rest).
Proof.
  induction front as [|c front IH]; intros current tag rest Hne Htag Hrest.
  - rewrite string_app_nil_l, string_app_cons.
    assert (Hfound : tag ∈ scanTags (Some EmptyString) (tag +:+ rest)).
    { rewrite scanTags_run by done. rewrite string_app_nil_r.
      assert (Hemit : tag ∈ emitTag (String.rev tag)).
      { apply emitTag_elem. split; [by apply rev_nonempty|].
        by rewrite rev_involutive. }
      destruct rest as [|d rest]; [done|].
      rewrite scanTags_some, Hrest. apply elem_of_app. by left. }
    destruct current as [acc|].
    + rewrite scanTags_some, isTagChar_hash. apply elem_of_app. right.
      by rewrite Strings.Ascii.eqb_refl.
    + by rewrite scanTags_none, Strings.Ascii.eqb_refl.
  - rewrite string_app_cons.
    destruct current as [acc|].
    + rewrite scanTags_some. destruct (isTagChar c); [by apply IH|].
      apply elem_of_app. right. by apply IH.
    + rewrite scanTags_none. by apply IH.
Qed.

Lemma scanTags_spec (content tag : string) :
  tag ∈ scanTags None content ↔ hashtagIn content tag.
Proof.
  split.
  - intros Hin. by destruct (scanTags_sound _ _ _ Hin) as [(? & ? & ? & ? & _)|?].
  - intros (front & rest & -> & Hne & Htag & Hrest). by apply scanTags_complete.
Qed.

(** X23. [extractTags] returns each tag once, and the tags are exactly
    the hashtags written in the content (a [#] followed by a run of
    letters, digits, [/], [_] and [-] that is not empty, taken as far as
    it goes) together with the normalized tags of the front matter; the
    tags of the content come first. *)
Theorem extractTags_finds_the_hashtags (content : string) (frontMatter : JsValue) :
  let tags := extractTags content frontMatter in
  NoDup tags
  ∧ (∀ tag, tag ∈ tags ↔
       hashtagIn content tag
       ∨ tag ∈ normalizeFrontMatterTags (getField "tags" frontMatter))
  ∧ foldl (λ set tag, setAdd tag set) [] (scanTags None content)
    `prefix_of` tags.
Proof.
  intros tags. subst tags. unfold extractTags.
  destruct (setAdds_spec (scanTags None content) [] (NoDup_nil_2 (A:=string)))
    as (Hnodup & Hin & _).
  destruct (truthy (getField "tags" frontMatter)) eqn:Htruthy.
  - destruct (setAdds_spec
                (normalizeFrontMatterTags (getField "tags" frontMatter)) _ Hnodup)
      as (Hnodup' & Hin' & Hpre).
    split; [done|]. split; [|done].
    intros tag. rewrite Hin', Hin, scanTags_spec, elem_of_nil. tauto.
  - split; [done|]. split; [|done].
    intros tag. rewrite Hin, scanTags_spec, elem_of_nil.
    unfold normalizeFrontMatterTags. rewrite Htruthy. simpl.
    rewrite elem_of_nil. tauto.
Qed.

End Tags.

Section Entities.
Import MetadataExtractor.





End Entities.

(** * Further examples *)

Section FurtherExamples.

Import InitialSyncManager.

(** The first rule that matches gives the priority, not the highest. *)
Example first_rule_wins :
  getFilePriority ruledOptions "projects/daily.md" = 2
  ∧ getFilePriority ruledOptions "projects/plan.md" = 5
  ∧ getFilePriority ruledOptions "inbox.md" = 1.
Proof. by vm_compute. Qed.

Example sorted_by_priority :
  path <$> sortFilesByPriority ruledOptions
             (note <$> ["inbox.md"; "daily/1.md"; "projects/x.md"; "z.md"])
  = ["projects/x.md"; "daily/1.md"; "inbox.md"; "z.md"].
Proof. by vm_compute. Qed.

(** The folder [notes] also excludes what merely starts with its name. *)
Example folder_prefix_excluded :
  path <$> filesToSync ruledOptions
             (note <$> ["notes/a.md"; "notes2/a.md"; "notes.md"; "b.md"])
  = ["b.md"].
Proof. by vm_compute. Qed.

Lemma filesToSync_respects_exclusions_witness :
  note "b.md" ∈ [note "notes2/a.md"; note "b.md"]
  ∧ ¬ ∃ rest, path (note "b.md") = "notes" +:+ rest.
Proof.
  destruct (filesToSync_respects_exclusions ruledOptions
              [note "notes2/a.md"; note "b.md"] (note "b.md"))
    as (Hin & _ & _ & _ & Hfolders & _).
  - vm_compute. apply list_elem_of_here.
  - split; [exact Hin|]. apply Hfolders. vm_compute. apply list_elem_of_here.
Defined.

Lemma nextBatchSize_within_bounds_witness :
  10 ≤ nextBatchSize defaultThrottling 50 1000 50 ≤ 200.
Proof.
  apply (nextBatchSize_within_bounds defaultThrottling 50 1000 50);
    simpl; lia.
Defined.

Lemma startSync_without_files_changes_nothing_witness :
  startSync (calmWorld [note "notes/a.md"] 0) online (λ _, 0%nat)
    (fresh ruledOptions)
  = (Ok tt, {| log := [EvGetFileCount; EvGetMarkdownFiles];
               st := initialState ruledOptions |}).
Proof.
  apply (startSync_without_files_changes_nothing
           (calmWorld [note "notes/a.md"] 0) online (λ _, 0%nat)
           (fresh ruledOptions)); reflexivity.
Defined.

Lemma startSync_extracts_each_file_once_witness :
  ∃ r', startSync (calmWorld [note "a.md"; note "b.md"] 0) online (λ _, 0%nat)
          (fresh defaultOptions) = (Ok tt, r')
        ∧ attempted (newEvents (fresh defaultOptions) r')
          ≡ₚ [note "a.md"; note "b.md"].
Proof.
  apply (startSync_extracts_each_file_once
           (calmWorld [note "a.md"; note "b.md"] 0) online (λ _, 0%nat)
           (fresh defaultOptions)); reflexivity.
Defined.

Lemma startSync_batches_follow_priority_witness :
  ∃ r', startSync (calmWorld (note <$> ["inbox.md"; "projects/x.md"]) 0) online
          (λ _, 0%nat) (fresh ruledOptions) = (Ok tt, r')
        ∧ concat (files <$> batches (st r'))
          = note <$> ["projects/x.md"; "inbox.md"]
        ∧ Forall (λ b, status b = BatchCompleted) (batches (st r')).
Proof.
  destruct (startSync_batches_follow_priority
              (calmWorld (note <$> ["inbox.md"; "projects/x.md"]) 0) online
              (λ _, 0%nat) (fresh ruledOptions))
    as (r' & Hrun & Hcat & Hdone & _); [reflexivity | vm_compute; discriminate |].
  exists r'. split; [exact Hrun|]. split; [exact Hcat | exact Hdone].
Defined.

Lemma startSync_accounts_for_every_file_witness :
  ∃ r', startSync (fullQueueWorld [note "a.md"; note "b.md"]) online (λ _, 0%nat)
          (fresh defaultOptions) = (Ok tt, r')
        ∧ totalFiles (progress (st r')) = 2
        ∧ 0 ≤ processedFiles (progress (st r')) ≤ totalFiles (progress (st r')).
Proof.
  destruct (startSync_accounts_for_every_file
              (fullQueueWorld [note "a.md"; note "b.md"]) online (λ _, 0%nat)
              (fresh defaultOptions))
    as (r' & Hrun & Htotal & _ & Hle); [reflexivity | vm_compute; discriminate |].
  exists r'. split; [exact Hrun|]. split; [exact Htotal | exact Hle].
Defined.

Lemma startSync_batch_counters_witness :
  ∃ r', startSync (fullQueueWorld [note "a.md"; note "b.md"]) online (λ _, 0%nat)
          (fresh defaultOptions) = (Ok tt, r')
        ∧ currentBatch (progress (st r')) = Z.of_nat (length (batches (st r')))
        ∧ currentBatch (progress (st r')) ≤ totalBatches (progress (st r')).
Proof.
  destruct (startSync_batch_counters
              (fullQueueWorld [note "a.md"; note "b.md"]) online (λ _, 0%nat)
              (fresh defaultOptions))
    as (r' & Hrun & Hcur & _ & Hle & _); [reflexivity | vm_compute; discriminate |].
  exists r'. split; [exact Hrun|]. split; [exact Hcur | exact Hle].
Defined.

(** With the queue rejecting both files, nothing is counted as processed
    and the progress ends at batch 1 of 2. *)
Example failed_files_leave_batches_announced :
  let out := startSync (fullQueueWorld [note "a.md"; note "b.md"]) online
               (λ _, 0%nat) (fresh defaultOptions) in
  processedFiles (progress (st out.2)) = 0
  ∧ totalFiles (progress (st out.2)) = 2
  ∧ currentBatch (progress (st out.2)) = 1
  ∧ totalBatches (progress (st out.2)) = 2
  ∧ length (fileReports (log out.2)) = 4%nat.
Proof. by vm_compute. Qed.

Lemma startSync_keeps_adaptive_size_within_bounds_witness :
  ∃ r', startSync (calmWorld [note "a.md"; note "b.md"] 0) online (λ _, 0%nat)
          (fresh defaultOptions) = (Ok tt, r')
        ∧ 10 ≤ adaptiveBatchSize (st r') ≤ 200.
Proof.
  apply (startSync_keeps_adaptive_size_within_bounds
           (calmWorld [note "a.md"; note "b.md"] 0) online (λ _, 0%nat)
           (fresh defaultOptions));
    [reflexivity | vm_compute; discriminate | simpl; lia | simpl; lia].
Defined.

Lemma processFile_then_task_completed_witness :
  ∃ task hash pending,
    enqueued (newEvents (fresh defaultOptions)
                (processFile (calmWorld [] 0) offline (note "a.md")
                   (fresh defaultOptions)).2) = [task]
    ∧ task_id task = "a.md"
    ∧ contentHash (task_metadata task) = Some hash
    ∧ pendingFileMetadata
        (st (processFile (calmWorld [] 0) offline (note "a.md")
               (fresh defaultOptions)).2) !! "a.md" = Some pending.
Proof.
  destruct (processFile_then_task_completed (calmWorld [] 0) offline
              (note "a.md") (fresh defaultOptions)
              (processFile (calmWorld [] 0) offline (note "a.md")
                 (fresh defaultOptions)).2)
    as (task & hash & pending & H1 & H2 & H3 & H4 & _);
    [vm_compute; reflexivity | reflexivity |].
  exists task, hash, pending.
  split; [exact H1|]. split; [exact H2|]. split; [exact H3 | exact H4].
Defined.


Lemma progress_notifications_are_coalesced_witness :
  ∃ updates,
    (runUi (calmWorld [] 0) [Notify; FileCounted; Notify; Flush; Notify]
       (holding [note "a.md"])).1 = Ok updates
    ∧ (length updates ≤ 1)%nat.
Proof.
  destruct (progress_notifications_are_coalesced (calmWorld [] 0)
              [Notify; FileCounted; Notify; Flush; Notify]
              (holding [note "a.md"]) eq_refl)
    as (updates & H1 & H2 & _).
  exists updates. split; [exact H1 | exact H2].
Defined.

(** Two requests, one callback, one more request: two timers, one update. *)
Example notifications_in_a_run :
  let out := runUi (calmWorld [] 0) [Notify; FileCounted; Notify; Flush; Notify]
               (holding [note "a.md"]) in
  scheduled (log out.2) = [EvSetTimeout 16; EvSetTimeout 16]
  ∧ (pu_currentStep <$>
       match out.1 with Ok updates => updates | Err _ => [] end)
    = ["Processing files (1/1)"].
Proof. by vm_compute. Qed.

(** A batch size above the new maximum is kept by [updateOptions], and
    clamped by [updateThrottlingControls]. *)
Example batch_size_escapes_the_bounds :
  let controls :=
    {| newMinBatchSize := None; newMaxBatchSize := Some 100;
       newTargetBatchDurationMs := None; newThrottleDelayMs := None;
       newProgressIntervalMs := None |} in
  let overrides :=
    {| newBatchSize := Some 500; newMaxConcurrentBatches := None;
       newEnableAutoInitialSync := None; newPriorityRules := None;
       newSyncFilePath := None; newExclusions := None;
       newThrottling := Some controls |} in
  let s := updateOptions overrides (initialState defaultOptions) in
  adaptiveBatchSize s = 500
  ∧ maxBatchSize (throttling (options s)) = 100
  ∧ adaptiveBatchSize (updateThrottlingControls controls s) = 100.
Proof. by vm_compute. Qed.

End FurtherExamples.
